(** * gocache: the cache engine of [gocache.go], embedded and verified

    The Go program keeps its entries in a hash index ([map[string]*Entry])
    and threads the very same [*Entry] objects on an intrusive doubly-linked
    list ([head], [tail], [previous], [next]).  The embedding keeps that
    shape: entries live in a heap addressed by pointers, the index maps keys
    to pointers, and every pointer dereference of the source is a heap access
    that panics on [nil].  The [sync.RWMutex] is part of the state, so that a
    lock that is never released is visible. *)

From Stdlib Require Import ZArith Lia.
From stdpp Require Import base option list gmap strings fin_maps.

Local Open Scope Z_scope.

(** ** Data model *)

(** A [*Entry]: [None] is Go's [nil], [Some a] points at heap cell [a]. *)
Abbreviation addr := nat.
Abbreviation ptr := (option nat).

Definition ptr_eqb (p q : ptr) : bool := bool_decide (p = q).
Definition is_nil (p : ptr) : bool := bool_decide (p = None).

(** [interface{}]: the cache never inspects a value; a small tagged union
    stands for the dynamically typed payload, with Go's [nil]. *)
Inductive iface : Type :=
| INil
| IInt (z : Z)
| IStr (s : string)
| IBytes (b : list Z).

(** [time.Duration] and [int64] Unix nanoseconds are 64-bit integers. *)
Definition min_int64 : Z := - 2 ^ 63.
Definition max_int64 : Z := 2 ^ 63 - 1.

(** Two's complement wrap-around of Go's [int64] arithmetic. *)
Definition wrap64 (z : Z) : Z := (z + 2 ^ 63) mod 2 ^ 64 - 2 ^ 63.

(** [Time.Sub] saturates at the extreme durations. *)
Definition sat64 (z : Z) : Z := Z.max min_int64 (Z.min max_int64 z).

(** A [time.Time] is kept as the instant it denotes, in nanoseconds since
    the Unix epoch.  [t.Add(d)] is [t + d]; [t.UnixNano()] computes in
    [int64]; [time.Unix(0, n)] is [n]; [time.Until(t)] is [t.Sub(now)]. *)
Definition UnixNano (t : Z) : Z := wrap64 t.
Definition time_Until (t now : Z) : Z := sat64 (t - now).
Definition Before (t u : Z) : bool := t <? u.

(** The constants of lines 13-22. *)
Definition NoMaxSize : Z := 0.
Definition DefaultMaxSize : Z := 1000.
Definition NoExpiration : Z := -1.

(** Lines 24-27, together with the failures of [os.OpenFile], of [gob]'s
    [Encode] and [Decode], and of [bufio]'s [Flush]. *)
Inductive error : Type :=
| ErrKeyDoesNotExist
| ErrKeyHasNoExpiration
| ErrOpenFile
| ErrDecode
| ErrEncode
| ErrFlush.

(** Modelled from the spec: the [EvictionPolicy] type is declared outside
    [gocache.go]; the spec gives it as the closed set of these two. *)
Inductive EvictionPolicy : Type :=
| FirstInFirstOut
| LeastRecentlyUsed.

Definition policy_eqb (p q : EvictionPolicy) : bool :=
  match p, q with
  | FirstInFirstOut, FirstInFirstOut => true
  | LeastRecentlyUsed, LeastRecentlyUsed => true
  | _, _ => false
  end.

(** Modelled from the spec: the [Entry] struct is declared outside
    [gocache.go]; its fields are those of the spec's data model (key, value,
    expiration, relevantTimestamp, previous, next), with the names
    [gocache.go] uses for them. *)
Record Entry : Type := mkEntry {
  Key : string;
  Value : iface;
  RelevantTimestamp : Z;
  Expiration : Z;
  previous : ptr;
  next : ptr
}.

Definition with_Value (v : iface) (e : Entry) : Entry :=
  mkEntry (Key e) v (RelevantTimestamp e) (Expiration e) (previous e) (next e).
Definition with_RelevantTimestamp (t : Z) (e : Entry) : Entry :=
  mkEntry (Key e) (Value e) t (Expiration e) (previous e) (next e).
Definition with_Expiration (x : Z) (e : Entry) : Entry :=
  mkEntry (Key e) (Value e) (RelevantTimestamp e) x (previous e) (next e).
Definition with_previous (p : ptr) (e : Entry) : Entry :=
  mkEntry (Key e) (Value e) (RelevantTimestamp e) (Expiration e) p (next e).
Definition with_next (p : ptr) (e : Entry) : Entry :=
  mkEntry (Key e) (Value e) (RelevantTimestamp e) (Expiration e) (previous e) p.

(** The exported fields of an entry, which are what [gob] writes and
    reads; the links are blanked. *)
Definition payload (e : Entry) : Entry :=
  mkEntry (Key e) (Value e) (RelevantTimestamp e) (Expiration e) None None.

(** Modelled from the spec: [Entry.Expired] is defined outside [gocache.go].
    The spec's [isExpired(now)]: true iff the expiration is not the never
    sentinel and [now >= expiration]. *)
Definition Expired (e : Entry) (now : Z) : bool :=
  negb (Expiration e =? NoExpiration) && (Expiration e <=? now).

(** The state of a [sync.RWMutex] as one goroutine after the other sees it. *)
Inductive RWMutex : Type :=
| Free
| ReadHeld (readers : nat)
| WriteHeld.

(** The [Cache] struct of lines 29-41, and the heap its pointers point
    into: cell [a] of [heap] is the [Entry] object at address [a].  The
    field [EvictionPolicy] is [Policy] here, its type having that name. *)
Record Cache : Type := mkCache {
  MaxSize : Z;
  Policy : EvictionPolicy;
  entries : gmap string addr;
  mutex : RWMutex;
  head : ptr;
  tail : ptr;
  heap : list Entry
}.

Definition with_MaxSize (n : Z) (c : Cache) : Cache :=
  mkCache n (Policy c) (entries c) (mutex c) (head c) (tail c) (heap c).
Definition with_Policy (p : EvictionPolicy) (c : Cache) : Cache :=
  mkCache (MaxSize c) p (entries c) (mutex c) (head c) (tail c) (heap c).
Definition with_entries (m : gmap string addr) (c : Cache) : Cache :=
  mkCache (MaxSize c) (Policy c) m (mutex c) (head c) (tail c) (heap c).
Definition with_mutex (mu : RWMutex) (c : Cache) : Cache :=
  mkCache (MaxSize c) (Policy c) (entries c) mu (head c) (tail c) (heap c).
Definition with_head (p : ptr) (c : Cache) : Cache :=
  mkCache (MaxSize c) (Policy c) (entries c) (mutex c) p (tail c) (heap c).
Definition with_tail (p : ptr) (c : Cache) : Cache :=
  mkCache (MaxSize c) (Policy c) (entries c) (mutex c) (head c) p (heap c).
Definition with_heap (h : list Entry) (c : Cache) : Cache :=
  mkCache (MaxSize c) (Policy c) (entries c) (mutex c) (head c) (tail c) h.

(** [len(cache.entries)] as a Go [int]. *)
Definition len (m : gmap string addr) : Z := Z.of_nat (size m).

(** ** Effects: state, panics, blocking *)

(** What running a piece of the program from a state gives: a value and the
    next state; a run-time panic (nil dereference, unlock of an unlocked
    mutex); a goroutine blocked for ever on the mutex; or a loop cut short
    by the fuel of the model. *)
Inductive result (A : Type) : Type :=
| Ok (a : A) (c : Cache)
| Panic
| Blocked
| OutOfFuel.
Arguments Ok {A} a c.
Arguments Panic {A}.
Arguments Blocked {A}.
Arguments OutOfFuel {A}.

Definition M (A : Type) : Type := Cache -> result A.

Definition ret {A} (a : A) : M A := fun c => Ok a c.
Definition bind {A B} (m : M A) (k : A -> M B) : M B :=
  fun c => match m c with
           | Ok a c' => k a c'
           | Panic => Panic
           | Blocked => Blocked
           | OutOfFuel => OutOfFuel
           end.

Declare Scope go_scope.
Delimit Scope go_scope with go.
Notation "'let*' x := m 'in' k" := (bind m (fun x => k))
  (at level 10, x name, m at level 100, k at level 200) : go_scope.
Notation "m ;; k" := (bind m (fun _ => k))
  (at level 100, k at level 200, right associativity) : go_scope.
Local Open Scope go_scope.

Definition get_cache : M Cache := fun c => Ok c c.
Definition modify (f : Cache -> Cache) : M unit := fun c => Ok tt (f c).
Definition skip : M unit := ret tt.

(** Reading a field through a pointer: [p.f]. *)
Definition load (p : ptr) : M Entry :=
  fun c => match p with
           | None => Panic
           | Some a => match heap c !! a with
                       | Some e => Ok e c
                       | None => Panic
                       end
           end.

(** Writing a field through a pointer: [p.f = x]. *)
Definition store (p : ptr) (f : Entry -> Entry) : M unit :=
  fun c => match p with
           | None => Panic
           | Some a => match heap c !! a with
                       | Some e => Ok tt (with_heap (<[a := f e]> (heap c)) c)
                       | None => Panic
                       end
           end.

(** [&Entry{...}]: a new object at a fresh address. *)
Definition alloc (e : Entry) : M addr :=
  fun c => Ok (length (heap c)) (with_heap (heap c ++ [e]) c).

(** [cache.mutex.Lock()] and friends. *)
Definition Lock : M unit :=
  fun c => match mutex c with
           | Free => Ok tt (with_mutex WriteHeld c)
           | _ => Blocked
           end.
Definition Unlock : M unit :=
  fun c => match mutex c with
           | WriteHeld => Ok tt (with_mutex Free c)
           | _ => Panic
           end.
Definition RLock : M unit :=
  fun c => match mutex c with
           | Free => Ok tt (with_mutex (ReadHeld 1) c)
           | ReadHeld n => Ok tt (with_mutex (ReadHeld (S n)) c)
           | WriteHeld => Blocked
           end.
Definition RUnlock : M unit :=
  fun c => match mutex c with
           | ReadHeld 1 => Ok tt (with_mutex Free c)
           | ReadHeld (S (S n)) => Ok tt (with_mutex (ReadHeld (S n)) c)
           | _ => Panic
           end.

(** ** The operations of [gocache.go] *)

(** Lines 44-51. *)
Definition NewCache : Cache :=
  mkCache DefaultMaxSize FirstInFirstOut ∅ Free None None [].

(** Lines 55-61. *)
Definition WithMaxSize (maxSize : Z) : M unit :=
  modify (with_MaxSize (if maxSize <? 0 then NoMaxSize else maxSize)).

(** Lines 65-68. *)
Definition WithEvictionPolicy (policy : EvictionPolicy) : M unit :=
  modify (with_Policy policy).

(** Lines 347-360. *)
Definition removeExistingEntryReferences (entry : ptr) : M unit :=
  let* c := get_cache in
  (if ptr_eqb (tail c) entry
   then let* t := load (tail c) in modify (with_tail (next t))
   else skip) ;;
  let* c := get_cache in
  (if ptr_eqb (head c) entry
   then let* e := load entry in modify (with_head (previous e))
   else skip) ;;
  let* e := load entry in
  (if negb (is_nil (previous e))
   then store (previous e) (with_next (next e))
   else skip) ;;
  let* e := load entry in
  (if negb (is_nil (next e))
   then store (next e) (with_previous (previous e))
   else skip).

(** Lines 332-342. *)
Definition moveExistingEntryToHead (entry : ptr) : M unit :=
  let* c := get_cache in
  (if negb (ptr_eqb entry (head c) && ptr_eqb entry (tail c))
   then removeExistingEntryReferences entry
   else skip) ;;
  let* c := get_cache in
  if negb (ptr_eqb entry (head c))
  then store entry (with_previous (head c)) ;;
       store entry (with_next None) ;;
       store (head c) (with_next entry) ;;
       modify (with_head entry)
  else skip.

(** Lines 363-372. *)
Definition evict : M unit :=
  let* c := get_cache in
  if is_nil (tail c) || (len (entries c) =? 0)
  then skip
  else
    if negb (is_nil (tail c))
    then let* t := load (tail c) in
         modify (fun c => with_entries (delete (Key t) (entries c)) c) ;;
         let* t := load (tail c) in
         modify (with_tail (next t)) ;;
         let* c := get_cache in
         store (tail c) (with_previous None)
    else skip.

(** The value lines 105-109 (and 245-249) store in [entry.Expiration]. *)
Definition expiration_for (ttl now : Z) : Z :=
  if negb (ttl =? NoExpiration)
  then UnixNano (now + ttl)
  else NoExpiration.

(** Lines 105-119 of [SetWithTTL]: the expiration is written, then at most
    one entry is evicted.  [now] is the clock read at line 106. *)
Definition SetWithTTL_finish (entry : ptr) (ttl : Z) (now : Z) : M unit :=
  store entry (with_Expiration (expiration_for ttl now)) ;;
  let* c := get_cache in
  if MaxSize c =? NoMaxSize
  then Unlock
  else (if len (entries c) >? MaxSize c then evict else skip) ;;
       Unlock.

(** Lines 87-99 of [SetWithTTL]: a new entry, linked in at the head.
    [now] is the clock read at line 90. *)
Definition SetWithTTL_create (key : string) (value : iface) (now : Z) : M addr :=
  let* c := get_cache in
  let* entry := alloc (mkEntry key value now 0 (head c) None) in
  (if is_nil (head c)
   then modify (with_tail (Some entry))
   else store (head c) (with_next (Some entry))) ;;
  modify (with_head (Some entry)) ;;
  modify (fun c => with_entries (<[key := entry]> (entries c)) c) ;;
  ret entry.

(** Lines 76-120.  [now_created] is the clock read at line 90 and
    [now_expiry] the one read at line 106. *)
Definition SetWithTTL (key : string) (value : iface) (ttl : Z)
    (now_created now_expiry : Z) : M unit :=
  Lock ;;
  let* c := get_cache in
  match entries c !! key with
  | None =>
      if negb (ttl =? NoExpiration) && (ttl <? 0)
      then Unlock
      else
        let* entry := SetWithTTL_create key value now_created in
        SetWithTTL_finish (Some entry) ttl now_expiry
  | Some entry =>
      store (Some entry) (with_Value value) ;;
      moveExistingEntryToHead (Some entry) ;;
      SetWithTTL_finish (Some entry) ttl now_expiry
  end.

(** Lines 71-73. *)
Definition Set_ (key : string) (value : iface) (now_created : Z) : M unit :=
  SetWithTTL key value NoExpiration now_created now_created.

(** Modelled from the spec: [Entry.Accessed] is defined outside
    [gocache.go].  Under LeastRecentlyUsed a successful read is the most
    recent relevant instant of an entry, so the read stamps
    relevantTimestamp with the current time. *)
Definition Accessed (entry : ptr) (now : Z) : M unit :=
  store entry (with_RelevantTimestamp now).

(** Lines 126-138 of [Get]: the lookup under the read lock, the expiry
    test, and the unlocked look at [cache.head].  The answer is the entry
    still to be relinked, if any, and what [Get] returns. *)
Definition Get_lookup (key : string) (now now_accessed : Z)
    : M (ptr * (iface * bool)) :=
  RLock ;;
  let* c := get_cache in
  RUnlock ;;
  match entries c !! key with
  | None => ret (None, (INil, false))
  | Some entry =>
      let* e := load (Some entry) in
      if Expired e now
      then ret (None, (INil, false))
      else
        let* c := get_cache in
        if policy_eqb (Policy c) LeastRecentlyUsed
        then Accessed (Some entry) now_accessed ;;
             let* c := get_cache in
             let* e := load (Some entry) in
             if ptr_eqb (head c) (Some entry)
             then ret (None, (Value e, true))
             else ret (Some entry, (Value e, true))
        else ret (None, (Value e, true))
  end.

(** Lines 139-143 of [Get]: the relink under the write lock. *)
Definition Get_relink (r : ptr * (iface * bool)) : M (iface * bool) :=
  match fst r with
  | None => ret (snd r)
  | Some entry =>
      Lock ;;
      moveExistingEntryToHead (Some entry) ;;
      Unlock ;;
      let* e := load (Some entry) in
      ret (Value e, true)
  end.

(** Lines 125-144. *)
Definition Get (key : string) (now now_accessed : Z) : M (iface * bool) :=
  let* r := Get_lookup key now now_accessed in
  Get_relink r.

(** Lines 151-157.  Every [Get] of the loop reads the clock for itself:
    [clock i] gives the two readings of the [Get] of the key at position
    [i] of [keys], the one of the expiry test and the one of [Accessed];
    [i] is the position the loop has reached. *)
Fixpoint GetAll_loop (keys : list string) (i : nat) (clock : nat -> Z * Z)
    (found : gmap string iface) : M (gmap string iface) :=
  match keys with
  | [] => ret found
  | key :: keys' =>
      let* r := Get key (clock i).1 (clock i).2 in
      GetAll_loop keys' (S i) clock (<[key := fst r]> found)
  end.

Definition GetAll (keys : list string) (clock : nat -> Z * Z)
    : M (gmap string iface) :=
  GetAll_loop keys 0 clock ∅.

(** Lines 161-170. *)
Definition Delete (key : string) : M bool :=
  Lock ;;
  let* c := get_cache in
  match entries c !! key with
  | Some entry =>
      removeExistingEntryReferences (Some entry) ;;
      modify (fun c => with_entries (delete key (entries c)) c) ;;
      Unlock ;;
      ret true
  | None => Unlock ;; ret false
  end.

(** Lines 175-188. *)
Fixpoint DeleteAll_loop (keys : list string) (numberOfKeysDeleted : Z) : M Z :=
  match keys with
  | [] => ret numberOfKeysDeleted
  | key :: keys' =>
      let* c := get_cache in
      match entries c !! key with
      | Some entry =>
          removeExistingEntryReferences (Some entry) ;;
          modify (fun c => with_entries (delete key (entries c)) c) ;;
          DeleteAll_loop keys' (numberOfKeysDeleted + 1)
      | None => DeleteAll_loop keys' numberOfKeysDeleted
      end
  end.

Definition DeleteAll (keys : list string) : M Z :=
  Lock ;;
  let* n := DeleteAll_loop keys 0 in
  Unlock ;;
  ret n.

(** Lines 191-196. *)
Definition Count : M Z :=
  RLock ;;
  let* c := get_cache in
  RUnlock ;;
  ret (len (entries c)).

(** Lines 199-205. *)
Definition Clear : M unit :=
  Lock ;;
  modify (with_entries ∅) ;;
  modify (with_head None) ;;
  modify (with_tail None) ;;
  Unlock.

(** Lines 212-229. *)
Definition TTL (key : string) (now : Z) : M (Z * option error) :=
  RLock ;;
  let* c := get_cache in
  RUnlock ;;
  match entries c !! key with
  | None => ret (0, Some ErrKeyDoesNotExist)
  | Some entry =>
      let* e := load (Some entry) in
      if Expiration e =? NoExpiration
      then ret (0, Some ErrKeyHasNoExpiration)
      else
        let timeUntilExpiration := time_Until (Expiration e) now in
        if timeUntilExpiration <? 0
        then ret (0, Some ErrKeyDoesNotExist)
        else ret (timeUntilExpiration, None)
  end.

(** Lines 238-251. *)
Definition Expire (key : string) (ttl : Z) (now now_expiry : Z) : M bool :=
  RLock ;;
  let* c := get_cache in
  RUnlock ;;
  match entries c !! key with
  | None => ret false
  | Some entry =>
      let* e := load (Some entry) in
      if Expired e now
      then ret false
      else
        store (Some entry) (with_Expiration (expiration_for ttl now_expiry)) ;;
        ret true
  end.

(** ** Persistence (lines 255-329) *)

(** What [os.OpenFile] and [gob] make of the file at a path: it cannot be
    opened; or its content is not a complete gob stream of a
    [map[string]*Entry], so that [Decode] fails, after it has decoded the
    records [decoded] into the map it was handed (none of them when the
    stream is wrong from its start, some when it breaks off or goes wrong
    further on); or it decodes to the records of such a map.  A record
    carries the exported fields of an [Entry]; the links are not part of
    the encoding. *)
Inductive File : Type :=
| Unreadable
| Garbled (decoded : list (string * Entry))
| Encoded (records : list (string * Entry)).

(** What [encoder.Encode(cache.entries)] writes: one record per key, with
    the entry the key points at. *)
Definition records_of (c : Cache) : list (string * Entry) :=
  omap (fun ka => (fun e => (ka.1, payload e)) <$> heap c !! ka.2)
       (map_to_list (entries c)).

(** What the operating system and [gob] do in one [SaveToFile]:
    [os.OpenFile] fails (line 257), or [encoder.Encode] fails (line 266),
    or [writer.Flush] fails (line 269), or all three succeed. *)
Inductive Saving : Type :=
| OpenFails
| EncodeFails
| FlushFails
| Saved.

(** Lines 255-270.  The answer carries the snapshot that the file holds
    when it was written in full, and the error that is returned.  After a
    failure of [Encode] or [Flush] the file, truncated on opening, holds no
    snapshot. *)
Definition SaveToFile (saving : Saving) : M (option File * option error) :=
  match saving with
  | OpenFails => ret (None, Some ErrOpenFile)
  | _ =>
      RLock ;;
      let* c := get_cache in
      RUnlock ;;
      match saving with
      | EncodeFails => ret (None, Some ErrEncode)
      | FlushFails => ret (None, Some ErrFlush)
      | _ => ret (Some (Encoded (records_of c)), None)
      end
  end.

(** The entry [gob] builds from a record: the exported fields, no links. *)
Definition payload_of_record (kd : string * Entry) : Entry :=
  payload kd.2.

(** [decoder.Decode(&cache.entries)], for the records it gets through
    (all of them on a decodable stream, those before the failure
    otherwise): [gob] decodes into the map it is handed, allocating a fresh
    [Entry] per record and storing it under the record's key; keys that are
    not in the stream are left alone. *)
Fixpoint Decode (records : list (string * Entry)) : M unit :=
  match records with
  | [] => skip
  | (k, d) :: rest =>
      let* entry := alloc (payload_of_record (k, d)) in
      modify (fun c => with_entries (<[k := entry]> (entries c)) c) ;;
      Decode rest
  end.

(** Lines 302-314: relinking from tail to head. *)
Fixpoint relink (prev : ptr) (sorted : list addr) : M unit :=
  match sorted with
  | [] => skip
  | current :: rest =>
      (if is_nil prev
       then modify (with_tail (Some current)) ;;
            modify (with_head (Some current))
       else store prev (with_next (Some current)) ;;
            store (Some current) (with_previous prev) ;;
            modify (with_head (Some current))) ;;
      relink (Some current) rest
  end.

(** Lines 322-326.  The loop runs as long as its test holds; [fuel] bounds
    the iterations of the model. *)
Fixpoint evict_loop (fuel : nat) (numberOfEvictions : Z) : M Z :=
  let* c := get_cache in
  if len (entries c) >? MaxSize c
  then match fuel with
       | O => fun _ => OutOfFuel
       | S fuel' => evict ;; evict_loop fuel' (numberOfEvictions + 1)
       end
  else ret numberOfEvictions.

(** The timestamp [sort.Slice] compares at an address. *)
Definition timestamp_at (h : list Entry) (a : addr) : Z :=
  default 0 (RelevantTimestamp <$> h !! a).

Section Restore.

(** Lines 293-300: the values of the map, in the order Go happens to range
    over it, sorted by [sort.Slice] (which is not stable).  Which of the
    admissible orders comes out is left to the run time. *)
Variable sorted_entries : list Entry -> gmap string addr -> list addr.

(** Lines 279-329. *)
Definition ReadFromFile (file : File) (fuel : nat) : M (Z * option error) :=
  match file with
  | Unreadable => ret (0, Some ErrOpenFile)
  | Garbled decoded =>
      Lock ;;
      Decode decoded ;;
      ret (0, Some ErrDecode)
  | Encoded records =>
      Lock ;;
      Decode records ;;
      let* c := get_cache in
      relink None (sorted_entries (heap c) (entries c)) ;;
      let* c := get_cache in
      if MaxSize c =? NoMaxSize
      then Unlock ;; ret (0, None)
      else
        let* numberOfEvictions := evict_loop fuel 0 in
        Unlock ;;
        ret (numberOfEvictions, None)
  end.

End Restore.

(** Sortedness as [sort.Slice] promises it for the comparison of line 299:
    no entry comes before an older one. *)
Definition ascending (h : list Entry) (l : list addr) : Prop :=
  forall i j a b, (i <= j)%nat -> l !! i = Some a -> l !! j = Some b ->
                  timestamp_at h a <= timestamp_at h b.

(** The contract of lines 293-300: a permutation of the map's values,
    sorted by timestamp. *)
Definition sorts_by_timestamp
    (sorted_entries : list Entry -> gmap string addr -> list addr) : Prop :=
  forall h m,
    sorted_entries h m ≡ₚ (map_to_list m).*2 /\
    ascending h (sorted_entries h m).

(** One admissible order: insertion sort of the map's values. *)
Fixpoint insert_by_timestamp (h : list Entry) (a : addr) (l : list addr)
    : list addr :=
  match l with
  | [] => [a]
  | b :: l' =>
      if Before (timestamp_at h b) (timestamp_at h a)
      then b :: insert_by_timestamp h a l'
      else a :: l
  end.

Definition sort_by_timestamp (h : list Entry) (m : gmap string addr)
    : list addr :=
  foldr (insert_by_timestamp h) [] (map_to_list m).*2.

(** What [Decode] does to the heap and to the index, in closed form: the
    records become fresh entries behind the old ones, and each record's key
    points at its entry. *)
Definition decoded_heap (h : list Entry) (records : list (string * Entry))
    : list Entry :=
  h ++ (payload_of_record <$> records).

Fixpoint decoded_index (base : addr) (records : list (string * Entry))
    (m : gmap string addr) : gmap string addr :=
  match records with
  | [] => m
  | (k, _) :: rest => decoded_index (S base) rest (<[k := base]> m)
  end.

(** The records [SaveToFile] writes from a cache whose keys agree with its
    entries ([records_of_well_keyed]): each is filed under the key it
    carries. *)
Definition well_keyed (records : list (string * Entry)) : Prop :=
  Forall (fun kd => Key kd.2 = kd.1) records.

(** How often lines 322-326 evict when [count] entries are in the index. *)
Definition evictions (maxSize : Z) (count : nat) : nat :=
  if maxSize =? NoMaxSize then 0%nat else (count - Z.to_nat maxSize)%nat.

(** ** Structural invariants *)

(** [seg h prev l nxt]: the entries at the addresses [l] are linked to each
    other in this order, the first one pointing back at [prev] and the last
    one pointing on at [nxt]. *)
Fixpoint seg (h : list Entry) (prev : ptr) (l : list addr) (nxt : ptr) : Prop :=
  match l with
  | [] => True
  | a :: l' =>
      exists e, h !! a = Some e /\ previous e = prev /\
                next e = match l' with [] => nxt | b :: _ => Some b end /\
                seg h (Some a) l' nxt
  end.

Definition first_or (l : list addr) (d : ptr) : ptr :=
  match l with [] => d | b :: _ => Some b end.
Definition last_or (l : list addr) (d : ptr) : ptr :=
  match last l with Some b => Some b | None => d end.

(** Every indexed key leads to a live entry that carries this key. *)
Definition key_consistent (c : Cache) : Prop :=
  forall k a, entries c !! k = Some a ->
              exists e, heap c !! a = Some e /\ Key e = k.

(** The structure restoring leaves behind, for the list [l] of addresses
    from tail to head: index and list hold the same entries, each once;
    [tail] and [head] are the two ends of [l] ([nil] iff it is empty); the
    links are those of [l], the first entry pointing back at [p] and the
    last one on at [n]. *)
Record chained (c : Cache) (l : list addr) (p n : ptr) : Prop := mkChained {
  chained_nodup : NoDup l;
  chained_tail : tail c = l !! 0%nat;
  chained_head : head c = last l;
  chained_seg : seg (heap c) p l n;
  chained_index : forall k a, entries c !! k = Some a ->
                              a ∈ l /\ exists e, heap c !! a = Some e /\ Key e = k;
  chained_listed : forall a e, a ∈ l -> heap c !! a = Some e ->
                               entries c !! Key e = Some a
}.

(** The spec's invariants: the same, with nothing before the tail and
    nothing behind the head. *)
Definition linked (c : Cache) (l : list addr) : Prop := chained c l None None.

(** A cache between two operations: nobody holds the mutex, the maximum
    size is one [WithMaxSize] can have set, and the invariants hold. *)
Definition valid (c : Cache) : Prop :=
  mutex c = Free /\ 0 <= MaxSize c /\ exists l, linked c l.

(** What relinking leaves alone: the index, the mutex, the configuration
    and the payload of every entry. *)
Definition frame (c c' : Cache) : Prop :=
  entries c' = entries c /\ mutex c' = mutex c /\ MaxSize c' = MaxSize c /\
  Policy c' = Policy c /\ payload <$> heap c' = payload <$> heap c.

(** *** The invariants as a check that runs *)

Fixpoint segb (h : list Entry) (prev : ptr) (l : list addr) (nxt : ptr) : bool :=
  match l with
  | [] => true
  | a :: l' =>
      match h !! a with
      | Some e =>
          ptr_eqb (previous e) prev &&
          ptr_eqb (next e) (match l' with [] => nxt | b :: _ => Some b end) &&
          segb h (Some a) l' nxt
      | None => false
      end
  end.

Definition index_entry_ok (h : list Entry) (l : list addr) (ka : string * addr) : bool :=
  bool_decide (ka.2 ∈ l) &&
  match h !! ka.2 with
  | Some e => bool_decide (Key e = ka.1)
  | None => false
  end.

Definition listed_entry_ok (h : list Entry) (m : gmap string addr) (a : addr) : bool :=
  match h !! a with
  | Some e => bool_decide (m !! Key e = Some a)
  | None => true
  end.

Definition linkedb (c : Cache) (l : list addr) : bool :=
  bool_decide (NoDup l) &&
  ptr_eqb (tail c) (l !! 0%nat) &&
  ptr_eqb (head c) (last l) &&
  segb (heap c) None l None &&
  forallb (index_entry_ok (heap c) l) (map_to_list (entries c)) &&
  forallb (listed_entry_ok (heap c) (entries c)) l.

(** The addresses met on the way from [p] along [next], at most [fuel]
    of them. *)
Fixpoint walk (h : list Entry) (p : ptr) (fuel : nat) : list addr :=
  match fuel, p with
  | S fuel', Some a =>
      match h !! a with
      | Some e => a :: walk h (next e) fuel'
      | None => [a]
      end
  | _, _ => []
  end.

(** The list of a cache, from tail to head. *)
Definition list_of (c : Cache) : list addr :=
  walk (heap c) (tail c) (length (heap c)).

Definition validb (c : Cache) : bool :=
  match mutex c with Free => true | _ => false end &&
  (0 <=? MaxSize c) &&
  linkedb c (list_of c).

(** ** Sample caches and snapshots *)

(** The state a run ends in (the starting state if it does not end). *)
Definition after {A} (m : M A) (c : Cache) : Cache :=
  match m c with
  | Ok _ c' => c'
  | _ => c
  end.

(** One key, set at 10. *)
Definition one_entry_cache : Cache :=
  after (Set_ "a" (IInt 1) 10) NewCache.

(** One key, set at an instant of the year 2023. *)
Definition cache_k : Cache :=
  after (Set_ "k" (IInt 1) 1700000000000000000) NewCache.

(** Two keys in a cache of maximum size 2. *)
Definition full_cache : Cache :=
  after (WithMaxSize 2 ;; Set_ "a" (IInt 1) 10 ;; Set_ "b" (IInt 2) 20) NewCache.

(** Under LeastRecentlyUsed, "a" expiring at 15 and "b" never. *)
Definition cache_with_ttl : Cache :=
  after (WithEvictionPolicy LeastRecentlyUsed ;;
         SetWithTTL "a" (IInt 1) 5 10 10 ;; Set_ "b" (IInt 2) 20) NewCache.

(** Under LeastRecentlyUsed, "a" the tail and "b" the head. *)
Definition lru_cache : Cache :=
  after (WithEvictionPolicy LeastRecentlyUsed ;;
         Set_ "a" (IInt 1) 10 ;; Set_ "b" (IInt 2) 20) NewCache.

(** Three records, not in the order of their timestamps. *)
Definition snapshot3 : list (string * Entry) :=
  [("a", mkEntry "a" (IInt 1) 30 NoExpiration None None);
   ("b", mkEntry "b" (IInt 2) 10 NoExpiration None None);
   ("c", mkEntry "c" (IInt 3) 20 NoExpiration None None)].

(** An empty cache of maximum size 2. *)
Definition small_cache : Cache := after (WithMaxSize 2) NewCache.

(** "x", stamped 10, in a cache of maximum size 1, and in a roomy one. *)
Definition cache_x : Cache :=
  after (WithMaxSize 1 ;; Set_ "x" (IInt 1) 10) NewCache.

Definition cache_x_roomy : Cache := after (Set_ "x" (IInt 1) 10) NewCache.

(** A snapshot that holds "y", stamped 20. *)
Definition snapshot_y : list (string * Entry) :=
  [("y", mkEntry "y" (IInt 2) 20 NoExpiration None None)].

(** ** What a client observes *)

(** What a reader is to be told about a key at an instant, read off index
    and heap: the value of the entry the key leads to, when there is one
    and it is not expired. *)
Definition Get_answer (c : Cache) (key : string) (now : Z) : iface * bool :=
  match entries c !! key with
  | Some a =>
      match heap c !! a with
      | Some e => if Expired e now then (INil, false) else (Value e, true)
      | None => (INil, false)
      end
  | None => (INil, false)
  end.

(** The fields of an entry that no read writes: key, value and
    expiration. *)
Definition content (e : Entry) : string * iface * Z :=
  (Key e, Value e, Expiration e).

(** The entry a key leads to, as [gob] would write it: the payload,
    without the links. *)
Definition stored (c : Cache) (k : string) : option Entry :=
  entries c !! k ≫= fun a => payload <$> heap c !! a.

(** ** Sequences of calls *)

(** A call of one of the methods of [gocache.go] that work on the cache in
    memory, with its arguments and the clock readings it makes. *)
Inductive call : Type :=
| CallWithMaxSize (maxSize : Z)
| CallWithEvictionPolicy (policy : EvictionPolicy)
| CallSet (key : string) (value : iface) (now : Z)
| CallSetWithTTL (key : string) (value : iface) (ttl now_created now_expiry : Z)
| CallGet (key : string) (now now_accessed : Z)
| CallGetAll (keys : list string) (clock : nat -> Z * Z)
| CallDelete (key : string)
| CallDeleteAll (keys : list string)
| CallCount
| CallClear
| CallTTL (key : string) (now : Z)
| CallExpire (key : string) (ttl now now_expiry : Z)
| CallSaveToFile (saving : Saving).

(** The call, its answer dropped. *)
Definition run_call (o : call) : M unit :=
  match o with
  | CallWithMaxSize maxSize => WithMaxSize maxSize
  | CallWithEvictionPolicy policy => WithEvictionPolicy policy
  | CallSet key value now => Set_ key value now
  | CallSetWithTTL key value ttl now_created now_expiry =>
      SetWithTTL key value ttl now_created now_expiry
  | CallGet key now now_accessed => Get key now now_accessed ;; skip
  | CallGetAll keys clock => GetAll keys clock ;; skip
  | CallDelete key => Delete key ;; skip
  | CallDeleteAll keys => DeleteAll keys ;; skip
  | CallCount => Count ;; skip
  | CallClear => Clear
  | CallTTL key now => TTL key now ;; skip
  | CallExpire key ttl now now_expiry => Expire key ttl now now_expiry ;; skip
  | CallSaveToFile saving => SaveToFile saving ;; skip
  end.

(** One goroutine making the calls one after the other. *)
Fixpoint run_calls (os : list call) : M unit :=
  match os with
  | [] => skip
  | o :: os' => run_call o ;; run_calls os'
  end.

(** ** Lemmas on linked segments *)

Lemma seg_insert_links h p l n x ex e' :
  h !! x = Some ex -> previous e' = previous ex -> next e' = next ex ->
  seg h p l n -> seg (<[x := e']> h) p l n.
Proof.
  intros Hx Hp Hn. revert p. induction l as [|a l IH]; intros p; simpl; [done|].
  intros (e & He & Hpe & Hne & Hs).
  destruct (decide (a = x)) as [->|Hax].
  - exists e'. rewrite list_lookup_insert_eq by (eapply lookup_lt_Some; eauto).
    assert (e = ex) by congruence. subst e.
    split; [done|]. split; [congruence|]. split; [congruence|]. auto.
  - exists e. rewrite list_lookup_insert_ne by congruence. auto.
Qed.

Lemma seg_insert_notin h p l n x e' :
  x ∉ l -> seg h p l n -> seg (<[x := e']> h) p l n.
Proof.
  revert p. induction l as [|a l IH]; intros p Hx; simpl; [done|].
  intros (e & He & Hpe & Hne & Hs).
  apply not_elem_of_cons in Hx as [Hxa Hxl].
  exists e. rewrite list_lookup_insert_ne by congruence. auto.
Qed.

Lemma seg_heap_app h t p l n : seg h p l n -> seg (h ++ t) p l n.
Proof.
  revert p. induction l as [|a l IH]; intros p; simpl; [done|].
  intros (e & He & Hpe & Hne & Hs).
  exists e. split; [by apply lookup_app_l_Some | auto].
Qed.

Lemma last_or_cons a l p : last_or (a :: l) p = last_or l (Some a).
Proof. unfold last_or. rewrite last_cons. by destruct (last l). Qed.

Lemma seg_app h p l1 l2 n :
  seg h p (l1 ++ l2) n <->
  seg h p l1 (first_or l2 n) /\ seg h (last_or l1 p) l2 n.
Proof.
  revert p. induction l1 as [|a l1 IH]; intros p.
  - simpl. unfold last_or. simpl. tauto.
  - rewrite last_or_cons. simpl. split.
    + intros (e & He & Hpe & Hne & Hs). apply IH in Hs as [Hs1 Hs2].
      split; [|done]. exists e. repeat split; [done..| |done].
      rewrite Hne. by destruct l1.
    + intros [(e & He & Hpe & Hne & Hs1) Hs2].
      exists e. repeat split; [done..| |by apply IH].
      rewrite Hne. by destruct l1.
Qed.

Lemma seg_valid h p l n a : seg h p l n -> a ∈ l -> is_Some (h !! a).
Proof.
  revert p. induction l as [|b l IH]; intros p; simpl.
  - intros _ Ha. by apply elem_of_nil in Ha.
  - intros (e & He & _ & _ & Hs) Ha. apply elem_of_cons in Ha as [->|Ha]; eauto.
Qed.

(** Redirecting the back link of the first entry. *)
Lemma seg_set_previous h p p' q l n eq :
  NoDup (q :: l) -> h !! q = Some eq -> seg h p (q :: l) n ->
  seg (<[q := with_previous p' eq]> h) p' (q :: l) n.
Proof.
  intros Hnd Hq (e & He & Hpe & Hne & Hs). apply NoDup_cons in Hnd as [Hql _].
  assert (e = eq) by congruence. subst e.
  exists (with_previous p' eq).
  rewrite list_lookup_insert_eq by (eapply lookup_lt_Some; eauto).
  repeat split; [done|]. by apply seg_insert_notin.
Qed.

(** Redirecting the forward link of the last entry. *)
Lemma seg_set_next h p l x n n' ex :
  NoDup (l ++ [x]) -> h !! x = Some ex -> seg h p (l ++ [x]) n ->
  seg (<[x := with_next n' ex]> h) p (l ++ [x]) n'.
Proof.
  intros Hnd Hx Hs. apply seg_app in Hs as [Hs1 Hs2]. apply seg_app.
  apply NoDup_app in Hnd as (_ & Hdisj & _).
  split.
  - apply seg_insert_notin; [|done]. intros Hin. apply (Hdisj x Hin). by left.
  - simpl in *. destruct Hs2 as (e & He & Hpe & Hne & _).
    assert (e = ex) by congruence. subst e.
    exists (with_next n' ex).
    by rewrite list_lookup_insert_eq by (eapply lookup_lt_Some; eauto).
Qed.

Lemma list_snoc_or_nil {A} (l : list A) : l = [] \/ exists l' x, l = l' ++ [x].
Proof.
  destruct (last l) as [x|] eqn:E.
  - right. apply last_Some in E as [l' ->]. eauto.
  - left. by apply last_None.
Qed.

Lemma payload_insert (h : list Entry) (x : nat) ex e' :
  h !! x = Some ex -> payload e' = payload ex ->
  payload <$> <[x := e']> h = payload <$> h.
Proof.
  intros Hx He. rewrite list_fmap_insert, He.
  apply list_insert_id. by rewrite list_lookup_fmap, Hx.
Qed.

Ltac solve_lt :=
  rewrite ?length_insert, ?length_app; cbn;
  first [ lia | eapply lookup_lt_Some; eassumption
        | match goal with H : _ !! ?a = Some _ |- (?a < _)%nat =>
            apply lookup_lt_Some in H; lia end ].

Ltac eval_step :=
  match goal with
  | H : ?h !! ?a = Some _ |- context [?h !! ?a] => rewrite H
  | |- context [bool_decide (?x = ?x)] =>
      rewrite (bool_decide_eq_true_2 (x = x)) by reflexivity
  | |- context [bool_decide (Some ?x = None)] =>
      rewrite (bool_decide_eq_false_2 (Some x = None)) by discriminate
  | |- context [bool_decide (None = Some ?x)] =>
      rewrite (bool_decide_eq_false_2 (None = Some x)) by discriminate
  | |- context [bool_decide (Some ?x = Some ?y)] =>
      rewrite (bool_decide_eq_false_2 (Some x = Some y)) by congruence
  | |- context [<[?x := ?e]> ?h !! ?x] =>
      rewrite (list_lookup_insert_eq h x e) by solve_lt
  | |- context [<[?x := ?e]> ?h !! ?y] =>
      rewrite (list_lookup_insert_ne h x y e) by congruence
  end.

Ltac run :=
  unfold removeExistingEntryReferences, moveExistingEntryToHead, evict,
    bind, get_cache, load, store, modify, skip, ret, ptr_eqb, is_nil;
  cbn; repeat (eval_step; cbn).

Lemma seg_lookup_first h p q l n : seg h p (q :: l) n -> is_Some (h !! q).
Proof. intros (e & He & _). eauto. Qed.

Lemma last_cons_ne (a q : addr) l : a ∉ q :: l -> exists z, last (q :: l) = Some z /\ z ≠ a.
Proof.
  intros Ha. destruct (last (q :: l)) as [z|] eqn:E.
  - exists z. split; [done|]. intros ->. apply Ha. by apply last_Some_elem_of.
  - by apply last_None in E.
Qed.

Lemma removeExistingEntryReferences_seg c l1 a l2 :
  NoDup (l1 ++ a :: l2) ->
  tail c = (l1 ++ a :: l2) !! 0%nat ->
  head c = last (l1 ++ a :: l2) ->
  seg (heap c) None (l1 ++ a :: l2) None ->
  exists c',
    removeExistingEntryReferences (Some a) c = Ok tt c' /\
    tail c' = (l1 ++ l2) !! 0%nat /\
    head c' = last (l1 ++ l2) /\
    seg (heap c') None (l1 ++ l2) None /\
    heap c' !! a = heap c !! a /\
    frame c c'.
Proof.
  intros Hnd Ht Hh Hs.
  destruct c as [ms pol m mu hd tl h]; simpl in *.
  apply seg_app in Hs as [Hs1 Hs2]. simpl in Hs2.
  destruct Hs2 as (e & He & Hpe & Hne & Hs2).
  pose proof Hnd as Hnd0.
  apply NoDup_app in Hnd as (Hnd1 & Hdisj & Hnd2).
  apply NoDup_cons in Hnd2 as [Hal2 Hnd2].
  assert (Hal1 : a ∉ l1) by (intros Hin; apply (Hdisj a Hin); by left).
  destruct e as [k v ts ex pr nx]; simpl in *.
  destruct (list_snoc_or_nil l1) as [->|(l1' & p & ->)];
    destruct l2 as [|q l2'].
  - (* the only entry *)
    simpl in *. unfold last_or in *. simpl in *. subst. run.
    eexists; split; [reflexivity|]. cbn. unfold frame; cbn. done.
  - (* the tail of several *)
    simpl in Ht, Hh, Hpe, Hne. unfold last_or in Hpe. simpl in Hpe. subst.
    destruct (seg_lookup_first _ _ _ _ _ Hs2) as [eq Heq].
    destruct (last_cons_ne a q l2' Hal2) as (z & Hz & Hza).
    apply not_elem_of_cons in Hal2 as [Haq Hal2].
    rewrite Hz. run.
    eexists; split; [reflexivity|]. cbn. rewrite Hz.
    split; [done|]. split; [done|]. split; [by eapply seg_set_previous|].
    split; [by rewrite list_lookup_insert_ne|].
    unfold frame; cbn. repeat split. by eapply payload_insert.
  - (* the head of several *)
    rewrite app_nil_r in *.
    assert (Hp : p ≠ a) by (intros ->; apply Hal1, elem_of_app; right; by left).
    unfold last_or in Hpe. rewrite last_snoc in Hpe. simpl in Hne.
    rewrite last_app in Hh. simpl in Hh. subst.
    assert (exists y, (l1' ++ [p]) !! 0%nat = Some y /\ y ≠ a) as (y & Hy & Hya).
    { destruct (l1' ++ [p]) as [|y l'] eqn:E; [by destruct l1'|].
      exists y. split; [done|]. intros ->. apply Hal1. by left. }
    rewrite lookup_app_l by (rewrite length_app; simpl; lia). rewrite Hy.
    assert (is_Some (h !! p)) as [ep Hep].
    { eapply seg_valid; [exact Hs1|]. apply elem_of_app; right; by left. }
    run.
    eexists; split; [reflexivity|]. cbn. rewrite last_snoc.
    split; [done|]. split; [done|]. split; [by eapply seg_set_next|].
    split; [by rewrite list_lookup_insert_ne|].
    unfold frame; cbn. repeat split. by eapply payload_insert.
  - (* an inner entry *)
    assert (Hp : p ≠ a) by (intros ->; apply Hal1, elem_of_app; right; by left).
    unfold last_or in Hpe. rewrite last_snoc in Hpe. simpl in Hne.
    destruct (seg_lookup_first _ _ _ _ _ Hs2) as [eq Heq].
    destruct (last_cons_ne a q l2' Hal2) as (z & Hz & Hza).
    pose proof Hal2 as Hal2'.
    apply not_elem_of_cons in Hal2 as [Haq Hal2].
    assert (Hpq : p ≠ q).
    { intros ->. apply (Hdisj q); [apply elem_of_app; right; by left|]. right. by left. }
    rewrite last_app in Hh. rewrite last_cons_cons, Hz in Hh. subst.
    assert (exists y, (l1' ++ [p]) !! 0%nat = Some y /\ y ≠ a) as (y & Hy & Hya).
    { destruct (l1' ++ [p]) as [|y l'] eqn:E; [by destruct l1'|].
      exists y. split; [done|]. intros ->. apply Hal1. by left. }
    rewrite lookup_app_l by (rewrite length_app; simpl; lia). rewrite Hy.
    assert (is_Some (h !! p)) as [ep Hep].
    { eapply seg_valid; [exact Hs1|]. apply elem_of_app; right; by left. }
    run.
    eexists; split; [reflexivity|]. cbn.
    rewrite lookup_app_l by (rewrite length_app; simpl; lia). rewrite Hy.
    rewrite last_app, Hz.
    split; [done|]. split; [done|]. split.
    { apply seg_app. split.
      - apply seg_insert_notin.
        { intros Hin. apply (Hdisj q Hin). right. by left. }
        simpl. by eapply seg_set_next.
      - unfold last_or. rewrite last_snoc.
        eapply seg_set_previous; [done| by rewrite list_lookup_insert_ne |].
        apply seg_insert_notin; [|done].
        intros Hin. apply (Hdisj p); [apply elem_of_app; right; by left|]. by right. }
    split; [by rewrite !list_lookup_insert_ne|].
    unfold frame; cbn. repeat split.
    rewrite payload_insert with (ex := eq); [by eapply payload_insert| |done].
    by rewrite list_lookup_insert_ne.
Qed.

Lemma seg_agree h h' p l n :
  (forall x, x ∈ l -> h' !! x = h !! x) -> seg h p l n -> seg h' p l n.
Proof.
  revert p. induction l as [|a l IH]; intros p Hag; simpl; [done|].
  intros (e & He & Hpe & Hne & Hs).
  exists e. split; [rewrite Hag; [done|by left]|].
  repeat split; [done..|]. apply IH; [|done]. intros x Hx. apply Hag. by right.
Qed.

(** Hanging an entry behind the last one. *)
Lemma seg_attach h h' l z a ez ea' :
  NoDup (l ++ [z]) ->
  a ∉ l ++ [z] ->
  seg h None (l ++ [z]) None ->
  h !! z = Some ez ->
  (forall x, x ≠ a -> x ≠ z -> h' !! x = h !! x) ->
  h' !! z = Some (with_next (Some a) ez) ->
  h' !! a = Some ea' -> previous ea' = Some z -> next ea' = None ->
  seg h' None ((l ++ [z]) ++ [a]) None.
Proof.
  intros Hnd Ha Hs Hz Hag Hz' Ha' Hp Hn.
  apply NoDup_app in Hnd as (_ & Hdisj & _).
  apply seg_app. split.
  - simpl. apply seg_app in Hs as [Hs1 Hs2]. apply seg_app. split.
    + eapply seg_agree; [|exact Hs1]. intros x Hx. apply Hag.
      * intros ->. apply Ha, elem_of_app. by left.
      * intros ->. apply (Hdisj z Hx). by left.
    + simpl in *. destruct Hs2 as (e & He & Hpe & Hne & _).
      assert (e = ez) by congruence. subst e.
      exists (with_next (Some a) ez). done.
  - unfold last_or. rewrite last_snoc. simpl. exists ea'. done.
Qed.

Lemma lookup_0_app_snoc (l : list addr) z k :
  ((l ++ [z]) ++ k) !! 0%nat = (l ++ [z]) !! 0%nat.
Proof. apply lookup_app_l. rewrite length_app. simpl. lia. Qed.

Lemma moveExistingEntryToHead_seg c l1 a l2 :
  NoDup (l1 ++ a :: l2) ->
  tail c = (l1 ++ a :: l2) !! 0%nat ->
  head c = last (l1 ++ a :: l2) ->
  seg (heap c) None (l1 ++ a :: l2) None ->
  exists c',
    moveExistingEntryToHead (Some a) c = Ok tt c' /\
    tail c' = ((l1 ++ l2) ++ [a]) !! 0%nat /\
    head c' = Some a /\
    seg (heap c') None ((l1 ++ l2) ++ [a]) None /\
    frame c c'.
Proof.
  intros Hnd Ht Hh Hs.
  assert (Ha : a ∉ l1 ++ l2).
  { apply NoDup_app in Hnd as (_ & Hdisj & Hnd2).
    apply NoDup_cons in Hnd2 as [Hal2 _].
    intros [Hin|Hin]%elem_of_app; [|done]. apply (Hdisj a Hin). by left. }
  destruct (list_snoc_or_nil (l1 ++ l2)) as [Hnil|(l & z & Hl)].
  - (* the only entry stays where it is *)
    apply app_eq_nil in Hnil as [-> ->]. simpl in *.
    exists c. unfold moveExistingEntryToHead, bind, get_cache, skip, ret, ptr_eqb.
    rewrite Ht, Hh. rewrite !bool_decide_eq_true_2 by done. cbn.
    rewrite !bool_decide_eq_true_2 by done. cbn.
    repeat split; done.
  - destruct (removeExistingEntryReferences_seg c l1 a l2 Hnd Ht Hh Hs)
      as (c1 & Hrm & Ht1 & Hh1 & Hs1 & Ha1 & Hfr).
    assert (is_Some (heap c !! a)) as [ea Hea].
    { eapply seg_valid; [exact Hs|]. apply elem_of_app; right; by left. }
    rewrite Hea in Ha1.
    assert (Hnot : negb (ptr_eqb (Some a) (head c) && ptr_eqb (Some a) (tail c)) = true).
    { unfold ptr_eqb. rewrite Ht, Hh.
      destruct l1 as [|y l1']; simpl.
      - destruct l2 as [|q l2']; [by destruct l|].
        destruct (last_cons_ne a q l2' Ha) as (w & Hw & Hwa).
        rewrite last_cons_cons, Hw. rewrite bool_decide_eq_false_2 by congruence. done.
      - assert (a ≠ y) by (intros ->; apply Ha; by left).
        rewrite (bool_decide_eq_false_2 (Some a = Some y)) by congruence.
        by rewrite andb_false_r. }
    assert (Hnd1 : NoDup (l1 ++ l2)).
    { apply NoDup_app in Hnd as (Hn1 & Hdisj & Hn2).
      apply NoDup_cons in Hn2 as [_ Hn2]. apply NoDup_app. repeat split; [done| |done].
      intros x Hx1 Hx2. apply (Hdisj x Hx1). by right. }
    rewrite Hl in Ha, Ht1, Hh1, Hs1, Hnd1 |- *. rewrite last_snoc in Hh1.
    assert (Haz : a ≠ z) by (intros ->; apply Ha, elem_of_app; right; by left).
    assert (is_Some (heap c1 !! z)) as [ez Hez].
    { eapply seg_valid; [exact Hs1|]. apply elem_of_app; right; by left. }
    unfold moveExistingEntryToHead. unfold bind at 1. unfold get_cache at 1.
    rewrite Hnot. unfold bind at 1. rewrite Hrm.
    destruct c1 as [ms pol m mu hd tl h]; simpl in *. subst hd tl. run.
    eexists; split; [reflexivity|]. cbn.
    split; [by rewrite lookup_0_app_snoc|]. split; [done|]. split.
    + eapply seg_attach with (h := h); try done.
      * intros x Hxa Hxz. by rewrite !list_lookup_insert_ne.
      * by rewrite list_lookup_insert_eq by solve_lt.
      * rewrite list_lookup_insert_ne by done.
        rewrite list_lookup_insert_eq by solve_lt. done.
      * done.
      * done.
    + destruct Hfr as (? & ? & ? & ? & Hpay). simpl in *.
      unfold frame; cbn. repeat split; try done.
      rewrite <- Hpay.
      rewrite payload_insert with (ex := ez); [| by rewrite !list_lookup_insert_ne | done].
      rewrite list_insert_insert_eq.
      by eapply payload_insert.
Qed.

Lemma frame_trans c1 c2 c3 : frame c1 c2 -> frame c2 c3 -> frame c1 c3.
Proof. unfold frame. intros (?&?&?&?&?) (?&?&?&?&?). repeat split; congruence. Qed.

Lemma payload_lookup (h h' : list Entry) (a : addr) e :
  payload <$> h' = payload <$> h -> h !! a = Some e ->
  exists e', h' !! a = Some e' /\ payload e' = payload e.
Proof.
  intros Hp Ha.
  assert (Hl : (payload <$> h') !! a = Some (payload e))
    by (by rewrite Hp, list_lookup_fmap, Ha).
  rewrite list_lookup_fmap in Hl. apply fmap_Some in Hl as (e' & He' & Heq). eauto.
Qed.

Lemma payload_Key e e' : payload e' = payload e -> Key e' = Key e.
Proof. unfold payload. congruence. Qed.

(** Index and list agree on another cache with the same index, the same
    payloads and the same entries on the list. *)
Lemma linked_frame c c' l l' :
  linked c l -> frame c c' -> l' ≡ₚ l ->
  tail c' = l' !! 0%nat -> head c' = last l' -> seg (heap c') None l' None ->
  linked c' l'.
Proof.
  intros [Hnd Ht Hh Hs Hi Hl] (He & _ & _ & _ & Hp) Hperm Ht' Hh' Hs'.
  split; [by rewrite Hperm|done..| |].
  - intros k a Hk. rewrite He in Hk. destruct (Hi k a Hk) as (Ha & e & Hea & Hke).
    split; [by rewrite Hperm|].
    destruct (payload_lookup _ _ _ _ Hp Hea) as (e' & He' & Hee).
    exists e'. split; [done|]. apply payload_Key in Hee. congruence.
  - intros a e' Ha He'. rewrite Hperm in Ha.
    destruct (payload_lookup _ _ _ _ (eq_sym Hp) He') as (e & Hea & Hee).
    rewrite He. apply payload_Key in Hee. rewrite <- Hee. by apply Hl.
Qed.

Lemma moveExistingEntryToHead_linked c l a :
  linked c l -> a ∈ l ->
  exists c' l',
    moveExistingEntryToHead (Some a) c = Ok tt c' /\
    linked c' (l' ++ [a]) /\ l' ++ [a] ≡ₚ l /\ frame c c'.
Proof.
  intros Hl Ha. apply list_elem_of_split in Ha as (l1 & l2 & ->).
  destruct (moveExistingEntryToHead_seg c l1 a l2)
    as (c' & Hmv & Ht & Hh & Hs & Hfr); [apply Hl..|].
  assert (Hperm : (l1 ++ l2) ++ [a] ≡ₚ l1 ++ a :: l2).
  { rewrite <- app_assoc. apply Permutation_app_head.
    symmetry. apply Permutation_cons_append. }
  exists c', (l1 ++ l2). split; [done|]. split; [|done].
  eapply linked_frame; eauto. by rewrite last_snoc.
Qed.

(** The index has as many keys as the list has entries. *)
Lemma index_size (h : list Entry) (l : list addr) : forall (m : gmap string addr),
  NoDup l ->
  (forall k a, m !! k = Some a -> a ∈ l /\ exists e, h !! a = Some e /\ Key e = k) ->
  (forall a e, a ∈ l -> h !! a = Some e -> m !! Key e = Some a) ->
  (forall a, a ∈ l -> is_Some (h !! a)) ->
  size m = length l.
Proof.
  induction l as [|a l IH]; intros m Hnd Hi Hl Hv.
  - apply map_size_empty_iff, map_eq. intros k. rewrite lookup_empty.
    destruct (m !! k) as [x|] eqn:E; [|done].
    destruct (Hi k x E) as [Hx _]. by apply elem_of_nil in Hx.
  - apply NoDup_cons in Hnd as [Hal Hnd].
    destruct (Hv a) as [e He]; [by left|].
    assert (Hka : m !! Key e = Some a) by (apply Hl; [by left|done]).
    rewrite <- (insert_delete_id m (Key e) a Hka).
    rewrite map_size_insert_None by apply lookup_delete_eq.
    simpl. f_equal. apply IH; [done| | |].
    + intros k x Hk. apply lookup_delete_Some in Hk as [Hne Hk].
      destruct (Hi k x Hk) as (Hx & ex & Hex & Hkx). split; [|eauto].
      apply elem_of_cons in Hx as [->|Hx]; [|done].
      congruence.
    + intros x ex Hx Hex. rewrite lookup_delete_ne; [apply Hl; [by right|done]|].
      intros Heq. assert (m !! Key ex = Some x) by (apply Hl; [by right|done]).
      rewrite <- Heq in H. assert (x = a) by congruence. by subst.
    + intros x Hx. apply Hv. by right.
Qed.

Lemma chained_size c l p n : chained c l p n -> size (entries c) = length l.
Proof.
  intros [Hnd Ht Hh Hs Hi Hl]. eapply index_size; eauto.
  intros a Ha. eapply seg_valid; eauto.
Qed.

Lemma linked_size c l : linked c l -> size (entries c) = length l.
Proof. apply chained_size. Qed.

(** ** Eviction *)

Lemma evict_empty c : tail c = None \/ size (entries c) = 0%nat -> evict c = Ok tt c.
Proof.
  intros H. unfold evict, bind, get_cache, is_nil, len.
  destruct H as [H|H]; rewrite H; [done|].
  by rewrite orb_true_r.
Qed.

Lemma len_nonzero m : size m ≠ 0%nat -> (len m =? 0) = false.
Proof. intros H. unfold len. apply Z.eqb_neq. lia. Qed.

(** With a successor behind the tail, [evict] drops the tail's key and
    makes the successor the tail. *)
Lemma evict_step c t et t2 e2 :
  tail c = Some t -> heap c !! t = Some et -> next et = Some t2 ->
  heap c !! t2 = Some e2 -> size (entries c) ≠ 0%nat ->
  evict c = Ok tt (with_heap (<[t2 := with_previous None e2]> (heap c))
                     (with_tail (Some t2)
                        (with_entries (delete (Key et) (entries c)) c))).
Proof.
  intros Ht Het Hn He2 Hsz. destruct c as [ms pol m mu hd tl h]; simpl in *. subst.
  unfold evict, bind, get_cache, is_nil. cbn.
  rewrite len_nonzero by done. run. rewrite Hn. cbn. rewrite He2. done.
Qed.

(** With nothing behind the tail, line 370 dereferences [nil]. *)
Lemma evict_sole c t et :
  tail c = Some t -> heap c !! t = Some et -> next et = None ->
  size (entries c) ≠ 0%nat -> evict c = Panic.
Proof.
  intros Ht Het Hn Hsz. destruct c as [ms pol m mu hd tl h]; simpl in *. subst.
  unfold evict, bind, get_cache, is_nil. cbn.
  rewrite len_nonzero by done. run. rewrite Hn. done.
Qed.

Lemma evict_chained c t t2 l p n :
  chained c (t :: t2 :: l) p n ->
  exists c' et,
    evict c = Ok tt c' /\ chained c' (t2 :: l) None n /\
    heap c !! t = Some et /\ entries c !! Key et = Some t /\
    entries c' = delete (Key et) (entries c) /\
    head c' = head c /\ mutex c' = mutex c /\ MaxSize c' = MaxSize c /\
    Policy c' = Policy c /\ payload <$> heap c' = payload <$> heap c.
Proof.
  intros Hl. pose proof (chained_size _ _ _ _ Hl) as Hsz.
  destruct Hl as [Hnd Ht Hh Hs Hi Hli].
  destruct Hs as (et & Het & Hpt & Hnt & Hs).
  destruct (seg_lookup_first _ _ _ _ _ Hs) as [e2 He2].
  assert (Hkt : entries c !! Key et = Some t) by (apply Hli; [by left|done]).
  apply NoDup_cons in Hnd as [Htl Hnd].
  assert (Hpay : payload <$> <[t2 := with_previous None e2]> (heap c) = payload <$> heap c)
    by (by eapply payload_insert).
  eexists _, et. split.
  { eapply evict_step; eauto. rewrite Hsz. done. }
  split; [|by cbn]. split; cbn.
  - done.
  - done.
  - by rewrite Hh, last_cons_cons.
  - by eapply seg_set_previous.
  - intros k a Hk. apply lookup_delete_Some in Hk as [Hne Hk].
    destruct (Hi k a Hk) as (Ha & e & Hea & Hke).
    split.
    + apply elem_of_cons in Ha as [->|Ha]; [congruence|done].
    + destruct (payload_lookup _ _ _ _ Hpay Hea) as (e' & He' & Hee).
      exists e'. split; [done|]. apply payload_Key in Hee. congruence.
  - intros a e' Ha He'.
    destruct (payload_lookup _ _ _ _ (eq_sym Hpay) He') as (e & Hea & Hee).
    apply payload_Key in Hee. rewrite <- Hee.
    assert (Hka : entries c !! Key e = Some a) by (apply Hli; [by right|done]).
    rewrite lookup_delete_ne; [done|].
    intros Heq. rewrite Heq in Hkt. assert (t = a) by congruence. by subst.
Qed.

Lemma evict_linked c t t2 l :
  linked c (t :: t2 :: l) ->
  exists c' et,
    evict c = Ok tt c' /\ linked c' (t2 :: l) /\
    heap c !! t = Some et /\ entries c !! Key et = Some t /\
    entries c' = delete (Key et) (entries c) /\
    head c' = head c /\ mutex c' = mutex c /\ MaxSize c' = MaxSize c /\
    Policy c' = Policy c /\ payload <$> heap c' = payload <$> heap c.
Proof. apply evict_chained. Qed.

(** ** Stepping through the monad *)

Lemma bind_Ok {A B} (m : M A) (k : A -> M B) c a c' :
  m c = Ok a c' -> bind m k c = k a c'.
Proof. intros H. unfold bind. by rewrite H. Qed.

Lemma store_Ok c a e f :
  heap c !! a = Some e ->
  store (Some a) f c = Ok tt (with_heap (<[a := f e]> (heap c)) c).
Proof. intros H. unfold store. by rewrite H. Qed.

Lemma Lock_Ok c : mutex c = Free -> Lock c = Ok tt (with_mutex WriteHeld c).
Proof. intros H. unfold Lock. by rewrite H. Qed.

Lemma Unlock_Ok c : mutex c = WriteHeld -> Unlock c = Ok tt (with_mutex Free c).
Proof. intros H. unfold Unlock. by rewrite H. Qed.

Lemma linked_with_mutex c l mu : linked c l -> linked (with_mutex mu c) l.
Proof. intros [? ? ? ? ? ?]. by split. Qed.

(** Rewriting the payload of an entry leaves the structure as it is. *)
Lemma linked_store c l a e e' :
  linked c l -> heap c !! a = Some e ->
  Key e' = Key e -> previous e' = previous e -> next e' = next e ->
  linked (with_heap (<[a := e']> (heap c)) c) l.
Proof.
  intros [Hnd Ht Hh Hs Hi Hl] Ha Hk Hp Hn.
  assert (Hlt : (a < length (heap c))%nat) by (eapply lookup_lt_Some; eauto).
  split; cbn; [done..|by eapply seg_insert_links| |].
  - intros k x Hkx. destruct (Hi k x Hkx) as (Hx & ex & Hex & Hkex).
    split; [done|]. destruct (decide (x = a)) as [->|Hne].
    + exists e'. rewrite list_lookup_insert_eq by done. split; [done|]. congruence.
    + exists ex. by rewrite list_lookup_insert_ne.
  - intros x ex Hx Hex. destruct (decide (x = a)) as [->|Hne].
    + rewrite list_lookup_insert_eq in Hex by done.
      assert (ex = e') by congruence. subst. rewrite Hk. by apply Hl.
    + rewrite list_lookup_insert_ne in Hex by done. by apply Hl.
Qed.

Lemma SetWithTTL_finish_linked ttl now c l a :
  mutex c = WriteHeld -> 0 <= MaxSize c -> linked c (l ++ [a]) ->
  exists c' l' ea ea',
    SetWithTTL_finish (Some a) ttl now c = Ok tt c' /\
    mutex c' = Free /\ MaxSize c' = MaxSize c /\ Policy c' = Policy c /\
    linked c' (l' ++ [a]) /\
    heap c !! a = Some ea /\ heap c' !! a = Some ea' /\
    payload ea' = payload (with_Expiration (expiration_for ttl now) ea) /\
    ((entries c' = entries c /\ l' = l /\
      (MaxSize c = NoMaxSize \/ len (entries c) <= MaxSize c)) \/
     (MaxSize c ≠ NoMaxSize /\ len (entries c) > MaxSize c /\
      exists t et, l = t :: l' /\ heap c !! t = Some et /\
                   entries c !! Key et = Some t /\
                   entries c' = delete (Key et) (entries c))).
Proof.
  intros Hmu Hms Hl.
  assert (is_Some (heap c !! a)) as [ea Hea].
  { eapply seg_valid; [apply Hl|]. apply elem_of_app; right; by left. }
  set (x := expiration_for ttl now).
  pose proof (linked_store c _ a ea (with_Expiration x ea) Hl Hea eq_refl eq_refl eq_refl) as Hl1.
  set (c1 := with_heap (<[a:=with_Expiration x ea]> (heap c)) c) in *.
  assert (Hlt : (a < length (heap c))%nat) by (eapply lookup_lt_Some; eauto).
  assert (Hea1 : heap c1 !! a = Some (with_Expiration x ea))
    by (cbn; by rewrite list_lookup_insert_eq).
  unfold SetWithTTL_finish. fold x.
  rewrite (bind_Ok _ _ _ _ _ (store_Ok c a ea _ Hea)). fold c1.
  unfold bind at 1, get_cache.
  change (MaxSize c1) with (MaxSize c). change (entries c1) with (entries c).
  destruct (MaxSize c =? NoMaxSize) eqn:Ez.
  { apply Z.eqb_eq in Ez.
    exists (with_mutex Free c1), l, ea, (with_Expiration x ea).
    split; [by apply Unlock_Ok|]. cbn.
    split; [done|]. split; [done|]. split; [done|].
    split; [by apply linked_with_mutex|].
    split; [done|]. split; [done|]. split; [done|]. left. auto. }
  apply Z.eqb_neq in Ez.
  destruct (len (entries c) >? MaxSize c) eqn:Egt.
  - apply Z.gtb_lt in Egt.
    pose proof (linked_size _ _ Hl) as Hsz. unfold len in Egt. unfold NoMaxSize in Ez.
    rewrite length_app in Hsz. simpl in Hsz.
    destruct l as [|t l']; [simpl in Hsz; lia|].
    destruct (l' ++ [a]) as [|t2 ll] eqn:Ell; [by destruct l'|].
    simpl in Hl1. rewrite Ell in Hl1.
    destruct (evict_linked c1 t t2 ll Hl1)
      as (c2 & et & Hev & Hl2 & Het & Hkt & He2 & Hh2 & Hm2 & Hms2 & Hp2 & Hpay2).
    rewrite (bind_Ok _ _ _ _ _ Hev).
    assert (Hat : a ≠ t).
    { intros ->. destruct Hl as [Hnd _ _ _ _ _]. simpl in Hnd.
      apply NoDup_cons in Hnd as [Hnd _]. apply Hnd, elem_of_app. right. by left. }
    destruct (payload_lookup _ _ _ _ Hpay2 Hea1) as (ea' & Hea' & Hee).
    exists (with_mutex Free c2), l', ea, ea'.
    split; [apply Unlock_Ok; by rewrite Hm2|]. cbn.
    split; [done|]. split; [done|]. split; [done|].
    split; [rewrite Ell; by apply linked_with_mutex|].
    split; [done|]. split; [done|]. split; [done|].
    right. split; [done|]. split; [unfold len; lia|].
    exists t, et. split; [done|]. cbn in Het, Hkt.
    rewrite list_lookup_insert_ne in Het by done. done.
  - assert (len (entries c) <= MaxSize c).
    { destruct (Z.gtb_spec (len (entries c)) (MaxSize c)); [done|lia]. }
    exists (with_mutex Free c1), l, ea, (with_Expiration x ea).
    unfold skip, ret. rewrite (bind_Ok _ _ c1 tt c1 eq_refl).
    split; [by apply Unlock_Ok|]. cbn.
    split; [done|]. split; [done|]. split; [done|].
    split; [by apply linked_with_mutex|].
    split; [done|]. split; [done|]. split; [done|]. left. auto.
Qed.

Lemma linked_fresh c l : linked c l -> length (heap c) ∉ l.
Proof.
  intros Hl Hin. destruct (seg_valid _ _ _ _ _ (chained_seg _ _ _ _ Hl) Hin) as [e He].
  apply lookup_lt_Some in He. lia.
Qed.

Lemma SetWithTTL_create_linked key value now c l :
  linked c l -> entries c !! key = None ->
  exists c' e,
    SetWithTTL_create key value now c = Ok (length (heap c)) c' /\
    linked c' (l ++ [length (heap c)]) /\
    entries c' = <[key := length (heap c)]> (entries c) /\
    mutex c' = mutex c /\ MaxSize c' = MaxSize c /\ Policy c' = Policy c /\
    heap c' !! length (heap c) = Some e /\
    Key e = key /\ Value e = value /\ RelevantTimestamp e = now.
Proof.
  intros Hl Hk. pose proof (linked_fresh _ _ Hl) as Hfresh.
  destruct Hl as [Hnd Ht Hh Hs Hi Hli].
  destruct c as [ms pol m mu hd tl h]; simpl in *.
  set (new := length h) in *.
  assert (Hnew : forall e, (h ++ [e]) !! new = Some e).
  { intros e. by rewrite lookup_app_r, Nat.sub_diag. }
  assert (Hold : forall e x ex, h !! x = Some ex -> (h ++ [e]) !! x = Some ex).
  { intros e x ex Hx. by apply lookup_app_l_Some. }
  assert (Hidx : forall h' : list Entry,
    (forall x ex, h !! x = Some ex -> exists ex', h' !! x = Some ex' /\ Key ex' = Key ex) ->
    (forall x ex', x ≠ new -> h' !! x = Some ex' -> exists ex, h !! x = Some ex /\ Key ex' = Key ex) ->
    (exists e, h' !! new = Some e /\ Key e = key) ->
    (forall k a, <[key:=new]> m !! k = Some a ->
       a ∈ l ++ [new] /\ exists e, h' !! a = Some e /\ Key e = k) /\
    (forall a e, a ∈ l ++ [new] -> h' !! a = Some e -> <[key:=new]> m !! Key e = Some a)).
  { intros h' H1 H2 (en & Hen & Hken). split.
    - intros k a Hka. apply lookup_insert_Some in Hka as [[<- <-]|[Hne Hka]].
      + split; [apply elem_of_app; right; by left|eauto].
      + destruct (Hi k a Hka) as (Ha & e & Hea & Hke).
        split; [apply elem_of_app; by left|].
        destruct (H1 a e Hea) as (e' & He' & Hke'). exists e'. split; [done|congruence].
    - intros a e Ha Hea. apply elem_of_app in Ha as [Ha|Ha].
      + assert (a ≠ new) by (intros ->; done).
        destruct (H2 a e H Hea) as (e0 & He0 & Hk0). rewrite Hk0.
        pose proof (Hli a e0 Ha He0) as Hm.
        rewrite lookup_insert_ne; [done|]. intros Heq. rewrite <- Heq in Hm. congruence.
      + apply list_elem_of_singleton in Ha as ->.
        assert (e = en) by congruence. subst e. rewrite Hken. apply lookup_insert_eq. }
  destruct (list_snoc_or_nil l) as [->|(l0 & z & ->)].
  - (* the first entry *)
    simpl in *. subst hd tl.
    unfold SetWithTTL_create, alloc, bind, get_cache, modify, ret, is_nil; cbn.
    eexists _, _. split; [reflexivity|]. cbn. fold new.
    destruct (Hidx (h ++ [mkEntry key value now 0 None None])) as [Hi' Hli'].
    { intros x ex Hx. exists ex. split; [by apply Hold|done]. }
    { intros x ex' Hne Hx. exists ex'. split; [|done].
      apply lookup_app_Some in Hx as [Hx|[Hge Hx]]; [done|].
      fold new in Hge, Hx. destruct (x - new)%nat eqn:E; [lia|by destruct n]. }
    { eexists. split; [apply Hnew|done]. }
    split; [|by rewrite Hnew].
    split; cbn; [apply NoDup_singleton|done|done| |done|done].
    exists (mkEntry key value now 0 None None). by rewrite Hnew.
  - (* behind the present head *)
    rewrite last_snoc in Hh. subst hd tl.
    assert (is_Some (h !! z)) as [ez Hez].
    { eapply seg_valid; [exact Hs|]. apply elem_of_app; right; by left. }
    assert (Hzn : z ≠ new) by (intros ->; apply Hfresh, elem_of_app; right; by left).
    unfold SetWithTTL_create, alloc, bind, get_cache, modify, ret, is_nil, store; cbn.
    fold new. rewrite (Hold _ z ez Hez).
    eexists _, _. split; [reflexivity|]. cbn. fold new.
    set (en := mkEntry key value now 0 (Some z) None).
    assert (Hlt : (z < length (h ++ [en]))%nat).
    { rewrite length_app. apply lookup_lt_Some in Hez. lia. }
    destruct (Hidx (<[z:=with_next (Some new) ez]> (h ++ [en]))) as [Hi' Hli'].
    { intros x ex Hx. destruct (decide (x = z)) as [->|Hne].
      - rewrite list_lookup_insert_eq by done. eexists. split; [done|].
        assert (ex = ez) by congruence. by subst.
      - rewrite list_lookup_insert_ne by done. exists ex. split; [by apply Hold|done]. }
    { intros x ex' Hne Hx. destruct (decide (x = z)) as [->|Hnz].
      - rewrite list_lookup_insert_eq in Hx by done. exists ez. split; [done|].
        assert (ex' = with_next (Some new) ez) by congruence. by subst.
      - rewrite list_lookup_insert_ne in Hx by done. exists ex'. split; [|done].
        apply lookup_app_Some in Hx as [Hx|[Hge Hx]]; [done|].
        fold new in Hge, Hx. destruct (x - new)%nat eqn:E; [lia|by destruct n]. }
    { exists en. split; [|done]. by rewrite list_lookup_insert_ne, Hnew. }
    split; [|by rewrite list_lookup_insert_ne, Hnew].
    split; cbn.
    + apply NoDup_app. split; [done|]. split; [|apply NoDup_singleton].
      intros x Hx Hx'. apply list_elem_of_singleton in Hx' as ->. done.
    + by rewrite lookup_0_app_snoc.
    + by rewrite last_snoc.
    + eapply seg_attach with (h := h ++ [en]) (ez := ez) (ea' := en); try done.
      * by apply seg_heap_app.
      * by apply Hold.
      * intros x Hxa Hxz. by rewrite list_lookup_insert_ne.
      * by rewrite list_lookup_insert_eq.
      * by rewrite list_lookup_insert_ne, Hnew.
    + done.
    + done.
Qed.

(** ** [SetWithTTL] *)

Lemma with_mutex_id c : with_mutex (mutex c) c = c.
Proof. by destruct c. Qed.

Lemma with_mutex_twice mu mu' c : with_mutex mu (with_mutex mu' c) = with_mutex mu c.
Proof. by destruct c. Qed.

(** A negative TTL other than the sentinel creates nothing. *)
Lemma SetWithTTL_absent_negative key value ttl now1 now2 c :
  mutex c = Free -> entries c !! key = None -> ttl ≠ NoExpiration -> ttl < 0 ->
  SetWithTTL key value ttl now1 now2 c = Ok tt c.
Proof.
  intros Hmu Hk Hne Hneg. unfold SetWithTTL.
  rewrite (bind_Ok _ _ _ _ _ (Lock_Ok c Hmu)).
  unfold bind at 1, get_cache. cbn. rewrite Hk.
  assert ((ttl =? NoExpiration) = false) as -> by (by apply Z.eqb_neq).
  assert ((ttl <? 0) = true) as -> by (by apply Z.ltb_lt).
  destruct c; cbn in *. by subst.
Qed.

(** Updating a present key. *)
Lemma SetWithTTL_present key value ttl now1 now2 c a :
  valid c -> entries c !! key = Some a ->
  exists c' ea ea',
    SetWithTTL key value ttl now1 now2 c = Ok tt c' /\
    valid c' /\ MaxSize c' = MaxSize c /\ Policy c' = Policy c /\
    head c' = Some a /\ entries c' !! key = Some a /\
    heap c !! a = Some ea /\ heap c' !! a = Some ea' /\
    payload ea' =
      payload (with_Expiration (expiration_for ttl now2) (with_Value value ea)) /\
    (entries c' = entries c /\
     (MaxSize c = NoMaxSize \/ len (entries c) <= MaxSize c) \/
     MaxSize c ≠ NoMaxSize /\ len (entries c) > MaxSize c /\
     exists k, k ≠ key /\ is_Some (entries c !! k) /\ entries c' = delete k (entries c)).
Proof.
  intros (Hmu & Hms & l & Hl) Hk.
  destruct (chained_index _ _ _ _ Hl key a Hk) as (Ha & ea & Hea & Hkea).
  set (c0 := with_mutex WriteHeld c).
  assert (Hl0 : linked c0 l) by (by apply linked_with_mutex).
  pose proof (linked_store c0 l a ea (with_Value value ea) Hl0 Hea eq_refl eq_refl eq_refl) as Hl1.
  set (c1 := with_heap (<[a:=with_Value value ea]> (heap c0)) c0) in *.
  assert (Hlt : (a < length (heap c))%nat) by (eapply lookup_lt_Some; eauto).
  assert (Hea1 : heap c1 !! a = Some (with_Value value ea))
    by (cbn; by rewrite list_lookup_insert_eq).
  destruct (moveExistingEntryToHead_linked c1 l a Hl1 Ha)
    as (c2 & l' & Hmv & Hl2 & Hperm & He2 & Hm2 & Hms2 & Hp2 & Hpay2).
  destruct (SetWithTTL_finish_linked ttl now2 c2 l' a)
    as (c3 & l3 & ea2 & ea3 & Hfin & Hm3 & Hms3 & Hp3 & Hl3 & Hea2 & Hea3 & Hpay3 & Hcase);
    [by rewrite Hm2 | by rewrite Hms2 | done |].
  destruct (payload_lookup _ _ _ _ Hpay2 Hea1) as (ea2' & Hea2' & Hpay21).
  assert (ea2' = ea2) by congruence. subst ea2'.
  exists c3, ea, ea3.
  split.
  { unfold SetWithTTL. rewrite (bind_Ok _ _ _ _ _ (Lock_Ok c Hmu)). fold c0.
    unfold bind at 1, get_cache. change (entries c0) with (entries c). rewrite Hk.
    rewrite (bind_Ok _ _ _ _ _ (store_Ok c0 a ea _ Hea)). fold c1.
    rewrite (bind_Ok _ _ _ _ _ Hmv). done. }
  assert (Hkeep : entries c3 !! key = Some a /\
    (entries c3 = entries c /\
     (MaxSize c = NoMaxSize \/ len (entries c) <= MaxSize c) \/
     MaxSize c ≠ NoMaxSize /\ len (entries c) > MaxSize c /\
     exists k, k ≠ key /\ is_Some (entries c !! k) /\ entries c3 = delete k (entries c))).
  { rewrite He2, Hms2 in Hcase. cbn in Hcase.
    destruct Hcase as [(He3 & _ & Hle)|(Hnz & Hgt & t & et & Hlt' & Het & Hkt & He3)].
    - rewrite He3. split; [done|]. left. done.
    - rewrite He3. 
      assert (Hta : t ≠ a).
      { intros ->. destruct Hl2 as [Hnd _ _ _ _ _]. rewrite Hlt' in Hnd. simpl in Hnd.
        apply NoDup_cons in Hnd as [Hnd _]. apply Hnd, elem_of_app. right. by left. }
      assert (Hne : Key et ≠ key) by (intros Heq; rewrite Heq in Hkt; congruence).
      split; [by rewrite lookup_delete_ne|].
      right. split; [done|]. split; [done|]. exists (Key et). eauto. }
  destruct Hkeep as [Hk3 Hcase3]. cbn in Hms2, Hp2.
  assert (Hms' : MaxSize c3 = MaxSize c) by congruence.
  split; [split; [done|]; split; [rewrite Hms'; lia|eauto]|].
  split; [done|]. split; [congruence|].
  split; [rewrite (chained_head _ _ _ _ Hl3); apply last_snoc|].
  split; [done|]. split; [done|]. split; [done|]. split; [|done].
  rewrite Hpay3. unfold payload in *. cbn in *. congruence.
Qed.

Lemma len_insert_None (m : gmap string addr) k a :
  m !! k = None -> len (<[k:=a]> m) = len m + 1.
Proof. intros H. unfold len. rewrite map_size_insert_None by done. lia. Qed.

Lemma len_delete_Some (m : gmap string addr) k a :
  m !! k = Some a -> len (delete k m) = len m - 1.
Proof.
  intros H. unfold len. pose proof (map_size_delete_Some k m (ltac:(eauto))) as Hs.
  assert (size m ≠ 0%nat).
  { apply map_size_non_empty_iff. intros ->. by rewrite lookup_empty in H. }
  lia.
Qed.

(** Creating an absent key. *)
Lemma SetWithTTL_absent key value ttl now1 now2 c :
  valid c -> entries c !! key = None -> ttl = NoExpiration \/ 0 <= ttl ->
  exists c' a ea',
    SetWithTTL key value ttl now1 now2 c = Ok tt c' /\
    valid c' /\ MaxSize c' = MaxSize c /\ Policy c' = Policy c /\
    head c' = Some a /\ entries c' !! key = Some a /\
    heap c' !! a = Some ea' /\
    payload ea' = mkEntry key value now1 (expiration_for ttl now2) None None /\
    (entries c' = <[key:=a]> (entries c) /\
     (MaxSize c = NoMaxSize \/ len (entries c) + 1 <= MaxSize c) \/
     MaxSize c ≠ NoMaxSize /\ len (entries c) + 1 > MaxSize c /\
     exists k, k ≠ key /\ is_Some (entries c !! k) /\
               entries c' = delete k (<[key:=a]> (entries c))).
Proof.
  intros (Hmu & Hms & l & Hl) Hk Httl.
  set (c0 := with_mutex WriteHeld c).
  assert (Hl0 : linked c0 l) by (by apply linked_with_mutex).
  destruct (SetWithTTL_create_linked key value now1 c0 l Hl0 Hk)
    as (c1 & en & Hcr & Hl1 & He1 & Hm1 & Hms1 & Hp1 & Hen & Hk1 & Hv1 & Ht1).
  change (heap c0) with (heap c) in *.
  set (a := length (heap c)) in *.
  destruct (SetWithTTL_finish_linked ttl now2 c1 l a)
    as (c3 & l3 & ea2 & ea3 & Hfin & Hm3 & Hms3 & Hp3 & Hl3 & Hea2 & Hea3 & Hpay3 & Hcase);
    [by rewrite Hm1 | by rewrite Hms1 | done |].
  assert (ea2 = en) by congruence. subst ea2.
  cbn in He1, Hms1, Hp1.
  exists c3, a, ea3. split.
  { unfold SetWithTTL. rewrite (bind_Ok _ _ _ _ _ (Lock_Ok c Hmu)). fold c0.
    unfold bind at 1, get_cache. change (entries c0) with (entries c). rewrite Hk.
    assert (negb (ttl =? NoExpiration) && (ttl <? 0) = false) as ->.
    { destruct Httl as [->|Hge]; [done|].
      assert ((ttl <? 0) = false) as -> by (apply Z.ltb_ge; lia).
      apply andb_false_r. }
    rewrite (bind_Ok _ _ _ _ _ Hcr). done. }
  assert (Hms' : MaxSize c3 = MaxSize c) by congruence.
  split; [split; [done|]; split; [rewrite Hms'; lia|eauto]|].
  split; [done|]. split; [congruence|].
  split; [rewrite (chained_head _ _ _ _ Hl3); apply last_snoc|].
  assert (Hlen : len (entries c1) = len (entries c) + 1).
  { rewrite He1. by apply len_insert_None. }
  rewrite Hms1, Hlen, He1 in Hcase.
  assert (Hkeep : entries c3 !! key = Some a /\
    (entries c3 = <[key:=a]> (entries c) /\
     (MaxSize c = NoMaxSize \/ len (entries c) + 1 <= MaxSize c) \/
     MaxSize c ≠ NoMaxSize /\ len (entries c) + 1 > MaxSize c /\
     exists k, k ≠ key /\ is_Some (entries c !! k) /\
               entries c3 = delete k (<[key:=a]> (entries c)))).
  { destruct Hcase as [(He3 & _ & Hle)|(Hnz & Hgt & t & et & Hlt' & Het & Hkt & He3)].
    - rewrite He3. split; [apply lookup_insert_eq|]. left. done.
    - rewrite He3.
      assert (Hta : t ≠ a).
      { intros ->. apply (linked_fresh _ _ Hl). rewrite Hlt'. by left. }
      assert (Hne : Key et ≠ key).
      { intros Heq. rewrite Heq, lookup_insert_eq in Hkt. congruence. }
      split; [by rewrite lookup_delete_ne, lookup_insert_eq|].
      right. split; [done|]. split; [done|]. exists (Key et).
      split; [done|]. split; [|done].
      rewrite lookup_insert_ne in Hkt by done. eauto. }
  destruct Hkeep as [Hk3 Hcase3].
  split; [done|]. split; [done|]. split; [|done].
  rewrite Hpay3. destruct Hl1 as [_ _ _ Hs1 _ _].
  unfold payload; cbn. congruence.
Qed.

(** ** The check is sound *)

Lemma segb_sound h p l n : segb h p l n = true -> seg h p l n.
Proof.
  revert p. induction l as [|a l IH]; intros p; simpl; [done|].
  destruct (h !! a) as [e|]; [|done].
  intros [[Hp Hn]%andb_prop Hs]%andb_prop.
  apply bool_decide_eq_true in Hp, Hn. exists e. auto.
Qed.

Lemma linkedb_sound c l : linkedb c l = true -> linked c l.
Proof.
  unfold linkedb.
  intros [[[[[Hnd Ht]%andb_prop Hh]%andb_prop Hs]%andb_prop Hi]%andb_prop Hl]%andb_prop.
  apply bool_decide_eq_true in Hnd, Ht, Hh. apply segb_sound in Hs.
  rewrite forallb_forall in Hi, Hl.
  split; [done..| |].
  - intros k a Hka.
    assert (Hin : In (k, a) (map_to_list (entries c)))
      by (by apply list_elem_of_In, elem_of_map_to_list).
    apply Hi in Hin. unfold index_entry_ok in Hin. simpl in Hin.
    apply andb_prop in Hin as [Ha Hk]. apply bool_decide_eq_true in Ha.
    split; [done|]. destruct (heap c !! a) as [e|]; [|done].
    apply bool_decide_eq_true in Hk. eauto.
  - intros a e Ha He. apply list_elem_of_In, Hl in Ha.
    unfold listed_entry_ok in Ha. rewrite He in Ha.
    by apply bool_decide_eq_true in Ha.
Qed.

Lemma validb_sound c : validb c = true -> valid c.
Proof.
  unfold validb. intros [[Hm Hms]%andb_prop Hl]%andb_prop.
  split; [by destruct (mutex c)|]. split; [by apply Z.leb_le|].
  exists (list_of c). by apply linkedb_sound.
Qed.

(** ** Restoring *)

Lemma Decode_Ok records : forall c,
  Decode records c =
    Ok tt (with_entries (decoded_index (length (heap c)) records (entries c))
             (with_heap (decoded_heap (heap c) records) c)).
Proof.
  unfold decoded_heap.
  induction records as [|[k d] rest IH]; intros c.
  - simpl. rewrite app_nil_r. by destruct c.
  - simpl. unfold bind, alloc, modify. cbn. rewrite IH. cbn.
    rewrite length_app. simpl. rewrite Nat.add_1_r.
    by rewrite <- app_assoc.
Qed.

Lemma decoded_index_other records : forall base (m : gmap string addr) k,
  k ∉ records.*1 -> decoded_index base records m !! k = m !! k.
Proof.
  induction records as [|[k0 d] rest IH]; intros base m k Hk; simpl; [done|].
  simpl in Hk. apply not_elem_of_cons in Hk as [Hne Hk].
  rewrite IH by done. by rewrite lookup_insert_ne.
Qed.

Lemma decoded_index_Some records : forall base (m : gmap string addr) k a,
  decoded_index base records m !! k = Some a ->
  m !! k = Some a \/
  exists i d, records !! i = Some (k, d) /\ a = (base + i)%nat.
Proof.
  induction records as [|[k0 d] rest IH]; intros base m k a H; simpl in H; [by left|].
  apply IH in H as [H|(i & d' & Hi & ->)].
  - apply lookup_insert_Some in H as [[<- <-]|[_ H]]; [|by left].
    right. exists 0%nat, d. split; [done|lia].
  - right. exists (S i), d'. split; [done|lia].
Qed.

Lemma decoded_index_listed records : forall base (m : gmap string addr) k,
  k ∈ records.*1 ->
  exists i d, records !! i = Some (k, d) /\
              decoded_index base records m !! k = Some (base + i)%nat.
Proof.
  induction records as [|[k0 d] rest IH]; intros base m k Hk; simpl in *.
  - by apply elem_of_nil in Hk.
  - destruct (decide (k ∈ rest.*1)) as [Hin|Hnin].
    + destruct (IH (S base) (<[k0:=base]> m) k Hin) as (i & d' & Hi & Hl).
      exists (S i), d'. split; [done|]. rewrite Hl. f_equal. lia.
    + apply elem_of_cons in Hk as [->|Hk]; [|done].
      exists 0%nat, d. split; [done|].
      rewrite decoded_index_other by done. rewrite lookup_insert_eq. f_equal. lia.
Qed.

Lemma decoded_key_consistent c records :
  key_consistent c -> well_keyed records ->
  key_consistent (with_entries (decoded_index (length (heap c)) records (entries c))
                    (with_heap (decoded_heap (heap c) records) c)).
Proof.
  intros Hc Hw k a Hk. cbn in *. unfold decoded_heap.
  apply decoded_index_Some in Hk as [Hk|(i & d & Hi & ->)].
  - destruct (Hc k a Hk) as (e & He & Hke). exists e. split; [|done].
    by apply lookup_app_l_Some.
  - exists (payload_of_record (k, d)). split.
    + rewrite lookup_app_r by lia.
      replace (length (heap c) + i - length (heap c))%nat with i by lia.
      by rewrite list_lookup_fmap, Hi.
    + unfold well_keyed in Hw. rewrite Forall_lookup in Hw. apply (Hw i (k, d) Hi).
Qed.

(** The values of a key-consistent index are pairwise different. *)
Lemma key_consistent_NoDup c :
  key_consistent c -> NoDup (map_to_list (entries c)).*2.
Proof.
  intros Hc. apply NoDup_fmap_2_strong; [|apply NoDup_map_to_list].
  intros [k1 a1] [k2 a2] H1 H2 Heq. simpl in Heq. subst a2.
  apply elem_of_map_to_list in H1, H2.
  destruct (Hc k1 a1 H1) as (e1 & He1 & Hk1).
  destruct (Hc k2 a1 H2) as (e2 & He2 & Hk2).
  assert (e1 = e2) by congruence. subst. done.
Qed.

Lemma elem_of_index_values (m : gmap string addr) a :
  a ∈ (map_to_list m).*2 <-> exists k, m !! k = Some a.
Proof.
  rewrite list_elem_of_fmap. split.
  - intros ([k a'] & -> & Hin). exists k. by apply elem_of_map_to_list.
  - intros (k & Hk). exists (k, a). split; [done|]. by apply elem_of_map_to_list.
Qed.

Lemma is_Some_insert (h : list Entry) (x a : addr) e :
  is_Some (h !! a) -> is_Some (<[x := e]> h !! a).
Proof.
  intros Ha. apply lookup_lt_is_Some. rewrite length_insert.
  by apply lookup_lt_is_Some.
Qed.

(** Lines 308-313, for the entries behind the first one. *)
Lemma relink_rest rest : forall done x c p nx,
  NoDup ((done ++ [x]) ++ rest) ->
  (forall a, a ∈ rest -> is_Some (heap c !! a)) ->
  seg (heap c) p (done ++ [x]) nx ->
  exists c' nx',
    relink (Some x) rest c = Ok tt c' /\
    seg (heap c') p ((done ++ [x]) ++ rest) nx' /\
    head c' = match last rest with Some y => Some y | None => head c end /\
    tail c' = tail c /\ frame c c'.
Proof.
  induction rest as [|y rest IH]; intros done x c p nx Hnd Hv Hs.
  - exists c, nx. rewrite app_nil_r. repeat split; done.
  - assert (Hnd' : NoDup (((done ++ [x]) ++ [y]) ++ rest))
      by (by rewrite <- app_assoc).
    assert (Hnd1 : NoDup ((done ++ [x]) ++ [y])).
    { apply NoDup_app in Hnd' as (H1 & _). done. }
    assert (Hy : y ∉ done ++ [x]).
    { apply NoDup_app in Hnd1 as (_ & Hd & _). intros Hin. apply (Hd y Hin). by left. }
    assert (Hxy : x ≠ y).
    { intros ->. apply Hy, elem_of_app. right. by left. }
    assert (is_Some (heap c !! x)) as [ex Hex].
    { eapply seg_valid; [exact Hs|]. apply elem_of_app. right. by left. }
    destruct (Hv y) as [ey Hey]; [by left|].
    set (h1 := <[y := with_previous (Some x) ey]> (<[x := with_next (Some y) ex]> (heap c))).
    set (c1 := with_head (Some y) (with_heap h1 c)).
    assert (Hs1 : seg (heap c1) p ((done ++ [x]) ++ [y]) (next ey)).
    { cbn. apply seg_app. split.
      - simpl. apply seg_insert_notin; [done|].
        eapply seg_set_next; eauto. apply NoDup_app in Hnd1 as (H1 & _). done.
      - unfold last_or. rewrite last_snoc. simpl.
        exists (with_previous (Some x) ey). split; [|done].
        unfold h1. rewrite list_lookup_insert_eq; [done|].
        rewrite length_insert. by eapply lookup_lt_Some. }
    assert (Hfr1 : frame c c1).
    { unfold frame. cbn. repeat split. unfold h1.
      rewrite payload_insert with (ex := ey); [by eapply payload_insert| |done].
      by rewrite list_lookup_insert_ne. }
    destruct (IH (done ++ [x]) y c1 p (next ey) Hnd') as (c' & nx' & Hrun & Hs' & Hh' & Ht' & Hfr').
    { intros a Ha. cbn. unfold h1. do 2 apply is_Some_insert. apply Hv. by right. }
    { done. }
    exists c', nx'. split.
    { simpl.
      assert (Hstep : (store (Some x) (with_next (Some y)) ;;
                       store (Some y) (with_previous (Some x)) ;;
                       modify (with_head (Some y))) c = Ok tt c1).
      { unfold bind, store, modify. rewrite Hex. cbn.
        rewrite list_lookup_insert_ne by done. by rewrite Hey. }
      rewrite (bind_Ok _ _ _ _ _ Hstep). exact Hrun. }
    split; [by rewrite <- app_assoc in Hs'|].
    split; [rewrite Hh', last_cons; cbn; by destruct (last rest)|].
    split; [by rewrite Ht'|].
    eapply frame_trans; eauto.
Qed.

(** Lines 302-314. *)
Lemma relink_all sorted c :
  NoDup sorted -> (forall a, a ∈ sorted -> is_Some (heap c !! a)) ->
  exists c' p n,
    relink None sorted c = Ok tt c' /\
    seg (heap c') p sorted n /\
    (sorted ≠ [] -> tail c' = sorted !! 0%nat /\ head c' = last sorted) /\
    (sorted = [] -> c' = c) /\
    frame c c'.
Proof.
  intros Hnd Hv. destruct sorted as [|x rest].
  - exists c, None, None. repeat split; try done. 
  - destruct (Hv x) as [ex Hex]; [by left|].
    set (c1 := with_head (Some x) (with_tail (Some x) c)).
    destruct (relink_rest rest [] x c1 (previous ex) (next ex)) as (c' & nx' & Hrun & Hs' & Hh' & Ht' & Hfr').
    { done. }
    { intros a Ha. cbn. apply Hv. by right. }
    { simpl. exists ex. done. }
    exists c', (previous ex), nx'. split.
    { simpl.
      assert (Hstep : (modify (with_tail (Some x)) ;;
                       modify (with_head (Some x))) c = Ok tt c1) by done.
      rewrite (bind_Ok _ _ _ _ _ Hstep). exact Hrun. }
    split; [done|]. split.
    { intros _. split; [by rewrite Ht'|]. rewrite Hh', last_cons. cbn.
      by destruct (last rest). }
    split; [done|].
    eapply frame_trans; [|exact Hfr']. by unfold frame.
Qed.

Lemma evict_loop_eq fuel acc c :
  evict_loop fuel acc c =
    if len (entries c) >? MaxSize c
    then match fuel with
         | O => OutOfFuel
         | S fuel' => (evict ;; evict_loop fuel' (acc + 1)) c
         end
    else Ok acc c.
Proof.
  destruct fuel; simpl; unfold bind at 1, get_cache;
    by destruct (len (entries c) >? MaxSize c).
Qed.

(** Lines 322-326 evict from the tail until the bound is met. *)
Lemma evict_loop_chained l : forall c p n fuel acc,
  chained c l p n -> 0 < MaxSize c ->
  (length l - Z.to_nat (MaxSize c) <= fuel)%nat ->
  exists c' p',
    evict_loop fuel acc c =
      Ok (acc + Z.of_nat (length l - Z.to_nat (MaxSize c))) c' /\
    chained c' (drop (length l - Z.to_nat (MaxSize c)) l) p' n /\
    mutex c' = mutex c /\ MaxSize c' = MaxSize c /\ Policy c' = Policy c /\
    payload <$> heap c' = payload <$> heap c /\
    (forall k a, entries c' !! k = Some a <->
       entries c !! k = Some a /\ a ∈ drop (length l - Z.to_nat (MaxSize c)) l).
Proof.
  induction l as [|t l IH]; intros c p n fuel acc Hc Hpos Hfuel.
  - pose proof (chained_size _ _ _ _ Hc) as Hsz. simpl in *.
    exists c, p. rewrite evict_loop_eq. unfold len. rewrite Hsz.
    assert ((Z.of_nat 0 >? MaxSize c) = false) as ->.
    { destruct (Z.gtb_spec (Z.of_nat 0) (MaxSize c)); [lia|done]. }
    rewrite Z.add_0_r. split; [done|]. split; [done|].
    split; [done|]. split; [done|]. split; [done|]. split; [done|].
    intros k a. split; [|tauto]. intros Hk.
    by apply (chained_index _ _ _ _ Hc) in Hk as [Hin%elem_of_nil _].
  - pose proof (chained_size _ _ _ _ Hc) as Hsz. simpl in Hsz.
    rewrite evict_loop_eq. unfold len. rewrite Hsz.
    destruct (Z.gtb_spec (Z.of_nat (S (length l))) (MaxSize c)) as [Hgt|Hle].
    + assert (He : (length (t :: l) - Z.to_nat (MaxSize c) =
                    S (length l - Z.to_nat (MaxSize c)))%nat) by (simpl; lia).
      rewrite He in *.
      destruct fuel as [|fuel]; [lia|].
      destruct l as [|t2 l']; [simpl in *; lia|].
      destruct (evict_chained _ _ _ _ _ _ Hc)
        as (c1 & et & Hev & Hc1 & Het & Hkt & He1 & Hh1 & Hm1 & Hms1 & Hp1 & Hpay1).
      destruct (IH c1 None n fuel (acc + 1) Hc1) as
        (c' & p' & Hrun & Hc' & Hm' & Hms' & Hp' & Hpay' & Hidx');
        [lia | rewrite Hms1; lia |].
      rewrite Hms1 in *.
      exists c', p'. split.
      { rewrite (bind_Ok _ _ _ _ _ Hev). rewrite Hrun. f_equal. lia. }
      split; [done|]. split; [congruence|]. split; [done|]. split; [congruence|].
      split; [congruence|].
      intros k a. rewrite Hidx', He1. simpl drop.
      rewrite lookup_delete_Some. split; [tauto|].
      intros [Hk Ha]. split; [|done]. split; [|done].
      intros <-. assert (t = a) by congruence. subst a.
      apply subseteq_drop in Ha.
      destruct Hc as [Hnd _ _ _ _ _]. apply NoDup_cons in Hnd as [Hnd _]. done.
    + assert (He : (length (t :: l) - Z.to_nat (MaxSize c) = 0)%nat) by (simpl; lia).
      rewrite He. simpl drop. exists c, p.
      rewrite Z.add_0_r. split; [done|]. split; [done|].
      split; [done|]. split; [done|]. split; [done|]. split; [done|].
      intros k a. split; [|tauto]. intros Hk. split; [done|].
      by apply (chained_index _ _ _ _ Hc) in Hk as [Hin _].
Qed.

Lemma chained_with_mutex c l p n mu :
  chained c l p n -> chained (with_mutex mu c) l p n.
Proof. intros [? ? ? ? ? ?]. by split. Qed.

Lemma linked_key_consistent c l p n : chained c l p n -> key_consistent c.
Proof.
  intros Hc k a Hk. by destruct (chained_index _ _ _ _ Hc k a Hk) as (_ & He).
Qed.

Lemma decoded_index_empty base records (m : gmap string addr) :
  decoded_index base records m = ∅ -> m = ∅.
Proof.
  intros He. apply map_eq. intros k. rewrite lookup_empty.
  destruct (decide (k ∈ records.*1)) as [Hin|Hnin].
  - destruct (decoded_index_listed records base m k Hin) as (i & d & _ & Ha).
    by rewrite He, lookup_empty in Ha.
  - rewrite <- (decoded_index_other records base m k Hnin). by rewrite He, lookup_empty.
Qed.

(** What a successful restore leaves behind. *)
Lemma ReadFromFile_restored sorted_entries records fuel c :
  sorts_by_timestamp sorted_entries -> valid c -> well_keyed records ->
  let h1 := decoded_heap (heap c) records in
  let m1 := decoded_index (length (heap c)) records (entries c) in
  let sorted := sorted_entries h1 m1 in
  let n := evictions (MaxSize c) (length sorted) in
  (n <= fuel)%nat ->
  exists c' p nx,
    ReadFromFile sorted_entries (Encoded records) fuel c =
      Ok (Z.of_nat n, None) c' /\
    chained c' (drop n sorted) p nx /\
    mutex c' = Free /\ MaxSize c' = MaxSize c /\ Policy c' = Policy c /\
    payload <$> heap c' = payload <$> h1 /\
    (forall k a, entries c' !! k = Some a <->
                 m1 !! k = Some a /\ a ∈ drop n sorted) /\
    NoDup sorted /\ key_consistent (with_entries m1 (with_heap h1 c)).
Proof.
  intros Hsort (Hmu & Hms & l & Hl) Hw h1 m1 sorted n Hfuel.
  set (c0 := with_mutex WriteHeld c).
  set (c1 := with_entries m1 (with_heap h1 c0)).
  assert (Hkc1 : key_consistent c1).
  { apply (decoded_key_consistent c0 records); [|done].
    eapply linked_key_consistent. apply chained_with_mutex. exact Hl. }
  destruct (Hsort h1 m1) as [Hperm _]. fold sorted in Hperm.
  assert (Hnd : NoDup sorted).
  { rewrite Hperm. apply (key_consistent_NoDup c1 Hkc1). }
  assert (Hin : forall a, a ∈ sorted <-> exists k, m1 !! k = Some a).
  { intros a. rewrite Hperm. apply elem_of_index_values. }
  assert (Hval : forall a, a ∈ sorted -> is_Some (heap c1 !! a)).
  { intros a (k & Hk)%Hin. destruct (Hkc1 k a Hk) as (e & He & _). eauto. }
  destruct (relink_all sorted c1 Hnd Hval)
    as (c2 & p & nx & Hrel & Hs2 & Hends & Hnil & He2 & Hm2 & Hms2 & Hp2 & Hpay2).
  cbn in He2, Hm2, Hms2, Hp2, Hpay2.
  assert (Hempty : sorted = [] -> tail c = None /\ head c = None).
  { intros Es. rewrite Es in Hperm.
    assert (entries c = ∅) as Hem.
    { apply (decoded_index_empty (length (heap c)) records).
      fold m1. apply map_to_list_empty_iff.
      apply Permutation_nil_l in Hperm. symmetry in Hperm.
      by apply fmap_nil_inv in Hperm. }
    pose proof (linked_size _ _ Hl) as Hsz. rewrite Hem, map_size_empty in Hsz.
    destruct l; [|done].
    by rewrite (chained_tail _ _ _ _ Hl), (chained_head _ _ _ _ Hl). }
  assert (Hc2 : chained c2 sorted p nx).
  { split; [done| | |done| |].
    - destruct sorted as [|x rest] eqn:Es; [|by apply Hends].
      rewrite (Hnil eq_refl). cbn. by apply Hempty.
    - destruct sorted as [|x rest] eqn:Es; [|by apply Hends].
      rewrite (Hnil eq_refl). cbn. by apply Hempty.
    - intros k a Hk. rewrite He2 in Hk. split; [apply Hin; eauto|].
      destruct (Hkc1 k a Hk) as (e & He & Hke).
      destruct (payload_lookup _ _ _ _ Hpay2 He) as (e' & He' & Hee).
      exists e'. split; [done|]. apply payload_Key in Hee. congruence.
    - intros a e' (k & Hk)%Hin He'. rewrite He2.
      destruct (Hkc1 k a Hk) as (e & He & Hke).
      destruct (payload_lookup _ _ _ _ Hpay2 He) as (e'' & He'' & Hee).
      assert (e'' = e') by congruence. subst e''.
      apply payload_Key in Hee. rewrite Hee, Hke. done. }
  assert (Hrun : ReadFromFile sorted_entries (Encoded records) fuel c =
    (if MaxSize c2 =? NoMaxSize
     then Unlock ;; ret (0, None)
     else let* numberOfEvictions := evict_loop fuel 0 in
          Unlock ;; ret (numberOfEvictions, None)) c2).
  { unfold ReadFromFile. rewrite (bind_Ok _ _ _ _ _ (Lock_Ok c Hmu)). fold c0.
    rewrite (bind_Ok _ _ _ _ _ (Decode_Ok records c0)).
    change (with_entries _ _) with c1.
    unfold bind at 1, get_cache. change (heap c1) with h1. change (entries c1) with m1.
    fold sorted. rewrite (bind_Ok _ _ _ _ _ Hrel). done. }
  rewrite Hrun, Hms2. unfold n, evictions.
  destruct (MaxSize c =? NoMaxSize) eqn:Ez.
  - exists (with_mutex Free c2), p, nx. split.
    { unfold bind. rewrite Unlock_Ok by (by rewrite Hm2). done. }
    simpl drop. split; [by apply chained_with_mutex|]. cbn.
    split; [done|]. split; [done|]. split; [done|]. split; [done|].
    split; [|done].
    intros k a. rewrite He2. split; [|tauto].
    intros Hk. split; [done|]. apply Hin. eauto.
  - apply Z.eqb_neq in Ez. unfold NoMaxSize in Ez.
    destruct (evict_loop_chained sorted c2 p nx fuel 0 Hc2)
      as (c3 & p3 & Hloop & Hc3 & Hm3 & Hms3 & Hp3 & Hpay3 & Hidx3).
    { rewrite Hms2. lia. }
    { rewrite Hms2. unfold n, evictions in Hfuel.
      assert ((MaxSize c =? NoMaxSize) = false) as Hz by (by apply Z.eqb_neq).
      by rewrite Hz in Hfuel. }
    rewrite Hms2 in *.
    exists (with_mutex Free c3), p3, nx. split.
    { rewrite (bind_Ok _ _ _ _ _ Hloop). unfold bind.
      rewrite Unlock_Ok by congruence. done. }
    split; [by apply chained_with_mutex|]. cbn.
    split; [done|]. split; [congruence|]. split; [congruence|].
    split; [congruence|]. split; [|done].
    intros k a. rewrite Hidx3, He2. done.
Qed.

(** What [SaveToFile] writes is filed under the keys the entries carry. *)
Lemma records_of_well_keyed c : key_consistent c -> well_keyed (records_of c).
Proof.
  intros Hc. unfold well_keyed, records_of. apply Forall_forall.
  intros [k e] Hin. apply list_elem_of_omap in Hin as ([k' a] & Hin & Hsome).
  simpl in Hsome. apply fmap_Some in Hsome as (e' & He' & Heq).
  injection Heq as Hk He. subst k' e. apply elem_of_map_to_list in Hin.
  destruct (Hc k a Hin) as (e0 & He0 & Hk0). simpl. congruence.
Qed.

(** ** Insertion sort is one of the admissible orders *)

Lemma insert_by_timestamp_perm h a l : insert_by_timestamp h a l ≡ₚ a :: l.
Proof.
  induction l as [|b l IH]; simpl; [done|].
  destruct (Before _ _); [|done]. rewrite IH. apply Permutation_swap.
Qed.

Lemma ascending_cons h a l :
  (forall b, b ∈ l -> timestamp_at h a <= timestamp_at h b) ->
  ascending h l -> ascending h (a :: l).
Proof.
  intros Ha Hl i j x y Hij Hi Hj.
  destruct i as [|i], j as [|j]; simpl in *; try lia.
  - assert (x = y) by congruence. subst. lia.
  - assert (x = a) by congruence. subst. apply Ha. by eapply list_elem_of_lookup_2.
  - apply (Hl i j); [lia|done..].
Qed.

Lemma ascending_inv h a l :
  ascending h (a :: l) ->
  (forall b, b ∈ l -> timestamp_at h a <= timestamp_at h b) /\ ascending h l.
Proof.
  intros H. split.
  - intros b [j Hj]%list_elem_of_lookup_1. apply (H 0%nat (S j)); [lia|done..].
  - intros i j x y Hij Hi Hj. apply (H (S i) (S j)); [lia|done..].
Qed.

Lemma insert_by_timestamp_ascending h a l :
  ascending h l -> ascending h (insert_by_timestamp h a l).
Proof.
  induction l as [|b l IH]; intros Hl; simpl.
  - apply ascending_cons; [|done]. by intros b Hb%elem_of_nil.
  - apply ascending_inv in Hl as [Hb Hl]. unfold Before.
    destruct (Z.ltb_spec (timestamp_at h b) (timestamp_at h a)) as [Hlt|Hge].
    + apply ascending_cons; [|by apply IH].
      intros x Hx. rewrite insert_by_timestamp_perm in Hx.
      apply elem_of_cons in Hx as [->|Hx]; [lia|by apply Hb].
    + apply ascending_cons.
      * intros x [->|Hx]%elem_of_cons; [lia|]. specialize (Hb x Hx). lia.
      * by apply ascending_cons.
Qed.

Lemma sort_by_timestamp_sorts : sorts_by_timestamp sort_by_timestamp.
Proof.
  intros h m. unfold sort_by_timestamp. split.
  - induction ((map_to_list m).*2) as [|a l IH]; simpl; [done|].
    by rewrite insert_by_timestamp_perm, IH.
  - induction ((map_to_list m).*2) as [|a l IH]; simpl.
    + intros i j a b _ Hi. by rewrite lookup_nil in Hi.
    + by apply insert_by_timestamp_ascending.
Qed.

(** ** Small facts on 64-bit time *)

Lemma wrap64_id z : min_int64 <= z <= max_int64 -> wrap64 z = z.
Proof.
  unfold wrap64, min_int64, max_int64. intros H.
  rewrite Z.mod_small by lia. lia.
Qed.

Lemma sat64_sign z : (sat64 z <? 0) = (z <? 0).
Proof.
  unfold sat64, min_int64, max_int64.
  destruct (Z.ltb_spec z 0), (Z.ltb_spec (Z.max (- 2 ^ 63) (Z.min (2 ^ 63 - 1) z)) 0);
    try done; lia.
Qed.

Lemma Expired_true e now :
  Expired e now = true <-> Expiration e ≠ NoExpiration /\ Expiration e <= now.
Proof.
  unfold Expired. rewrite andb_true_iff, negb_true_iff, Z.eqb_neq, Z.leb_le. tauto.
Qed.

(** ** The claims *)

(** *** Eviction of the only entry *)

(** C1.  [evict] on a cache that holds exactly one entry does not end
    normally: after the key is deleted, [cache.tail] becomes [nil] and line
    370 writes through it.  (On an empty cache [evict] does nothing,
    [evict_empty]; on two entries or more it removes exactly the tail,
    [evict_linked].) *)
Theorem evict_single_entry_panics (c : Cache) (a : addr) :
  linked c [a] -> evict c = Panic.
Proof.
  intros Hl. pose proof (linked_size _ _ Hl) as Hsz.
  destruct Hl as [_ Ht _ (e & He & _ & Hn & _) _ _].
  eapply evict_sole; eauto. rewrite Hsz. done.
Qed.

Lemma evict_single_entry_panics_witness :
  linked one_entry_cache [0%nat] /\ evict one_entry_cache = Panic.
Proof.
  assert (H : linked one_entry_cache [0%nat]) by (apply linkedb_sound; reflexivity).
  split; [exact H | exact (evict_single_entry_panics one_entry_cache 0%nat H)].
Defined.

(** The same panic through the exported surface: [MaxSize] is an exported
    field, and with a negative value in it the first [Set] evicts the entry
    it has just created. *)
Example Set_with_negative_MaxSize_panics :
  Set_ "a" (IInt 1) 10 (with_MaxSize (-1) NewCache) = Panic.
Proof. reflexivity. Qed.

(** *** [SetWithTTL] with a negative TTL *)

(** C2.  An update with a negative TTL other than the sentinel does not
    always leave the entry expired: where the update instant plus the TTL is
    exactly -1, line 106 writes the never-expires sentinel.  Here "k" is
    present, the clock stands at 1800000000000000000 ns and the TTL is
    -1800000000000000001 ns; afterwards the entry never expires, [TTL]
    reports that the key has no expiration and [Get] finds it. *)
Lemma SetWithTTL_negative_ttl_sentinel_collision :
  valid cache_k /\
  -1800000000000000001 < 0 /\ -1800000000000000001 ≠ NoExpiration /\
  entries cache_k !! "k" = Some 0%nat /\
  exists c' e',
    SetWithTTL "k" (IInt 2) (-1800000000000000001)
      1800000000000000000 1800000000000000000 cache_k = Ok tt c' /\
    heap c' !! 0%nat = Some e' /\
    Expiration e' = NoExpiration /\
    (forall later, Expired e' later = false) /\
    TTL "k" 1800000000000000001 c' = Ok (0, Some ErrKeyHasNoExpiration) c' /\
    Get "k" 1800000000000000001 1800000000000000001 c' = Ok (IInt 2, true) c'.
Proof.
  split; [apply validb_sound; reflexivity|].
  split; [lia|]. split; [done|]. split; [reflexivity|].
  eexists _, _. split; [reflexivity|]. split; [reflexivity|].
  split; [reflexivity|]. split; [intros later; reflexivity|].
  split; reflexivity.
Qed.

(** The rest of C2 holds.  With a negative TTL other than the sentinel,
    [SetWithTTL] leaves the cache as it is when the key is absent.  When
    the key is present the update goes through: the value is rewritten, the
    expiration becomes the update instant plus the TTL, an instant already
    past, the entry is at the head and still indexed; from then on the
    entry is expired, unless that sum is exactly the sentinel -1. *)
Theorem SetWithTTL_negative_ttl
    (key : string) (value : iface) (ttl now1 now2 : Z) (c : Cache) :
  valid c -> ttl < 0 -> ttl ≠ NoExpiration ->
  min_int64 <= ttl -> 0 <= now2 <= max_int64 ->
  (entries c !! key = None ->
   SetWithTTL key value ttl now1 now2 c = Ok tt c) /\
  (forall a, entries c !! key = Some a ->
     exists c' e',
       SetWithTTL key value ttl now1 now2 c = Ok tt c' /\
       valid c' /\
       head c' = Some a /\ entries c' !! key = Some a /\
       heap c' !! a = Some e' /\
       Key e' = key /\ Value e' = value /\
       Expiration e' = now2 + ttl /\ Expiration e' < now2 /\
       (now2 + ttl ≠ NoExpiration ->
        forall later, now2 <= later -> Expired e' later = true)).
Proof.
  intros Hv Hneg Hne Hmin Hnow. split.
  - intros Hk. destruct Hv as (Hmu & _). by apply SetWithTTL_absent_negative.
  - intros a Hk.
    destruct (SetWithTTL_present key value ttl now1 now2 c a Hv Hk)
      as (c' & ea & ea' & Hrun & Hv' & _ & _ & Hh & Hk' & Hea & Hea' & Hpay & _).
    destruct Hv as (_ & _ & l & Hl).
    destruct (chained_index _ _ _ _ Hl key a Hk) as (_ & e0 & He0 & Hk0).
    assert (e0 = ea) by congruence. subst e0.
    assert (Hx : expiration_for ttl now2 = now2 + ttl).
    { unfold expiration_for.
      assert ((ttl =? NoExpiration) = false) as -> by (by apply Z.eqb_neq).
      cbn. unfold UnixNano. apply wrap64_id. unfold min_int64, max_int64 in *. lia. }
    rewrite Hx in Hpay. unfold payload in Hpay. cbn in Hpay.
    injection Hpay as Hpk Hpv Hpt Hpe.
    exists c', ea'.
    split; [done|]. split; [done|]. split; [done|]. split; [done|].
    split; [done|]. split; [congruence|]. split; [done|].
    split; [done|]. split; [lia|].
    intros Hs later Hlater. apply Expired_true. split; [congruence|lia].
Qed.

Lemma SetWithTTL_negative_ttl_witness :
  (entries cache_k !! "j" = None ->
   SetWithTTL "j" (IInt 2) (-5000000000)
     1800000000000000000 1800000000000000000 cache_k = Ok tt cache_k) /\
  (forall a, entries cache_k !! "k" = Some a ->
     exists c' e',
       SetWithTTL "k" (IInt 2) (-5000000000)
         1800000000000000000 1800000000000000000 cache_k = Ok tt c' /\
       valid c' /\
       head c' = Some a /\ entries c' !! "k" = Some a /\
       heap c' !! a = Some e' /\
       Key e' = "k" /\ Value e' = IInt 2 /\
       Expiration e' = 1800000000000000000 + -5000000000 /\
       Expiration e' < 1800000000000000000 /\
       (1800000000000000000 + -5000000000 ≠ NoExpiration ->
        forall later, 1800000000000000000 <= later -> Expired e' later = true)).
Proof.
  assert (Hv : valid cache_k) by (apply validb_sound; reflexivity).
  split.
  - apply (SetWithTTL_negative_ttl "j" (IInt 2) (-5000000000)
             1800000000000000000 1800000000000000000 cache_k Hv);
      unfold min_int64, max_int64, NoExpiration; lia.
  - apply (SetWithTTL_negative_ttl "k" (IInt 2) (-5000000000)
             1800000000000000000 1800000000000000000 cache_k Hv);
      unfold min_int64, max_int64, NoExpiration; lia.
Defined.

(** *** The timestamp of an updated entry *)

(** C3.  Updating a present key leaves the entry's [RelevantTimestamp] at
    the value it had: lines 100-104 write the value and relink the entry,
    and nothing stamps the instant of the update. *)
Theorem SetWithTTL_update_keeps_RelevantTimestamp
    (key : string) (value : iface) (ttl now1 now2 : Z) (c : Cache)
    (a : addr) (e : Entry) :
  valid c -> entries c !! key = Some a -> heap c !! a = Some e ->
  exists c' e',
    SetWithTTL key value ttl now1 now2 c = Ok tt c' /\
    heap c' !! a = Some e' /\
    RelevantTimestamp e' = RelevantTimestamp e.
Proof.
  intros Hv Hk He.
  destruct (SetWithTTL_present key value ttl now1 now2 c a Hv Hk)
    as (c' & ea & ea' & Hrun & _ & _ & _ & _ & _ & Hea & Hea' & Hpay & _).
  assert (ea = e) by congruence. subst ea.
  exists c', ea'. split; [done|]. split; [done|].
  unfold payload in Hpay. cbn in Hpay. congruence.
Qed.

Lemma SetWithTTL_update_keeps_RelevantTimestamp_witness :
  exists c' e',
    SetWithTTL "a" (IInt 2) NoExpiration 50 50 one_entry_cache = Ok tt c' /\
    heap c' !! 0%nat = Some e' /\
    RelevantTimestamp e' = 10.
Proof.
  apply (SetWithTTL_update_keeps_RelevantTimestamp "a" (IInt 2) NoExpiration 50 50
           one_entry_cache 0%nat (mkEntry "a" (IInt 1) 10 NoExpiration None None)).
  - apply validb_sound. reflexivity.
  - reflexivity.
  - reflexivity.
Defined.

(** What the stale timestamp does to a restore: "a" is created at 10, "b"
    at 20, then "a" is updated at 30, so that "b" is the tail and "a" the
    head; sorted by timestamp, as [ReadFromFile] relinks, "a" comes first
    and would be the tail. *)
Example update_then_sort_by_timestamp :
  let c := after (Set_ "a" (IInt 1) 10 ;; Set_ "b" (IInt 2) 20 ;;
                  Set_ "a" (IInt 3) 30) NewCache in
  list_of c = [1%nat; 0%nat] /\
  sort_by_timestamp (heap c) (entries c) = [0%nat; 1%nat].
Proof. split; reflexivity. Qed.

(** *** The size bound *)



(** In that cache the third key pushes out the oldest one. *)
Example full_cache_evicts_oldest :
  let c' := after (Set_ "c" (IInt 3) 30) full_cache in
  entries c' !! "a" = None /\ entries c' !! "b" = Some 1%nat /\
  entries c' !! "c" = Some 2%nat /\ len (entries c') = 2.
Proof. repeat split; reflexivity. Qed.

(** *** Lazy expiration *)

(** C6.  Under either policy, [Get] on a key whose entry is expired answers
    not-found and leaves the cache exactly as it was; the entry is still in
    the index and [Count] still counts it. *)
Theorem Get_expired_is_absent_but_counted
    (key : string) (now now_accessed : Z) (c : Cache) (a : addr) (e : Entry) :
  mutex c = Free ->
  entries c !! key = Some a -> heap c !! a = Some e -> Expired e now = true ->
  Get key now now_accessed c = Ok (INil, false) c /\
  Count c = Ok (len (entries c)) c /\
  entries c !! key = Some a /\ 1 <= len (entries c).
Proof.
  intros Hmu Hk He Hex.
  assert (Hback : with_mutex Free (with_mutex (ReadHeld 1) c) = c).
  { rewrite with_mutex_twice, <- Hmu. apply with_mutex_id. }
  split; [|split; [|split; [done|]]].
  - unfold Get, Get_lookup, bind, RLock, RUnlock, get_cache. rewrite Hmu. cbn.
    rewrite Hk, Hback. unfold load. rewrite He, Hex. done.
  - unfold Count, bind, RLock, RUnlock, get_cache, ret. rewrite Hmu. cbn.
    by rewrite Hback.
  - unfold len. assert (size (entries c) ≠ 0%nat); [|lia].
    apply map_size_non_empty_iff. intros Hem. by rewrite Hem, lookup_empty in Hk.
Qed.

Lemma Get_expired_is_absent_but_counted_witness :
  Get "a" 100 100 cache_with_ttl = Ok (INil, false) cache_with_ttl /\
  Count cache_with_ttl = Ok (len (entries cache_with_ttl)) cache_with_ttl /\
  entries cache_with_ttl !! "a" = Some 0%nat /\
  1 <= len (entries cache_with_ttl).
Proof.
  apply (Get_expired_is_absent_but_counted "a" 100 100 cache_with_ttl 0%nat
           (mkEntry "a" (IInt 1) 10 15 None (Some 1%nat))); reflexivity.
Defined.

(** *** [TTL] *)

(** C7 as it is stated fails at the very instant of expiration.  "a"
    expires at 15: at 15 the entry is expired as the spec has it
    ([Expired], now >= expiration) and [Get] does not find the key, but the
    test of line 223 is [timeUntilExpiration < 0], and [TTL] answers the
    duration 0 with no error. *)
Lemma TTL_at_the_instant_of_expiration :
  exists e,
    entries cache_with_ttl !! "a" = Some 0%nat /\
    heap cache_with_ttl !! 0%nat = Some e /\
    Expiration e = 15 /\ Expired e 15 = true /\
    Get "a" 15 15 cache_with_ttl = Ok (INil, false) cache_with_ttl /\
    TTL "a" 15 cache_with_ttl = Ok (0, None) cache_with_ttl.
Proof.
  eexists. split; [reflexivity|]. split; [reflexivity|].
  split; [reflexivity|]. split; [reflexivity|].
  split; vm_compute; reflexivity.
Qed.

(** C7, amended.  [TTL] answers [ErrKeyDoesNotExist] for an absent key and
    for an entry whose expiration instant lies strictly before now,
    [ErrKeyHasNoExpiration] for an entry that never expires, and otherwise,
    also at the very instant of expiration, the time left, which is not
    negative (0 at that instant); the two errors differ. *)
Theorem TTL_cases (key : string) (now : Z) (c : Cache) :
  mutex c = Free ->
  (entries c !! key = None ->
   TTL key now c = Ok (0, Some ErrKeyDoesNotExist) c) /\
  (forall a e, entries c !! key = Some a -> heap c !! a = Some e ->
     (Expiration e = NoExpiration ->
      TTL key now c = Ok (0, Some ErrKeyHasNoExpiration) c) /\
     (Expiration e ≠ NoExpiration -> Expiration e < now ->
      TTL key now c = Ok (0, Some ErrKeyDoesNotExist) c) /\
     (Expiration e ≠ NoExpiration -> now <= Expiration e ->
      TTL key now c = Ok (time_Until (Expiration e) now, None) c /\
      0 <= time_Until (Expiration e) now)) /\
  ErrKeyDoesNotExist ≠ ErrKeyHasNoExpiration.
Proof.
  intros Hmu.
  assert (Hback : with_mutex Free (with_mutex (ReadHeld 1) c) = c).
  { rewrite with_mutex_twice, <- Hmu. apply with_mutex_id. }
  assert (Hrun : TTL key now c =
    match entries c !! key with
    | None => Ok (0, Some ErrKeyDoesNotExist) c
    | Some entry =>
        (let* e := load (Some entry) in
         if Expiration e =? NoExpiration
         then ret (0, Some ErrKeyHasNoExpiration)
         else if time_Until (Expiration e) now <? 0
              then ret (0, Some ErrKeyDoesNotExist)
              else ret (time_Until (Expiration e) now, None)) c
    end).
  { unfold TTL, bind at 1 2 3, RLock, RUnlock, get_cache. rewrite Hmu. cbn.
    rewrite Hback. by destruct (entries c !! key). }
  split; [|split; [|done]].
  - intros Hk. by rewrite Hrun, Hk.
  - intros a e Hk He. rewrite Hrun, Hk. unfold bind, load, ret. rewrite He.
    unfold time_Until. rewrite sat64_sign.
    split; [|split].
    + intros ->. done.
    + intros Hne Hlt. apply Z.eqb_neq in Hne. rewrite Hne.
      assert ((Expiration e - now <? 0) = true) as -> by (apply Z.ltb_lt; lia). done.
    + intros Hne Hge. apply Z.eqb_neq in Hne. rewrite Hne.
      assert ((Expiration e - now <? 0) = false) as -> by (apply Z.ltb_ge; lia).
      split; [done|]. unfold sat64, min_int64, max_int64. lia.
Qed.

Lemma TTL_cases_witness :
  TTL "zz" 12 cache_with_ttl = Ok (0, Some ErrKeyDoesNotExist) cache_with_ttl /\
  TTL "b" 12 cache_with_ttl = Ok (0, Some ErrKeyHasNoExpiration) cache_with_ttl /\
  TTL "a" 16 cache_with_ttl = Ok (0, Some ErrKeyDoesNotExist) cache_with_ttl /\
  TTL "a" 12 cache_with_ttl = Ok (3, None) cache_with_ttl /\
  TTL "a" 15 cache_with_ttl = Ok (0, None) cache_with_ttl.
Proof.
  assert (Hmu : mutex cache_with_ttl = Free) by reflexivity.
  assert (Ha : entries cache_with_ttl !! "a" = Some 0%nat) by reflexivity.
  assert (Hb : entries cache_with_ttl !! "b" = Some 1%nat) by reflexivity.
  assert (Hea : heap cache_with_ttl !! 0%nat =
                Some (mkEntry "a" (IInt 1) 10 15 None (Some 1%nat))) by reflexivity.
  assert (Heb : heap cache_with_ttl !! 1%nat =
                Some (mkEntry "b" (IInt 2) 20 NoExpiration (Some 0%nat) None))
    by reflexivity.
  split; [|split; [|split; [|split]]].
  - apply (proj1 (TTL_cases "zz" 12 cache_with_ttl Hmu)). reflexivity.
  - apply (proj1 (proj2 (TTL_cases "b" 12 cache_with_ttl Hmu)) _ _ Hb Heb).
    reflexivity.
  - apply (proj1 (proj2 (TTL_cases "a" 16 cache_with_ttl Hmu)) _ _ Ha Hea);
      [discriminate | reflexivity].
  - apply (proj1 (proj2 (TTL_cases "a" 12 cache_with_ttl Hmu)) _ _ Ha Hea);
      discriminate.
  - apply (proj1 (proj2 (TTL_cases "a" 15 cache_with_ttl Hmu)) _ _ Ha Hea);
      discriminate.
Defined.

(** *** A restore that fails to decode *)

(** C8.  When [Decode] fails, [ReadFromFile] hands the error back from
    line 290 with the write lock of line 287 still held: head and tail are
    as before, the index holds whatever [gob] had decoded before it failed
    (nothing new when the stream is wrong from its start, and then index and
    entries are as before), but the mutex is write-locked, so the state is
    not the one before, and every later operation on the cache blocks on
    it. *)
Theorem ReadFromFile_decode_failure_keeps_lock
    (sorted_entries : list Entry -> gmap string addr -> list addr)
    (decoded : list (string * Entry)) (fuel : nat) (c : Cache) :
  mutex c = Free ->
  let c' := with_entries (decoded_index (length (heap c)) decoded (entries c))
              (with_heap (decoded_heap (heap c) decoded)
                 (with_mutex WriteHeld c)) in
  ReadFromFile sorted_entries (Garbled decoded) fuel c =
    Ok (0, Some ErrDecode) c' /\
  c' ≠ c /\
  mutex c' = WriteHeld /\ head c' = head c /\ tail c' = tail c /\
  (decoded = [] -> c' = with_mutex WriteHeld c) /\
  Count c' = Blocked /\
  (forall key now now', Get key now now' c' = Blocked) /\
  (forall key value ttl now now',
     SetWithTTL key value ttl now now' c' = Blocked) /\
  (forall key, Delete key c' = Blocked) /\
  (forall file fuel',
     file ≠ Unreadable ->
     ReadFromFile sorted_entries file fuel' c' = Blocked).
Proof.
  intros Hmu c'.
  split; [|split; [|split; [|split; [|split; [|split; [|split; [|split;
    [|split; [|split]]]]]]]]].
  - unfold ReadFromFile. rewrite (bind_Ok _ _ _ _ _ (Lock_Ok c Hmu)).
    by rewrite (bind_Ok _ _ _ _ _ (Decode_Ok decoded (with_mutex WriteHeld c))).
  - intros Heq. apply (f_equal mutex) in Heq. cbn in Heq. congruence.
  - reflexivity.
  - reflexivity.
  - reflexivity.
  - intros ->. unfold c', decoded_heap. cbn. rewrite app_nil_r. by destruct c.
  - unfold Count, bind, RLock. reflexivity.
  - intros. unfold Get, Get_lookup, bind, RLock. reflexivity.
  - intros. unfold SetWithTTL, bind, Lock. reflexivity.
  - intros. unfold Delete, bind, Lock. reflexivity.
  - intros [|partial|records] fuel' Hf; [done| |];
      unfold ReadFromFile, bind, Lock; reflexivity.
Qed.

Lemma ReadFromFile_decode_failure_keeps_lock_witness :
  exists c',
    ReadFromFile sort_by_timestamp (Garbled snapshot_y) 0 full_cache =
      Ok (0, Some ErrDecode) c' /\
    mutex c' = WriteHeld /\
    entries c' !! "y" = Some 2%nat /\
    Count c' = Blocked.
Proof.
  pose proof (ReadFromFile_decode_failure_keeps_lock sort_by_timestamp snapshot_y 0
                full_cache eq_refl) as H.
  cbv zeta in H. destruct H as (H1 & _ & H2 & _ & _ & _ & H3 & _).
  eexists. split; [exact H1|]. split; [exact H2|]. split; [|exact H3].
  vm_compute. reflexivity.
Defined.

(** *** A read that races with a delete *)

(** C10.  Under LeastRecentlyUsed, [Get] looks the entry up under the read
    lock and relinks it later under the write lock, without looking at the
    index again.  In this schedule "a" and "b" are in the cache, one
    goroutine runs lines 126-138 of [Get "a"], another runs [Delete "a"],
    and the first goes on with lines 139-143: the deleted entry ends up as
    the head of the list, indexed by no key. *)
Theorem Get_relinks_deleted_entry :
  exists r c1 c2 c3,
    Get_lookup "a" 30 30 lru_cache = Ok r c1 /\ fst r = Some 0%nat /\
    Delete "a" c1 = Ok true c2 /\
    validb c2 = true /\ entries c2 !! "a" = None /\
    Get_relink r c2 = Ok (IInt 1, true) c3 /\
    head c3 = Some 0%nat /\
    map_to_list (entries c3) = [("b", 1%nat)] /\
    list_of c3 = [1%nat; 0%nat] /\
    validb c3 = false.
Proof.
  eexists _, _, _, _.
  split; [vm_compute; reflexivity|]. split; [reflexivity|].
  split; [vm_compute; reflexivity|]. split; [vm_compute; reflexivity|].
  split; [vm_compute; reflexivity|]. split; [vm_compute; reflexivity|].
  split; [reflexivity|]. split; [vm_compute; reflexivity|].
  split; vm_compute; reflexivity.
Qed.

(** *** Restoring *)

Lemma timestamp_at_payload (h h' : list Entry) a :
  payload <$> h' = payload <$> h -> timestamp_at h' a = timestamp_at h a.
Proof.
  intros Hp. unfold timestamp_at.
  assert (H : forall g : list Entry,
            RelevantTimestamp <$> g !! a = RelevantTimestamp <$> (payload <$> g) !! a).
  { intros g. rewrite list_lookup_fmap. by destruct (g !! a). }
  by rewrite (H h'), (H h), Hp.
Qed.

Lemma last_drop_lt (l : list addr) n : (n < length l)%nat -> last (drop n l) = last l.
Proof.
  intros Hn. rewrite <- (take_drop n l) at 2. rewrite last_app.
  destruct (last (drop n l)) eqn:E; [done|].
  apply last_None in E. apply (f_equal length) in E. rewrite length_drop in E.
  simpl in E. lia.
Qed.

Lemma evicted_are_oldest h (l : list addr) n a b :
  ascending h l -> a ∈ take n l -> b ∈ drop n l ->
  timestamp_at h a <= timestamp_at h b.
Proof.
  intros Hasc (i & Hi & Hlt)%elem_of_take (j & Hj)%list_elem_of_lookup_1.
  rewrite lookup_drop in Hj. apply (Hasc i (n + j)%nat); [lia|done..].
Qed.

(** C4.  A successful restore into a valid cache with a positive maximum
    size: the entries of the index after decoding (the restored set, of
    [len m1] entries; for a cache that was empty, the keys of the snapshot)
    are taken in ascending order of [RelevantTimestamp] and relinked in
    that order; then the tail is evicted as often as the count exceeds the
    maximum size, and that number, the restored count minus the maximum
    size when it is exceeded, is returned.  What is left is the list from
    position [n] on: its first entry is the tail, the newest entry is the
    head, the index holds exactly the entries left, none of the evicted
    entries is younger than one that is left, and the count is the smaller
    of the restored count and the maximum size. *)
Theorem ReadFromFile_sorts_and_evicts
    (sorted_entries : list Entry -> gmap string addr -> list addr)
    (records : list (string * Entry)) (fuel : nat) (c : Cache) :
  sorts_by_timestamp sorted_entries -> valid c -> well_keyed records ->
  0 < MaxSize c ->
  let h1 := decoded_heap (heap c) records in
  let m1 := decoded_index (length (heap c)) records (entries c) in
  let sorted := sorted_entries h1 m1 in
  let n := (length sorted - Z.to_nat (MaxSize c))%nat in
  (n <= fuel)%nat ->
  exists c',
    ReadFromFile sorted_entries (Encoded records) fuel c =
      Ok (Z.of_nat n, None) c' /\
    sorted ≡ₚ (map_to_list m1).*2 /\ ascending h1 sorted /\
    tail c' = sorted !! n /\ head c' = last sorted /\
    (exists p nx, seg (heap c') p (drop n sorted) nx) /\
    (forall a, timestamp_at (heap c') a = timestamp_at h1 a) /\
    (forall k a, entries c' !! k = Some a <->
                 m1 !! k = Some a /\ a ∈ drop n sorted) /\
    (forall a b, a ∈ take n sorted -> b ∈ drop n sorted ->
                 timestamp_at h1 a <= timestamp_at h1 b) /\
    len (entries c') = Z.min (len m1) (MaxSize c) /\
    Z.of_nat n = Z.max 0 (len m1 - MaxSize c) /\
    (entries c = ∅ -> forall k, is_Some (m1 !! k) <-> k ∈ records.*1).
Proof.
  intros Hsort Hv Hw Hpos h1 m1 sorted n Hfuel.
  assert (Hn : evictions (MaxSize c) (length sorted) = n).
  { unfold evictions, NoMaxSize.
    assert ((MaxSize c =? 0) = false) as -> by (apply Z.eqb_neq; lia). done. }
  pose proof (ReadFromFile_restored sorted_entries records fuel c Hsort Hv Hw) as H.
  cbv zeta in H. change (decoded_heap (heap c) records) with h1 in H.
  change (decoded_index (length (heap c)) records (entries c)) with m1 in H.
  change (sorted_entries h1 m1) with sorted in H. rewrite Hn in H.
  destruct (H Hfuel)
    as (c' & p & nx & Hrun & Hc' & Hmu & Hms & Hp & Hpay & Hidx & Hnd & Hkc).
  clear H.
  destruct (Hsort h1 m1) as [Hperm Hasc]. fold sorted in Hperm, Hasc.
  assert (Hlen : len m1 = Z.of_nat (length sorted)).
  { unfold len. rewrite Hperm, length_fmap, length_map_to_list. done. }
  exists c'. split; [done|]. split; [done|]. split; [done|].
  split.
  { rewrite (chained_tail _ _ _ _ Hc'), lookup_drop. f_equal. lia. }
  split.
  { rewrite (chained_head _ _ _ _ Hc').
    destruct (decide (length sorted = 0)%nat) as [Hz|Hz].
    - destruct sorted; [|done]. by rewrite drop_nil.
    - apply last_drop_lt. unfold n. lia. }
  split; [exists p, nx; apply Hc'|].
  split; [intros a; by apply timestamp_at_payload|].
  split; [done|].
  split; [intros a b; by apply evicted_are_oldest|].
  pose proof (chained_size _ _ _ _ Hc') as Hsz. rewrite length_drop in Hsz.
  split; [unfold len at 1; rewrite Hsz, Hlen; unfold n; lia|].
  split; [rewrite Hlen; unfold n; lia|].
  intros Hem k. split.
  - intros [a Ha]. apply decoded_index_Some in Ha as [Ha|(i & d & Hi & _)].
    + by rewrite Hem, lookup_empty in Ha.
    + apply list_elem_of_fmap. exists (k, d). split; [done|].
      by eapply list_elem_of_lookup_2.
  - intros Hk. destruct (decoded_index_listed records (length (heap c)) (entries c) k Hk)
      as (i & d & _ & Ha). eauto.
Qed.

Lemma ReadFromFile_sorts_and_evicts_witness :
  exists c',
    ReadFromFile sort_by_timestamp (Encoded snapshot3) 1 small_cache =
      Ok (1, None) c' /\
    tail c' = Some 2%nat /\ head c' = Some 0%nat /\ len (entries c') = 2.
Proof.
  destruct (ReadFromFile_sorts_and_evicts sort_by_timestamp snapshot3 1 small_cache)
    as (c' & Hrun & _ & _ & Ht & Hh & _ & _ & _ & _ & Hlen & _ & _).
  - exact sort_by_timestamp_sorts.
  - apply validb_sound. reflexivity.
  - repeat constructor.
  - reflexivity.
  - vm_compute. lia.
  - exists c'. split; [exact Hrun|]. split; [exact Ht|]. split; [exact Hh|exact Hlen].
Defined.

(** C9, as the claim has it, fails when a maximum size is set and the
    merged index exceeds it: lines 322-326 then evict the oldest entries of
    the union, and these can be entries that were in the cache before.
    Here the cache holds "x" (stamped 10) with maximum size 1 and the
    snapshot holds "y" (stamped 20): the restore evicts "x". *)
Lemma ReadFromFile_evicts_entry_absent_from_snapshot :
  valid cache_x /\ well_keyed snapshot_y /\
("x" ∉ snapshot_y.*1) /\ entries cache_x !! "x" = Some 0%nat /\
  exists c',
    ReadFromFile sort_by_timestamp (Encoded snapshot_y) 1 cache_x =
      Ok (1, None) c' /\
    entries c' !! "x" = None /\ entries c' !! "y" = Some 1%nat /\
    len (entries c') = 1.
Proof.
  split; [apply validb_sound; reflexivity|].
  split; [repeat constructor|].
  split; [by intros H%list_elem_of_singleton|].
  split; [reflexivity|].
  eexists. split; [vm_compute; reflexivity|].
  split; [reflexivity|]. split; reflexivity.
Qed.

(** Lines 302-314 write neither [entries[0].previous] nor the [next] of
    the last entry, so an entry that was in the cache keeps there the link
    it had.  Here "a" (stamped 10) and "b" (stamped 20) are in the cache
    and the snapshot holds "a" alone, stamped 30: after the restore "b" is
    the tail and still points back at the entry "a" had before, which no
    key leads to any more, and the cache is not valid. *)
Example ReadFromFile_merge_keeps_a_stale_link :
  let c' := after (ReadFromFile sort_by_timestamp
                     (Encoded [("a", mkEntry "a" (IInt 9) 30 NoExpiration None None)])
                     0) lru_cache in
  valid lru_cache /\
  ReadFromFile sort_by_timestamp
    (Encoded [("a", mkEntry "a" (IInt 9) 30 NoExpiration None None)]) 0 lru_cache =
    Ok (0, None) c' /\
  tail c' = Some 1%nat /\ head c' = Some 2%nat /\
  entries c' !! "b" = Some 1%nat /\ entries c' !! "a" = Some 2%nat /\
  len (entries c') = 2 /\
  (previous <$> heap c' !! 1%nat) = Some (Some 0%nat) /\
  ~ valid c'.
Proof.
  intros c'. split; [apply validb_sound; vm_compute; reflexivity|].
  split; [vm_compute; reflexivity|]. split; [vm_compute; reflexivity|].
  split; [vm_compute; reflexivity|]. split; [vm_compute; reflexivity|].
  split; [vm_compute; reflexivity|]. split; [vm_compute; reflexivity|].
  assert (Hp : (previous <$> heap c' !! 1%nat) = Some (Some 0%nat))
    by (vm_compute; reflexivity).
  split; [exact Hp|].
  intros (_ & _ & l & Hl).
  assert (Ht : tail c' = Some 1%nat) by (vm_compute; reflexivity).
  rewrite (chained_tail _ _ _ _ Hl) in Ht.
  destruct l as [|x l]; [discriminate|]. simpl in Ht. injection Ht as ->.
  destruct (chained_seg _ _ _ _ Hl) as (e & He & Hprev & _).
  rewrite He in Hp. simpl in Hp. congruence.
Qed.

(** C9, amended.  A successful restore into a valid cache merges: decoding
    leaves every key that is not in the snapshot on its entry, files every
    key of the snapshot under a fresh entry, and leaves the old entries as
    they are; the entries of the merged index that are kept are chained in
    ascending order of [RelevantTimestamp] from the tail to the head (what
    lies before the tail and behind the head is left open here).  An entry that was there before, under a key absent from
    the snapshot, is afterwards still indexed with the payload it had, or
    it is one of the [n] oldest entries of the union, which the size bound
    has evicted; without a maximum size, or when the union fits, [n] is 0
    and nothing is evicted. *)
Theorem ReadFromFile_merges
    (sorted_entries : list Entry -> gmap string addr -> list addr)
    (records : list (string * Entry)) (fuel : nat) (c : Cache) :
  sorts_by_timestamp sorted_entries -> valid c -> well_keyed records ->
  let h1 := decoded_heap (heap c) records in
  let m1 := decoded_index (length (heap c)) records (entries c) in
  let sorted := sorted_entries h1 m1 in
  let n := evictions (MaxSize c) (length sorted) in
  (n <= fuel)%nat ->
  exists c',
    ReadFromFile sorted_entries (Encoded records) fuel c =
      Ok (Z.of_nat n, None) c' /\
    (forall k, k ∉ records.*1 -> m1 !! k = entries c !! k) /\
    (forall k, k ∈ records.*1 ->
               exists a, m1 !! k = Some a /\ (length (heap c) <= a)%nat) /\
    (forall a e, heap c !! a = Some e -> h1 !! a = Some e) /\
    sorted ≡ₚ (map_to_list m1).*2 /\ ascending h1 sorted /\
    (forall a, timestamp_at (heap c') a = timestamp_at h1 a) /\
    tail c' = sorted !! n /\ head c' = last (drop n sorted) /\
    (exists p nx, seg (heap c') p (drop n sorted) nx) /\
    (forall k a, entries c' !! k = Some a <->
                 m1 !! k = Some a /\ a ∈ drop n sorted) /\
    (forall k a e,
       k ∉ records.*1 -> entries c !! k = Some a -> heap c !! a = Some e ->
       (entries c' !! k = Some a /\
        exists e', heap c' !! a = Some e' /\ payload e' = payload e) \/
       (a ∈ take n sorted /\ entries c' !! k = None)) /\
    (MaxSize c = NoMaxSize \/ len m1 <= MaxSize c -> n = 0%nat).
Proof.
  intros Hsort Hv Hw h1 m1 sorted n Hfuel.
  destruct (ReadFromFile_restored sorted_entries records fuel c Hsort Hv Hw Hfuel)
    as (c' & p & nx & Hrun & Hc' & Hmu & Hms & Hp & Hpay & Hidx & Hnd & Hkc).
  fold h1 m1 sorted n in Hrun, Hc', Hpay, Hidx, Hnd, Hkc.
  destruct (Hsort h1 m1) as [Hperm Hasc]. fold sorted in Hperm, Hasc.
  assert (Hother : forall k, k ∉ records.*1 -> m1 !! k = entries c !! k).
  { intros k Hk. by apply decoded_index_other. }
  assert (Hold : forall a e, heap c !! a = Some e -> h1 !! a = Some e).
  { intros a e Ha. by apply lookup_app_l_Some. }
  exists c'. split; [done|]. split; [done|]. split.
  { intros k Hk. destruct (decoded_index_listed records (length (heap c)) (entries c) k Hk)
      as (i & d & _ & Ha). exists (length (heap c) + i)%nat. split; [done|lia]. }
  split; [done|]. split; [done|]. split; [done|].
  split; [intros a; by apply timestamp_at_payload|]. split.
  { rewrite (chained_tail _ _ _ _ Hc'), lookup_drop. f_equal. lia. }
  split; [apply Hc'|]. split; [exists p, nx; apply Hc'|]. split; [done|]. split.
  - intros k a e Hk Hka Hae.
    assert (Hm1 : m1 !! k = Some a) by (by rewrite Hother).
    assert (Hin : a ∈ sorted).
    { rewrite Hperm. apply elem_of_index_values. eauto. }
    rewrite <- (take_drop n sorted) in Hin, Hnd.
    apply elem_of_app in Hin as [Hin|Hin].
    + right. split; [done|].
      destruct (entries c' !! k) as [a'|] eqn:E; [|done].
      apply Hidx in E as [E1 E2]. assert (a' = a) by congruence. subst a'.
      apply NoDup_app in Hnd as (_ & Hdisj & _). by destruct (Hdisj a Hin).
    + left. split; [by apply Hidx|].
      destruct (payload_lookup _ _ _ _ Hpay (Hold a e Hae)) as (e' & He' & Hee). eauto.
  - intros Hcase. unfold n, evictions. destruct (MaxSize c =? NoMaxSize) eqn:Ez; [done|].
    apply Z.eqb_neq in Ez. destruct Hcase as [Hz|Hle]; [done|].
    assert (Hlen : len m1 = Z.of_nat (length sorted)).
    { unfold len. rewrite Hperm, length_fmap, length_map_to_list. done. }
    lia.
Qed.

Lemma ReadFromFile_merges_witness :
  exists c',
    ReadFromFile sort_by_timestamp (Encoded snapshot_y) 0 cache_x_roomy =
      Ok (0, None) c' /\
    tail c' = Some 0%nat /\ head c' = Some 1%nat /\
    entries c' !! "x" = Some 0%nat /\ entries c' !! "y" = Some 1%nat.
Proof.
  destruct (ReadFromFile_merges sort_by_timestamp snapshot_y 0 cache_x_roomy)
    as (c' & Hrun & _ & _ & _ & _ & _ & _ & Ht & Hh & _ & Hidx & _).
  - exact sort_by_timestamp_sorts.
  - apply validb_sound. reflexivity.
  - repeat constructor.
  - vm_compute. lia.
  - exists c'. split; [exact Hrun|]. split; [exact Ht|]. split; [exact Hh|].
    split; apply Hidx; (split; [reflexivity|]); vm_compute.
    + by left.
    + right. by left.
Defined.

(** A round trip: the full cache is saved and restored into an empty cache
    of the same size; nothing is evicted, the result is valid, "a" is the
    tail and "b" the head again. *)
Example save_then_restore :
  exists file c',
    SaveToFile Saved full_cache = Ok (Some file, None) full_cache /\
    ReadFromFile sort_by_timestamp file 0 small_cache = Ok (0, None) c' /\
    validb c' = true /\
    (tail c' ≫= fun a => Key <$> heap c' !! a) = Some "a" /\
    (head c' ≫= fun a => Key <$> heap c' !! a) = Some "b" /\
    Count c' = Ok 2 c'.
Proof.
  eexists _, _. split; [vm_compute; reflexivity|].
  split; [vm_compute; reflexivity|].
  split; [vm_compute; reflexivity|].
  split; [vm_compute; reflexivity|].
  split; vm_compute; reflexivity.
Qed.

(** * Further properties of the operations *)

(** ** Lemmas on unlinking and deleting *)

Lemma NoDup_remove_middle (l1 l2 : list addr) a :
  NoDup (l1 ++ a :: l2) -> NoDup (l1 ++ l2) /\ a ∉ l1 ++ l2.
Proof.
  intros Hnd. apply NoDup_app in Hnd as (Hn1 & Hdisj & Hn2).
  apply NoDup_cons in Hn2 as [Hal2 Hn2]. split.
  - apply NoDup_app. repeat split; [done| |done].
    intros x Hx1 Hx2. apply (Hdisj x Hx1). by right.
  - intros [Hin|Hin]%elem_of_app; [|done]. apply (Hdisj a Hin). by left.
Qed.

(** Lines 165-166 on a linked cache: the entry leaves the list and its key
    leaves the index. *)
Lemma unlink_and_delete c l1 a l2 key :
  linked c (l1 ++ a :: l2) -> entries c !! key = Some a ->
  exists c',
    (removeExistingEntryReferences (Some a) ;;
     modify (fun c => with_entries (delete key (entries c)) c)) c = Ok tt c' /\
    linked c' (l1 ++ l2) /\
    entries c' = delete key (entries c) /\
    mutex c' = mutex c /\ MaxSize c' = MaxSize c /\ Policy c' = Policy c /\
    payload <$> heap c' = payload <$> heap c.
Proof.
  intros Hl Hk. pose proof Hl as [Hnd Ht Hh Hs Hi Hli].
  destruct (Hi key a Hk) as (_ & ea & Hea & Hkea).
  destruct (removeExistingEntryReferences_seg c l1 a l2 Hnd Ht Hh Hs)
    as (c1 & Hrm & Ht1 & Hh1 & Hs1 & Ha1 & He1 & Hm1 & Hms1 & Hp1 & Hpay1).
  destruct (NoDup_remove_middle l1 l2 a Hnd) as [Hnd' Hnot].
  exists (with_entries (delete key (entries c1)) c1).
  split; [by rewrite (bind_Ok _ _ _ _ _ Hrm)|]. cbn.
  split; [|by rewrite He1].
  split; cbn; [done..| |].
  - intros k x Hkx. rewrite He1 in Hkx. apply lookup_delete_Some in Hkx as [Hne Hkx].
    destruct (Hi k x Hkx) as (Hx & e & Hex & Hke).
    split.
    + apply elem_of_app in Hx as [Hx|[->|Hx]%elem_of_cons];
        [apply elem_of_app; by left | congruence | apply elem_of_app; by right].
    + destruct (payload_lookup _ _ _ _ Hpay1 Hex) as (e' & He' & Hee).
      exists e'. split; [done|]. apply payload_Key in Hee. congruence.
  - intros x e' Hx He'.
    destruct (payload_lookup _ _ _ _ (eq_sym Hpay1) He') as (e & Hex & Hee).
    apply payload_Key in Hee. rewrite <- Hee, He1.
    assert (Hx' : x ∈ l1 ++ a :: l2).
    { apply elem_of_app in Hx as [Hx|Hx]; apply elem_of_app; [by left|right; by right]. }
    pose proof (Hli x e Hx' Hex) as Hkx.
    rewrite lookup_delete_ne; [done|].
    intros Heq. rewrite <- Heq in Hkx. assert (x = a) by congruence. by subst.
Qed.

Lemma Delete_linked c l1 a l2 key :
  mutex c = Free -> linked c (l1 ++ a :: l2) -> entries c !! key = Some a ->
  exists c',
    Delete key c = Ok true c' /\
    linked c' (l1 ++ l2) /\
    entries c' = delete key (entries c) /\
    mutex c' = Free /\ MaxSize c' = MaxSize c /\ Policy c' = Policy c /\
    payload <$> heap c' = payload <$> heap c.
Proof.
  intros Hmu Hl Hk. set (c0 := with_mutex WriteHeld c).
  destruct (unlink_and_delete c0 l1 a l2 key) as
    (c1 & Hrun & Hl1 & He1 & Hm1 & Hms1 & Hp1 & Hpay1);
    [by apply linked_with_mutex | done |].
  exists (with_mutex Free c1). split.
  { unfold Delete. rewrite (bind_Ok _ _ _ _ _ (Lock_Ok c Hmu)). fold c0.
    unfold bind at 1, get_cache. change (entries c0) with (entries c). rewrite Hk.
    unfold bind in Hrun. unfold bind.
    destruct (removeExistingEntryReferences (Some a) c0) as [[] c2| | |] eqn:E; try done.
    cbn in Hrun. injection Hrun as <-. cbn.
    rewrite Unlock_Ok by (cbn; cbn in Hm1; done). done. }
  split; [by apply linked_with_mutex|]. cbn. done.
Qed.

Lemma Delete_absent c key :
  mutex c = Free -> entries c !! key = None -> Delete key c = Ok false c.
Proof.
  intros Hmu Hk. unfold Delete. rewrite (bind_Ok _ _ _ _ _ (Lock_Ok c Hmu)).
  unfold bind at 1, get_cache. cbn. rewrite Hk. unfold bind, Unlock, ret. cbn.
  rewrite with_mutex_twice, <- Hmu. by rewrite with_mutex_id.
Qed.

(** Lines 178-185. *)
Lemma DeleteAll_loop_linked keys : forall c l n,
  linked c l ->
  exists c' l',
    DeleteAll_loop keys n c =
      Ok (n + (len (entries c) - len (entries c'))) c' /\
    linked c' l' /\ l' ⊆ l /\
    (forall k, entries c' !! k = if decide (k ∈ keys) then None else entries c !! k) /\
    mutex c' = mutex c /\ MaxSize c' = MaxSize c /\ Policy c' = Policy c /\
    payload <$> heap c' = payload <$> heap c.
Proof.
  induction keys as [|key keys IH]; intros c l n Hl.
  - exists c, l. simpl. unfold ret. rewrite Z.sub_diag, Z.add_0_r.
    split; [done|]. split; [done|]. split; [done|].
    split; [|done]. intros k. by destruct (decide (k ∈ [])) as [H%elem_of_nil|].
  - simpl. unfold bind at 1, get_cache.
    destruct (entries c !! key) as [a|] eqn:Hk.
    + destruct (chained_index _ _ _ _ Hl key a Hk) as (Ha & _).
      apply list_elem_of_split in Ha as (l1 & l2 & ->).
      destruct (unlink_and_delete c l1 a l2 key Hl Hk)
        as (c1 & Hrun & Hl1 & He1 & Hm1 & Hms1 & Hp1 & Hpay1).
      destruct (IH c1 (l1 ++ l2) (n + 1) Hl1)
        as (c' & l' & Hloop & Hl' & Hsub & Hidx & Hm' & Hms' & Hp' & Hpay').
      exists c', l'. split.
      { unfold bind in Hrun.
        destruct (removeExistingEntryReferences (Some a) c) as [[] c2| | |] eqn:E;
          try done.
        cbn in Hrun. injection Hrun as <-.
        unfold bind at 1. rewrite E. unfold bind at 1. cbn.
        cbn in Hloop. rewrite Hloop. f_equal.
        cbn in He1. rewrite He1, (len_delete_Some _ key a) by done. lia. }
      split; [done|]. split.
      { intros x Hx. apply Hsub in Hx.
        apply elem_of_app in Hx as [Hx|Hx]; apply elem_of_app; [by left|right; by right]. }
      split.
      { intros k. rewrite Hidx, He1.
        destruct (decide (k ∈ keys)) as [Hin|Hnin];
          destruct (decide (k ∈ key :: keys)) as [Hin'|Hnin']; try done.
        - exfalso. apply Hnin'. by right.
        - apply elem_of_cons in Hin' as [->|?]; [|done]. apply lookup_delete_eq.
        - rewrite lookup_delete_ne; [done|]. intros <-. apply Hnin'. by left. }
      split; [congruence|]. split; [congruence|]. split; congruence.
    + destruct (IH c l n Hl)
        as (c' & l' & Hloop & Hl' & Hsub & Hidx & Hm' & Hms' & Hp' & Hpay').
      exists c', l'. split; [done|]. split; [done|]. split; [done|].
      split; [|done]. intros k. rewrite Hidx.
      destruct (decide (k ∈ keys)) as [Hin|Hnin];
        destruct (decide (k ∈ key :: keys)) as [Hin'|Hnin']; try done.
      * exfalso. apply Hnin'. by right.
      * apply elem_of_cons in Hin' as [->|?]; done.
Qed.

(** ** Lemmas on reading *)

Lemma read_back c : mutex c = Free -> with_mutex Free (with_mutex (ReadHeld 1) c) = c.
Proof. intros Hmu. rewrite with_mutex_twice, <- Hmu. apply with_mutex_id. Qed.

Lemma content_payload (h h' : list Entry) :
  payload <$> h' = payload <$> h -> content <$> h' = content <$> h.
Proof.
  intros Hp. apply (f_equal (fmap content)) in Hp.
  rewrite <- !list_fmap_compose in Hp. exact Hp.
Qed.

Lemma content_insert (h : list Entry) a e e' :
  h !! a = Some e -> content e' = content e ->
  content <$> <[a := e']> h = content <$> h.
Proof.
  intros Ha He. rewrite list_fmap_insert, He.
  apply list_insert_id. by rewrite list_lookup_fmap, Ha.
Qed.

Lemma content_lookup (h h' : list Entry) (a : addr) :
  content <$> h' = content <$> h -> content <$> h' !! a = content <$> h !! a.
Proof. intros Hc. by rewrite <- !list_lookup_fmap, Hc. Qed.

Lemma Get_answer_same c c' key now :
  entries c' = entries c -> content <$> heap c' = content <$> heap c ->
  Get_answer c' key now = Get_answer c key now.
Proof.
  intros He Hc. unfold Get_answer. rewrite He.
  destruct (entries c !! key) as [a|]; [|done].
  pose proof (content_lookup _ _ a Hc) as Ha.
  destruct (heap c' !! a) as [e'|], (heap c !! a) as [e|]; simpl in Ha; try done.
  injection Ha as Hk Hv Hx. unfold Expired. by rewrite Hx, Hv.
Qed.

Lemma Get_absent c key now now' :
  mutex c = Free -> entries c !! key = None ->
  Get key now now' c = Ok (INil, false) c.
Proof.
  intros Hmu Hk. unfold Get, Get_lookup, bind, RLock, RUnlock, get_cache.
  rewrite Hmu. cbn. by rewrite Hk, (read_back c Hmu).
Qed.

Lemma Get_found_FIFO c key now now' a e :
  mutex c = Free -> Policy c = FirstInFirstOut ->
  entries c !! key = Some a -> heap c !! a = Some e -> Expired e now = false ->
  Get key now now' c = Ok (Value e, true) c.
Proof.
  intros Hmu Hp Hk He Hex. unfold Get, Get_lookup, bind, RLock, RUnlock, get_cache.
  rewrite Hmu. cbn. rewrite Hk, (read_back c Hmu). unfold load. rewrite He, Hex, Hp.
  done.
Qed.

Lemma last_middle_head (l1 l2 : list addr) a :
  NoDup (l1 ++ a :: l2) -> last (l1 ++ a :: l2) = Some a -> l2 = [].
Proof.
  intros Hnd Hlast. destruct l2 as [|q l2]; [done|]. exfalso.
  rewrite last_app in Hlast. 
  destruct (NoDup_remove_middle _ _ _ Hnd) as [_ Hnot].
  destruct (last_cons_ne a q l2) as (z & Hz & Hza).
  { intros Hin. apply Hnot, elem_of_app. by right. }
  rewrite last_cons_cons, Hz in Hlast. congruence.
Qed.

(** Lines 132-143 on a linked cache: the entry is stamped and ends up at
    the head. *)
Lemma Get_found_LRU_linked c key now now' l1 a l2 e :
  mutex c = Free -> Policy c = LeastRecentlyUsed ->
  linked c (l1 ++ a :: l2) ->
  entries c !! key = Some a -> heap c !! a = Some e -> Expired e now = false ->
  exists c',
    Get key now now' c = Ok (Value e, true) c' /\
    linked c' ((l1 ++ l2) ++ [a]) /\
    entries c' = entries c /\
    mutex c' = Free /\ MaxSize c' = MaxSize c /\ Policy c' = Policy c /\
    payload <$> heap c' =
      payload <$> <[a := with_RelevantTimestamp now' e]> (heap c).
Proof.
  intros Hmu Hp Hl Hk He Hex.
  pose proof (linked_store c _ a e (with_RelevantTimestamp now' e) Hl He
                eq_refl eq_refl eq_refl) as Hl1.
  set (c1 := with_heap (<[a:=with_RelevantTimestamp now' e]> (heap c)) c) in *.
  assert (Hlt : (a < length (heap c))%nat) by (eapply lookup_lt_Some; eauto).
  assert (Hea1 : heap c1 !! a = Some (with_RelevantTimestamp now' e))
    by (cbn; by rewrite list_lookup_insert_eq).
  assert (Hlook : Get_lookup key now now' c =
    (if ptr_eqb (head c1) (Some a)
     then ret (None, (Value e, true))
     else ret (Some a, (Value e, true))) c1).
  { unfold Get_lookup, bind at 1 2 3, RLock, RUnlock, get_cache. rewrite Hmu. cbn.
    rewrite Hk, (read_back c Hmu). unfold bind at 1, load. rewrite He, Hex.
    unfold bind at 1, get_cache. rewrite Hp. cbn.
    unfold Accessed. rewrite (bind_Ok _ _ _ _ _ (store_Ok c a e _ He)). fold c1.
    unfold bind at 1, get_cache. unfold bind at 1, load. rewrite Hea1. done. }
  unfold Get. unfold bind at 1. rewrite Hlook. unfold ptr_eqb.
  destruct (decide (head c1 = Some a)) as [Hh|Hh].
  - rewrite bool_decide_eq_true_2 by done. cbn.
    rewrite (chained_head _ _ _ _ Hl1) in Hh.
    assert (l2 = []) as -> by (eapply last_middle_head; [apply Hl|done]).
    exists c1. rewrite app_nil_r in *. done.
  - rewrite bool_decide_eq_false_2 by done. cbn.
    pose proof Hl1 as [Hnd Ht Hhd Hs Hi Hli].
    destruct (moveExistingEntryToHead_seg (with_mutex WriteHeld c1) l1 a l2 Hnd Ht Hhd Hs)
      as (c2 & Hmv & Ht2 & Hh2 & Hs2 & Hfr).
    pose proof Hfr as (He2 & Hm2 & Hms2 & Hp2 & Hpay2).
    cbn in He2, Hm2, Hms2, Hp2, Hpay2.
    destruct (payload_lookup _ _ _ _ Hpay2 Hea1) as (e2 & Hea2 & Hee).
    exists (with_mutex Free c2). split.
    { rewrite (bind_Ok _ _ _ _ _ (Lock_Ok c1 Hmu)).
      rewrite (bind_Ok _ _ _ _ _ Hmv).
      rewrite (bind_Ok _ _ _ _ _ (Unlock_Ok c2 Hm2)).
      unfold bind, load. cbn. rewrite Hea2.
      unfold ret. f_equal. unfold payload in Hee. cbn in Hee. congruence. }
    split.
    { apply linked_with_mutex.
      eapply (linked_frame (with_mutex WriteHeld c1) c2 (l1 ++ a :: l2)).
      - apply linked_with_mutex. exact Hl1.
      - exact Hfr.
      - rewrite <- app_assoc. apply Permutation_app_head.
        symmetry. apply Permutation_cons_append.
      - done.
      - by rewrite last_snoc.
      - done. }
    cbn. done.
Qed.

Lemma Get_expired c key now now' a e :
  mutex c = Free -> entries c !! key = Some a -> heap c !! a = Some e ->
  Expired e now = true -> Get key now now' c = Ok (INil, false) c.
Proof.
  intros Hmu Hk He Hex. unfold Get, Get_lookup, bind, RLock, RUnlock, get_cache.
  rewrite Hmu. cbn. rewrite Hk, (read_back c Hmu). unfold load. rewrite He, Hex.
  done.
Qed.

(** Lines 125-144 on a valid cache. *)
Lemma Get_valid c key now now' :
  valid c ->
  exists c',
    Get key now now' c = Ok (Get_answer c key now) c' /\
    valid c' /\ entries c' = entries c /\
    MaxSize c' = MaxSize c /\ Policy c' = Policy c /\
    content <$> heap c' = content <$> heap c.
Proof.
  intros (Hmu & Hms & l & Hl). unfold Get_answer.
  destruct (entries c !! key) as [a|] eqn:Hk.
  - destruct (chained_index _ _ _ _ Hl key a Hk) as (Ha & e & He & Hke).
    rewrite He. destruct (Expired e now) eqn:Hex.
    + exists c. rewrite (Get_expired c key now now' a e) by done.
      split; [done|]. split; [|done]. split; [done|]. split; [done|]. by exists l.
    + destruct (Policy c) eqn:Hp.
      * exists c. rewrite (Get_found_FIFO c key now now' a e) by done.
        split; [done|]. split; [|done]. split; [done|]. split; [done|]. by exists l.
      * apply list_elem_of_split in Ha as (l1 & l2 & ->).
        destruct (Get_found_LRU_linked c key now now' l1 a l2 e)
          as (c' & Hrun & Hl' & He' & Hm' & Hms' & Hp' & Hpay'); try done.
        exists c'. split; [done|]. split.
        { split; [done|]. split; [lia|]. by eexists. }
        split; [done|]. split; [done|]. split; [congruence|].
        rewrite (content_payload _ _ Hpay'). by apply (content_insert _ a e).
  - exists c. rewrite Get_absent by done.
    split; [done|]. split; [|done]. split; [done|]. split; [done|]. by exists l.
Qed.

(** Lines 151-157: every key is answered by its last [Get], at the clock
    reading of that [Get]. *)
Lemma GetAll_loop_valid keys clock : forall i c found,
  valid c ->
  exists c' m,
    GetAll_loop keys i clock found c = Ok m c' /\
    valid c' /\ entries c' = entries c /\
    MaxSize c' = MaxSize c /\ Policy c' = Policy c /\
    content <$> heap c' = content <$> heap c /\
    (forall k, k ∉ keys -> m !! k = found !! k) /\
    (forall j k, keys !! j = Some k ->
       (forall j', (j < j')%nat -> keys !! j' ≠ Some k) ->
       m !! k = Some (Get_answer c k (clock (i + j)%nat).1).1).
Proof.
  induction keys as [|key keys IH]; intros i c found Hv.
  - exists c, found. simpl. split; [done|]. split; [done|]. split; [done|].
    split; [done|]. split; [done|]. split; [done|]. split; [done|].
    intros j k Hj. by rewrite lookup_nil in Hj.
  - destruct (Get_valid c key (clock i).1 (clock i).2 Hv)
      as (c1 & Hrun & Hv1 & He1 & Hms1 & Hp1 & Hc1).
    destruct (IH (S i) c1 (<[key := (Get_answer c key (clock i).1).1]> found) Hv1)
      as (c' & m & Hloop & Hv' & He' & Hms' & Hp' & Hc' & Hout & Hin).
    exists c', m. split.
    { simpl. by rewrite (bind_Ok _ _ _ _ _ Hrun). }
    split; [done|]. split; [congruence|]. split; [congruence|].
    split; [congruence|]. split; [congruence|]. split.
    + intros k Hk. rewrite Hout by (intros ?; apply Hk; by right).
      rewrite lookup_insert_ne; [done|]. intros <-. apply Hk. by left.
    + intros [|j] k Hj Hlast.
      * simpl in Hj. injection Hj as <-. rewrite Nat.add_0_r.
        rewrite Hout, lookup_insert_eq; [done|].
        intros (j' & Hj')%list_elem_of_lookup. by apply (Hlast (S j')); [lia|].
      * simpl in Hj. rewrite (Hin j k Hj).
        { rewrite (Get_answer_same c1 c) by done. by rewrite Nat.add_succ_r. }
        intros j' Hlt. apply (Hlast (S j')). lia.
Qed.

(** ** Lemmas on expirations *)

Lemma TTL_found c key now a e :
  mutex c = Free -> entries c !! key = Some a -> heap c !! a = Some e ->
  TTL key now c =
    Ok (if Expiration e =? NoExpiration then (0, Some ErrKeyHasNoExpiration)
        else if time_Until (Expiration e) now <? 0
             then (0, Some ErrKeyDoesNotExist)
             else (time_Until (Expiration e) now, None)) c.
Proof.
  intros Hmu Hk He. unfold TTL, bind, RLock, RUnlock, get_cache.
  rewrite Hmu. cbn. rewrite Hk, (read_back c Hmu). unfold load. rewrite He.
  destruct (Expiration e =? NoExpiration); [done|].
  by destruct (time_Until (Expiration e) now <? 0).
Qed.

Lemma Expire_found c key ttl now now2 a e :
  mutex c = Free -> entries c !! key = Some a -> heap c !! a = Some e ->
  Expired e now = false ->
  Expire key ttl now now2 c =
    Ok true (with_heap (<[a := with_Expiration (expiration_for ttl now2) e]> (heap c)) c).
Proof.
  intros Hmu Hk He Hex. unfold Expire, bind, RLock, RUnlock, get_cache.
  rewrite Hmu. cbn. rewrite Hk, (read_back c Hmu). unfold load, store.
  rewrite He, Hex, He. done.
Qed.

Lemma Expire_expired c key ttl now now2 a e :
  mutex c = Free -> entries c !! key = Some a -> heap c !! a = Some e ->
  Expired e now = true -> Expire key ttl now now2 c = Ok false c.
Proof.
  intros Hmu Hk He Hex. unfold Expire, bind, RLock, RUnlock, get_cache.
  rewrite Hmu. cbn. rewrite Hk, (read_back c Hmu). unfold load.
  rewrite He, Hex. done.
Qed.

Lemma Expire_absent c key ttl now now2 :
  mutex c = Free -> entries c !! key = None -> Expire key ttl now now2 c = Ok false c.
Proof.
  intros Hmu Hk. unfold Expire, bind, RLock, RUnlock, get_cache.
  rewrite Hmu. cbn. by rewrite Hk, (read_back c Hmu).
Qed.

Lemma Count_eval c : mutex c = Free -> Count c = Ok (len (entries c)) c.
Proof.
  intros Hmu. unfold Count, bind, RLock, RUnlock, get_cache. rewrite Hmu. cbn.
  by rewrite (read_back c Hmu).
Qed.

(** ** What writing leaves of the other entries *)

Lemma evict_payload c c' :
  evict c = Ok tt c' -> payload <$> heap c' = payload <$> heap c.
Proof.
  unfold evict, bind, get_cache, load, store, modify, skip, ret.
  destruct (is_nil (tail c) || (len (entries c) =? 0)); [by intros [= <-]|].
  destruct (negb (is_nil (tail c))); [|by intros [= <-]].
  destruct (tail c) as [t|]; [|done].
  destruct (heap c !! t) as [et|] eqn:Et; [|done]. cbn. rewrite Et. cbn.
  destruct (next et) as [t2|]; [|done].
  destruct (heap c !! t2) as [e2|] eqn:E2; [|done].
  intros [= <-]. cbn. by apply (payload_insert _ t2 e2).
Qed.

Lemma SetWithTTL_finish_payload a ttl now c c' ea :
  SetWithTTL_finish (Some a) ttl now c = Ok tt c' -> heap c !! a = Some ea ->
  payload <$> heap c' =
    payload <$> <[a := with_Expiration (expiration_for ttl now) ea]> (heap c).
Proof.
  intros Hrun Hea. unfold SetWithTTL_finish in Hrun.
  rewrite (bind_Ok _ _ _ _ _ (store_Ok c a ea _ Hea)) in Hrun.
  unfold bind at 1, get_cache in Hrun. cbn in Hrun.
  destruct (MaxSize c =? NoMaxSize).
  - unfold Unlock in Hrun. cbn in Hrun. destruct (mutex c); try done.
    by injection Hrun as <-.
  - unfold bind at 1 in Hrun.
    destruct (len (entries c) >? MaxSize c).
    + match type of Hrun with context [evict ?c1] =>
        destruct (evict c1) as [[] c2| | |] eqn:Hev; try done end.
      apply evict_payload in Hev. cbn in Hev.
      unfold Unlock in Hrun. destruct (mutex c2); try done.
      injection Hrun as <-. done.
    + unfold skip, ret, Unlock in Hrun. cbn in Hrun. destruct (mutex c); try done.
      by injection Hrun as <-.
Qed.

Lemma SetWithTTL_create_payload key value now c a c' :
  SetWithTTL_create key value now c = Ok a c' ->
  payload <$> heap c' = (payload <$> heap c) ++ [mkEntry key value now 0 None None].
Proof.
  unfold SetWithTTL_create, bind, get_cache, alloc, modify, store, ret, is_nil. cbn.
  destruct (head c) as [z|] eqn:Hz; cbn.
  - destruct ((heap c ++ [mkEntry key value now 0 (Some z) None]) !! z) as [ez|] eqn:Ez;
      [|done].
    intros [= <- <-]. cbn. rewrite (payload_insert _ z ez) by done.
    by rewrite fmap_app.
  - intros [= <- <-]. cbn. by rewrite fmap_app.
Qed.

Lemma payload_snoc_lookup (h h' : list Entry) e :
  payload <$> h' = (payload <$> h) ++ [e] ->
  length h' = S (length h) /\
  (exists e', h' !! length h = Some e' /\ payload e' = e) /\
  (forall x ex, h !! x = Some ex ->
                exists ex', h' !! x = Some ex' /\ payload ex' = payload ex).
Proof.
  intros Hp.
  assert (Hlen : length h' = S (length h)).
  { apply (f_equal length) in Hp. rewrite length_app, !length_fmap in Hp.
    simpl in Hp. lia. }
  split; [done|]. split.
  - apply (f_equal (fun l => l !! length h)) in Hp.
    rewrite list_lookup_fmap in Hp.
    rewrite lookup_app_r in Hp by (rewrite length_fmap; lia).
    rewrite length_fmap, Nat.sub_diag in Hp. simpl in Hp.
    destruct (h' !! length h) as [e'|]; [|done]. exists e'. split; [done|].
    simpl in Hp. congruence.
  - intros x ex Hx.
    apply (f_equal (fun l => l !! x)) in Hp.
    rewrite list_lookup_fmap in Hp.
    rewrite lookup_app_l in Hp by (rewrite length_fmap; by eapply lookup_lt_Some).
    rewrite list_lookup_fmap, Hx in Hp.
    destruct (h' !! x) as [e'|]; [|done]. exists e'. split; [done|].
    simpl in Hp. congruence.
Qed.

(** ** Writing, at the level of the list *)

(** Lines 76-120 for a key that is not in the index. *)
Lemma SetWithTTL_absent_list key value ttl now1 now2 c l :
  mutex c = Free -> 0 <= MaxSize c -> linked c l ->
  entries c !! key = None -> ttl = NoExpiration \/ 0 <= ttl ->
  exists c' l',
    SetWithTTL key value ttl now1 now2 c = Ok tt c' /\
    mutex c' = Free /\ MaxSize c' = MaxSize c /\ Policy c' = Policy c /\
    linked c' (l' ++ [length (heap c)]) /\
    payload <$> heap c' =
      (payload <$> heap c) ++
      [mkEntry key value now1 (expiration_for ttl now2) None None] /\
    ((entries c' = <[key := length (heap c)]> (entries c) /\ l' = l /\
      (MaxSize c = NoMaxSize \/ len (entries c) + 1 <= MaxSize c)) \/
     (MaxSize c ≠ NoMaxSize /\ len (entries c) + 1 > MaxSize c /\
      exists t et, l = t :: l' /\ heap c !! t = Some et /\
                   entries c !! Key et = Some t /\ Key et ≠ key /\
                   entries c' =
                     delete (Key et) (<[key := length (heap c)]> (entries c)))).
Proof.
  intros Hmu Hms Hl Hk Httl.
  set (c0 := with_mutex WriteHeld c).
  assert (Hl0 : linked c0 l) by (by apply linked_with_mutex).
  destruct (SetWithTTL_create_linked key value now1 c0 l Hl0 Hk)
    as (c1 & en & Hcr & Hl1 & He1 & Hm1 & Hms1 & Hp1 & Hen & Hk1 & Hv1 & Ht1).
  pose proof (SetWithTTL_create_payload _ _ _ _ _ _ Hcr) as Hpay1.
  change (heap c0) with (heap c) in *.
  set (a := length (heap c)) in *.
  destruct (SetWithTTL_finish_linked ttl now2 c1 l a)
    as (c3 & l3 & ea2 & ea3 & Hfin & Hm3 & Hms3 & Hp3 & Hl3 & Hea2 & Hea3 & Hpay3 & Hcase);
    [by rewrite Hm1 | by rewrite Hms1 | done |].
  pose proof (SetWithTTL_finish_payload _ _ _ _ _ _ Hfin Hea2) as Hpay.
  assert (ea2 = en) by congruence. subst ea2.
  cbn in He1, Hms1, Hp1.
  destruct (payload_snoc_lookup _ _ _ Hpay1) as (Hlen1 & (en' & Hen' & Hpen) & _).
  fold a in Hen'. assert (en' = en) by congruence. subst en'.
  exists c3, l3. split.
  { unfold SetWithTTL. rewrite (bind_Ok _ _ _ _ _ (Lock_Ok c Hmu)). fold c0.
    unfold bind at 1, get_cache. change (entries c0) with (entries c). rewrite Hk.
    assert (negb (ttl =? NoExpiration) && (ttl <? 0) = false) as ->.
    { destruct Httl as [->|Hge]; [done|].
      assert ((ttl <? 0) = false) as -> by (apply Z.ltb_ge; lia).
      apply andb_false_r. }
    rewrite (bind_Ok _ _ _ _ _ Hcr). done. }
  split; [done|]. split; [congruence|]. split; [congruence|]. split; [done|].
  split.
  { rewrite Hpay, list_fmap_insert, Hpay1.
    assert (Hla : a = length (payload <$> heap c)) by (by rewrite length_fmap).
    rewrite Hla at 1. rewrite insert_app_r_alt by lia. rewrite Nat.sub_diag. simpl.
    f_equal. f_equal. unfold payload in *. cbn in *. congruence. }
  assert (Hlen : len (entries c1) = len (entries c) + 1).
  { rewrite He1. by apply len_insert_None. }
  rewrite Hms1, Hlen, He1 in Hcase.
  destruct Hcase as [(He3 & -> & Hle)|(Hnz & Hgt & t & et & Hlt' & Het & Hkt & He3)].
  - left. done.
  - right. split; [done|]. split; [done|].
    assert (Hta : t ≠ a).
    { intros ->. apply (linked_fresh _ _ Hl). rewrite Hlt'. by left. }
    assert (Hne : Key et ≠ key).
    { intros Heq. rewrite Heq, lookup_insert_eq in Hkt. congruence. }
    rewrite lookup_insert_ne in Hkt by done.
    assert (is_Some (heap c !! t)) as [et0 Het0].
    { eapply seg_valid; [apply Hl|]. rewrite Hlt'. by left. }
    destruct (payload_snoc_lookup _ _ _ Hpay1) as (_ & _ & Hold).
    destruct (Hold t et0 Het0) as (et' & Het' & Hpe).
    assert (et' = et) by congruence. subst et'. apply payload_Key in Hpe.
    exists t, et0. rewrite <- Hpe. done.
Qed.

(** Lines 76-120 for a key that is in the index. *)
Lemma SetWithTTL_present_list key value ttl now1 now2 c l1 a l2 ea :
  mutex c = Free -> 0 <= MaxSize c -> linked c (l1 ++ a :: l2) ->
  entries c !! key = Some a -> heap c !! a = Some ea ->
  exists c' l',
    SetWithTTL key value ttl now1 now2 c = Ok tt c' /\
    mutex c' = Free /\ MaxSize c' = MaxSize c /\ Policy c' = Policy c /\
    linked c' (l' ++ [a]) /\
    payload <$> heap c' =
      payload <$> <[a := with_Expiration (expiration_for ttl now2)
                            (with_Value value ea)]> (heap c) /\
    ((entries c' = entries c /\ l' = l1 ++ l2 /\
      (MaxSize c = NoMaxSize \/ len (entries c) <= MaxSize c)) \/
     (MaxSize c ≠ NoMaxSize /\ len (entries c) > MaxSize c /\
      exists t et, l1 ++ l2 = t :: l' /\ heap c !! t = Some et /\
                   entries c !! Key et = Some t /\ Key et ≠ key /\
                   entries c' = delete (Key et) (entries c))).
Proof.
  intros Hmu Hms Hl Hk Hea.
  set (c0 := with_mutex WriteHeld c).
  assert (Hl0 : linked c0 (l1 ++ a :: l2)) by (by apply linked_with_mutex).
  pose proof (linked_store c0 _ a ea (with_Value value ea) Hl0 Hea
                eq_refl eq_refl eq_refl) as Hl1.
  set (c1 := with_heap (<[a:=with_Value value ea]> (heap c0)) c0) in *.
  assert (Hlt : (a < length (heap c))%nat) by (eapply lookup_lt_Some; eauto).
  assert (Hea1 : heap c1 !! a = Some (with_Value value ea))
    by (cbn; by rewrite list_lookup_insert_eq).
  pose proof Hl1 as [Hnd Ht Hhd Hs Hi Hli].
  destruct (moveExistingEntryToHead_seg c1 l1 a l2 Hnd Ht Hhd Hs)
    as (c2 & Hmv & Ht2 & Hh2 & Hs2 & Hfr).
  pose proof Hfr as (He2 & Hm2 & Hms2 & Hp2 & Hpay2).
  assert (Hl2 : linked c2 ((l1 ++ l2) ++ [a])).
  { eapply (linked_frame c1 c2 (l1 ++ a :: l2)); try done.
    - rewrite <- app_assoc. apply Permutation_app_head.
      symmetry. apply Permutation_cons_append.
    - by rewrite last_snoc. }
  destruct (SetWithTTL_finish_linked ttl now2 c2 (l1 ++ l2) a)
    as (c3 & l3 & ea2 & ea3 & Hfin & Hm3 & Hms3 & Hp3 & Hl3 & Hea2 & Hea3 & Hpay3 & Hcase);
    [by rewrite Hm2 | by rewrite Hms2 | done |].
  pose proof (SetWithTTL_finish_payload _ _ _ _ _ _ Hfin Hea2) as Hpay.
  destruct (payload_lookup _ _ _ _ Hpay2 Hea1) as (ea2' & Hea2' & Hpay21).
  assert (ea2' = ea2) by congruence. subst ea2'.
  cbn in He2, Hm2, Hms2, Hp2, Hpay2.
  exists c3, l3. split.
  { unfold SetWithTTL. rewrite (bind_Ok _ _ _ _ _ (Lock_Ok c Hmu)). fold c0.
    unfold bind at 1, get_cache. change (entries c0) with (entries c). rewrite Hk.
    rewrite (bind_Ok _ _ _ _ _ (store_Ok c0 a ea _ Hea)). fold c1.
    rewrite (bind_Ok _ _ _ _ _ Hmv). done. }
  split; [done|]. split; [congruence|]. split; [congruence|]. split; [done|].
  split.
  { rewrite Hpay, !list_fmap_insert, Hpay2, list_fmap_insert, list_insert_insert_eq.
    f_equal. unfold payload in *. cbn in *. congruence. }
  rewrite He2, Hms2 in Hcase. cbn in Hcase.
  destruct Hcase as [(He3 & -> & Hle)|(Hnz & Hgt & t & et & Hlt' & Het & Hkt & He3)].
  - left. done.
  - right. split; [done|]. split; [done|].
    assert (Hta : t ≠ a).
    { intros ->. destruct Hl2 as [Hnd2 _ _ _ _ _]. rewrite Hlt' in Hnd2. simpl in Hnd2.
      apply NoDup_cons in Hnd2 as [Hnd2 _]. apply Hnd2, elem_of_app. right. by left. }
    assert (Hne : Key et ≠ key) by (intros Heq; rewrite Heq in Hkt; congruence).
    assert (is_Some (heap c !! t)) as [et0 Het0].
    { eapply seg_valid; [apply Hl|]. 
      assert (t ∈ l1 ++ l2) by (rewrite Hlt'; by left).
      apply elem_of_app in H as [H|H]; apply elem_of_app; [by left|right; by right]. }
    assert (Het1 : heap c1 !! t = Some et0).
    { cbn. by rewrite list_lookup_insert_ne. }
    destruct (payload_lookup _ _ _ _ Hpay2 Het1) as (et' & Het' & Hpe).
    assert (et' = et) by congruence. subst et'. apply payload_Key in Hpe.
    exists t, et0. rewrite <- Hpe. done.
Qed.

(** ** Restoring into an empty cache *)

Lemma previous_insert_next (h : list Entry) a e n x :
  h !! a = Some e ->
  previous <$> <[a := with_next n e]> h !! x = previous <$> h !! x.
Proof.
  intros Ha. destruct (decide (x = a)) as [->|Hne].
  - rewrite list_lookup_insert_eq by (by eapply lookup_lt_Some). by rewrite Ha.
  - by rewrite list_lookup_insert_ne.
Qed.

Lemma next_insert_previous (h : list Entry) a e p x :
  h !! a = Some e ->
  next <$> <[a := with_previous p e]> h !! x = next <$> h !! x.
Proof.
  intros Ha. destruct (decide (x = a)) as [->|Hne].
  - rewrite list_lookup_insert_eq by (by eapply lookup_lt_Some). by rewrite Ha.
  - by rewrite list_lookup_insert_ne.
Qed.

(** Lines 308-310 write [previous] only into the entries they reach. *)
Lemma relink_previous sorted : forall pv c c' x,
  relink (Some pv) sorted c = Ok tt c' -> x ∉ sorted ->
  previous <$> heap c' !! x = previous <$> heap c !! x.
Proof.
  induction sorted as [|y rest IH]; intros pv c c' x Hrun Hx.
  - by injection Hrun as <-.
  - simpl in Hrun. unfold bind at 1 2 3, store, modify in Hrun.
    destruct (heap c !! pv) as [epv|] eqn:Epv; [|done]. cbn in Hrun.
    destruct (<[pv:=with_next (Some y) epv]> (heap c) !! y) as [ey|] eqn:Ey; [|done].
    cbn in Hrun. apply IH with (x := x) in Hrun.
    + rewrite Hrun. cbn. rewrite list_lookup_insert_ne.
      * by apply previous_insert_next.
      * intros ->. apply Hx. by left.
    + intros Hin. apply Hx. by right.
Qed.

(** Lines 308-309 write [next] only into the entries that get a successor. *)
Lemma relink_next sorted : forall prev c c' l x,
  relink prev sorted c = Ok tt c' -> sorted = l ++ [x] -> NoDup sorted ->
  prev ≠ Some x ->
  next <$> heap c' !! x = next <$> heap c !! x.
Proof.
  induction sorted as [|y rest IH]; intros prev c c' l x Hrun Hl Hnd Hp.
  - by destruct l.
  - apply NoDup_cons in Hnd as [Hy Hnd].
    assert (Hstep : forall c1,
      (if is_nil prev
       then modify (with_tail (Some y)) ;; modify (with_head (Some y))
       else store prev (with_next (Some y)) ;;
            store (Some y) (with_previous prev) ;;
            modify (with_head (Some y))) c = Ok tt c1 ->
      next <$> heap c1 !! x = next <$> heap c !! x).
    { intros c1. destruct prev as [pv|]; cbn.
      - unfold bind, store, modify.
        destruct (heap c !! pv) as [epv|] eqn:Epv; [|done]. cbn.
        destruct (<[pv:=with_next (Some y) epv]> (heap c) !! y) as [ey|] eqn:Ey; [|done].
        intros [= <-]. cbn. rewrite (next_insert_previous _ y ey) by done.
        rewrite list_lookup_insert_ne; [done|]. congruence.
      - by intros [= <-]. }
    simpl in Hrun. unfold bind at 1 in Hrun.
    match type of Hrun with context [match ?m c with _ => _ end] =>
      destruct (m c) as [[] c1| | |] eqn:E1; try done end.
    rewrite <- (Hstep c1 eq_refl).
    destruct l as [|y' l'].
    + simpl in Hl. injection Hl as -> ->. by injection Hrun as <-.
    + simpl in Hl. injection Hl as <- ->.
      eapply (IH (Some y) c1 c' l' x); try done.
      intros [= ->]. apply Hy, elem_of_app. right. by left.
Qed.

Lemma seg_first h p x l n :
  seg h p (x :: l) n -> exists e, h !! x = Some e /\ previous e = p.
Proof. intros (e & He & Hp & _). eauto. Qed.

Lemma seg_last h p l z n :
  seg h p (l ++ [z]) n -> exists e, h !! z = Some e /\ next e = n.
Proof.
  intros Hs. apply seg_app in Hs as [_ Hs]. destruct Hs as (e & He & _ & Hn & _).
  eauto.
Qed.

(** Lines 322-326 on a linked cache. *)
Lemma evict_loop_linked l : forall c fuel acc,
  linked c l -> 0 < MaxSize c ->
  (length l - Z.to_nat (MaxSize c) <= fuel)%nat ->
  exists c',
    evict_loop fuel acc c =
      Ok (acc + Z.of_nat (length l - Z.to_nat (MaxSize c))) c' /\
    linked c' (drop (length l - Z.to_nat (MaxSize c)) l) /\
    mutex c' = mutex c /\ MaxSize c' = MaxSize c /\ Policy c' = Policy c /\
    payload <$> heap c' = payload <$> heap c /\
    (forall k a, entries c' !! k = Some a <->
       entries c !! k = Some a /\ a ∈ drop (length l - Z.to_nat (MaxSize c)) l).
Proof.
  induction l as [|t l IH]; intros c fuel acc Hc Hpos Hfuel.
  - pose proof (linked_size _ _ Hc) as Hsz. simpl in *.
    exists c. rewrite evict_loop_eq. unfold len. rewrite Hsz.
    assert ((Z.of_nat 0 >? MaxSize c) = false) as ->.
    { destruct (Z.gtb_spec (Z.of_nat 0) (MaxSize c)); [lia|done]. }
    rewrite Z.add_0_r. split; [done|]. split; [done|].
    split; [done|]. split; [done|]. split; [done|]. split; [done|].
    intros k a. split; [|tauto]. intros Hk.
    by apply (chained_index _ _ _ _ Hc) in Hk as [Hin%elem_of_nil _].
  - pose proof (linked_size _ _ Hc) as Hsz. simpl in Hsz.
    rewrite evict_loop_eq. unfold len. rewrite Hsz.
    destruct (Z.gtb_spec (Z.of_nat (S (length l))) (MaxSize c)) as [Hgt|Hle].
    + assert (He : (length (t :: l) - Z.to_nat (MaxSize c) =
                    S (length l - Z.to_nat (MaxSize c)))%nat) by (simpl; lia).
      rewrite He in *.
      destruct fuel as [|fuel]; [lia|].
      destruct l as [|t2 l']; [simpl in *; lia|].
      destruct (evict_linked _ _ _ _ Hc)
        as (c1 & et & Hev & Hc1 & Het & Hkt & He1 & Hh1 & Hm1 & Hms1 & Hp1 & Hpay1).
      destruct (IH c1 fuel (acc + 1) Hc1) as
        (c' & Hrun & Hc' & Hm' & Hms' & Hp' & Hpay' & Hidx');
        [rewrite Hms1; lia | rewrite Hms1; lia |].
      rewrite Hms1 in *.
      exists c'. split.
      { rewrite (bind_Ok _ _ _ _ _ Hev). rewrite Hrun. f_equal. lia. }
      split; [done|]. split; [congruence|]. split; [done|]. split; [congruence|].
      split; [congruence|].
      intros k a. rewrite Hidx', He1. simpl drop.
      rewrite lookup_delete_Some. split; [tauto|].
      intros [Hk Ha]. split; [|done]. split; [|done].
      intros <-. assert (t = a) by congruence. subst a.
      apply subseteq_drop in Ha.
      destruct Hc as [Hnd _ _ _ _ _]. apply NoDup_cons in Hnd as [Hnd _]. done.
    + assert (He : (length (t :: l) - Z.to_nat (MaxSize c) = 0)%nat) by (simpl; lia).
      rewrite He. simpl drop. exists c.
      rewrite Z.add_0_r. split; [done|]. split; [done|].
      split; [done|]. split; [done|]. split; [done|]. split; [done|].
      intros k a. split; [|tauto]. intros Hk. split; [done|].
      by apply (chained_index _ _ _ _ Hc) in Hk as [Hin _].
Qed.

Lemma decoded_heap_fresh (h : list Entry) records a e :
  decoded_heap h records !! a = Some e -> (length h <= a)%nat ->
  previous e = None /\ next e = None.
Proof.
  unfold decoded_heap. intros Hl Hge. rewrite lookup_app_r in Hl by done.
  rewrite list_lookup_fmap in Hl.
  destruct (records !! (a - length h)%nat) as [kd|]; [|done].
  by injection Hl as <-.
Qed.

Lemma decoded_index_covered records base (m : gmap string addr) k a :
  (forall k, is_Some (m !! k) -> k ∈ records.*1) ->
  decoded_index base records m !! k = Some a -> (base <= a)%nat.
Proof.
  intros Hcov Hk. destruct (decide (k ∈ records.*1)) as [Hin|Hout].
  - destruct (decoded_index_listed records base m k Hin) as (i & d & _ & Hk').
    assert (a = (base + i)%nat) by congruence. lia.
  - rewrite decoded_index_other in Hk by done. destruct Hout. apply Hcov. eauto.
Qed.

(** Lines 279-329 on a cache all of whose keys are in the snapshot: every
    entry that is indexed after decoding is one that [Decode] has just
    allocated, and the list that is left ends in [nil] on both sides. *)
Lemma ReadFromFile_covered sorted_entries records fuel c :
  sorts_by_timestamp sorted_entries -> valid c ->
  (forall k, is_Some (entries c !! k) -> k ∈ records.*1) ->
  well_keyed records ->
  let h1 := decoded_heap (heap c) records in
  let m1 := decoded_index (length (heap c)) records (entries c) in
  let sorted := sorted_entries h1 m1 in
  let n := evictions (MaxSize c) (length sorted) in
  (n <= fuel)%nat ->
  exists c',
    ReadFromFile sorted_entries (Encoded records) fuel c =
      Ok (Z.of_nat n, None) c' /\
    linked c' (drop n sorted) /\
    mutex c' = Free /\ MaxSize c' = MaxSize c /\ Policy c' = Policy c /\
    payload <$> heap c' = payload <$> h1 /\
    (forall k a, entries c' !! k = Some a <->
                 m1 !! k = Some a /\ a ∈ drop n sorted) /\
    sorted ≡ₚ (map_to_list m1).*2 /\ ascending h1 sorted.
Proof.
  intros Hsort (Hmu & Hms & l & Hl) Hcov Hw h1 m1 sorted n Hfuel.
  set (c0 := with_mutex WriteHeld c).
  set (c1 := with_entries m1 (with_heap h1 c0)).
  assert (Hkc1 : key_consistent c1).
  { apply (decoded_key_consistent c0 records); [|done].
    eapply linked_key_consistent. apply chained_with_mutex. exact Hl. }
  destruct (Hsort h1 m1) as [Hperm Hasc]. fold sorted in Hperm, Hasc.
  assert (Hnd : NoDup sorted).
  { rewrite Hperm. apply (key_consistent_NoDup c1 Hkc1). }
  assert (Hin : forall a, a ∈ sorted <-> exists k, m1 !! k = Some a).
  { intros a. rewrite Hperm. apply elem_of_index_values. }
  assert (Hval : forall a, a ∈ sorted -> is_Some (heap c1 !! a)).
  { intros a (k & Hk)%Hin. destruct (Hkc1 k a Hk) as (e & He & _). eauto. }
  assert (Hfresh : forall a e, a ∈ sorted -> h1 !! a = Some e ->
                               previous e = None /\ next e = None).
  { intros a e (k & Hk)%Hin He. apply (decoded_heap_fresh _ _ _ _ He).
    by apply decoded_index_covered in Hk. }
  destruct (relink_all sorted c1 Hnd Hval)
    as (c2 & p & nx & Hrel & Hs2 & Hends & Hnil & Hfr2).
  pose proof Hfr2 as (He2 & Hm2 & Hms2 & Hp2 & Hpay2).
  cbn in He2, Hm2, Hms2, Hp2, Hpay2.
  assert (Hempty : sorted = [] -> tail c = None /\ head c = None).
  { intros Es. rewrite Es in Hperm.
    assert (entries c = ∅) as Hem.
    { apply (decoded_index_empty (length (heap c)) records).
      fold m1. apply map_to_list_empty_iff.
      apply Permutation_nil_l in Hperm. symmetry in Hperm.
      by apply fmap_nil_inv in Hperm. }
    pose proof (linked_size _ _ Hl) as Hsz. rewrite Hem, map_size_empty in Hsz.
    destruct l; [|done].
    by rewrite (chained_tail _ _ _ _ Hl), (chained_head _ _ _ _ Hl). }
  assert (Hc2 : linked c2 sorted).
  { assert (Hidx : (forall k a, entries c2 !! k = Some a ->
               a ∈ sorted /\ exists e, heap c2 !! a = Some e /\ Key e = k) /\
             (forall a e, a ∈ sorted -> heap c2 !! a = Some e ->
               entries c2 !! Key e = Some a)).
    { split.
      - intros k a Hk. rewrite He2 in Hk. split; [apply Hin; eauto|].
        destruct (Hkc1 k a Hk) as (e & He & Hke).
        destruct (payload_lookup _ _ _ _ Hpay2 He) as (e' & He' & Hee).
        exists e'. split; [done|]. apply payload_Key in Hee. congruence.
      - intros a e' (k & Hk)%Hin He'. rewrite He2.
        destruct (Hkc1 k a Hk) as (e & He & Hke).
        destruct (payload_lookup _ _ _ _ Hpay2 He) as (e'' & He'' & Hee).
        assert (e'' = e') by congruence. subst e''.
        apply payload_Key in Hee. rewrite Hee, Hke. done. }
    destruct Hidx as [Hi2 Hli2].
    destruct sorted as [|x rest] eqn:Es.
    - destruct (Hempty eq_refl) as [Ht0 Hh0].
      rewrite (Hnil eq_refl). split; cbn; try done.
      + intros k a Hk. rewrite (Hnil eq_refl) in Hi2. by apply Hi2.
      + by intros a e Ha%elem_of_nil.
    - destruct (Hends ltac:(done)) as [Ht2 Hh2].
      assert (p = None) as ->.
      { destruct (seg_first _ _ _ _ _ Hs2) as (e2 & Hx2 & Hpe).
        destruct (Hval x) as [e1 Hx1]; [by left|].
        destruct (Hfresh x e1) as [Hp1 _]; [by left|done|].
        simpl in Hrel. unfold bind at 1 in Hrel. cbn in Hrel.
        apply NoDup_cons in Hnd as [Hx _].
        pose proof (relink_previous _ _ _ _ x Hrel Hx) as Hprev.
        cbn in Hprev. change (heap c1) with h1 in Hx1.
        rewrite Hx2, Hx1 in Hprev. simpl in Hprev. congruence. }
      assert (nx = None) as ->.
      { destruct (list_snoc_or_nil (x :: rest)) as [?|(l0 & z & Hlz)]; [done|].
        rewrite Hlz in Hs2.
        destruct (seg_last _ _ _ _ _ Hs2) as (e2 & Hz2 & Hne).
        assert (Hzin : z ∈ x :: rest).
        { rewrite Hlz. apply elem_of_app. right. by left. }
        destruct (Hval z Hzin) as [e1 Hz1].
        destruct (Hfresh z e1 Hzin Hz1) as [_ Hn1].
        pose proof (relink_next _ _ _ _ l0 z Hrel Hlz Hnd ltac:(done)) as Hnext.
        rewrite Hz2, Hz1 in Hnext. simpl in Hnext. congruence. }
      split; done. }
  assert (Hrun : ReadFromFile sorted_entries (Encoded records) fuel c =
    (if MaxSize c2 =? NoMaxSize
     then Unlock ;; ret (0, None)
     else let* numberOfEvictions := evict_loop fuel 0 in
          Unlock ;; ret (numberOfEvictions, None)) c2).
  { unfold ReadFromFile. rewrite (bind_Ok _ _ _ _ _ (Lock_Ok c Hmu)). fold c0.
    rewrite (bind_Ok _ _ _ _ _ (Decode_Ok records c0)).
    change (with_entries _ _) with c1.
    unfold bind at 1, get_cache. change (heap c1) with h1. change (entries c1) with m1.
    fold sorted. rewrite (bind_Ok _ _ _ _ _ Hrel). done. }
  rewrite Hrun, Hms2. unfold n, evictions.
  destruct (MaxSize c =? NoMaxSize) eqn:Ez.
  - exists (with_mutex Free c2). split.
    { unfold bind. rewrite Unlock_Ok by (by rewrite Hm2). done. }
    simpl drop. split; [by apply linked_with_mutex|]. cbn.
    split; [done|]. split; [done|]. split; [done|]. split; [done|].
    split; [|done].
    intros k a. rewrite He2. split; [|tauto].
    intros Hk. split; [done|]. apply Hin. eauto.
  - apply Z.eqb_neq in Ez. unfold NoMaxSize in Ez.
    destruct (evict_loop_linked sorted c2 fuel 0 Hc2)
      as (c3 & Hloop & Hc3 & Hm3 & Hms3 & Hp3 & Hpay3 & Hidx3).
    { rewrite Hms2. lia. }
    { rewrite Hms2. unfold n, evictions in Hfuel.
      assert ((MaxSize c =? NoMaxSize) = false) as Hz by (by apply Z.eqb_neq).
      by rewrite Hz in Hfuel. }
    rewrite Hms2 in *.
    exists (with_mutex Free c3). split.
    { rewrite (bind_Ok _ _ _ _ _ Hloop). unfold bind.
      rewrite Unlock_Ok by congruence. done. }
    split; [by apply linked_with_mutex|]. cbn.
    split; [done|]. split; [congruence|]. split; [congruence|].
    split; [congruence|]. split; [|done].
    intros k a. rewrite Hidx3, He2. done.
Qed.

(** The same for a cache whose index is empty. *)
Lemma ReadFromFile_fresh sorted_entries records fuel c :
  sorts_by_timestamp sorted_entries -> valid c -> entries c = ∅ ->
  well_keyed records ->
  let h1 := decoded_heap (heap c) records in
  let m1 := decoded_index (length (heap c)) records ∅ in
  let sorted := sorted_entries h1 m1 in
  let n := evictions (MaxSize c) (length sorted) in
  (n <= fuel)%nat ->
  exists c',
    ReadFromFile sorted_entries (Encoded records) fuel c =
      Ok (Z.of_nat n, None) c' /\
    linked c' (drop n sorted) /\
    mutex c' = Free /\ MaxSize c' = MaxSize c /\ Policy c' = Policy c /\
    payload <$> heap c' = payload <$> h1 /\
    (forall k a, entries c' !! k = Some a <->
                 m1 !! k = Some a /\ a ∈ drop n sorted) /\
    sorted ≡ₚ (map_to_list m1).*2 /\ ascending h1 sorted.
Proof.
  intros Hsort Hv Hem Hw.
  pose proof (ReadFromFile_covered sorted_entries records fuel c Hsort Hv) as H.
  cbv zeta in *. rewrite Hem in H. apply H; [|done].
  intros k [a Hk]. by rewrite lookup_empty in Hk.
Qed.

(** ** Snapshots *)

Lemma NoDup_fst_omap {A B} (f : string * A -> option (string * B)) l :
  (forall x y, f x = Some y -> y.1 = x.1) ->
  NoDup l.*1 -> NoDup (omap f l).*1.
Proof.
  intros Hf. induction l as [|x l IH]; simpl; [done|].
  intros [Hx Hnd]%NoDup_cons. destruct (f x) as [y|] eqn:Ey; simpl; [|by apply IH].
  apply NoDup_cons. split; [|by apply IH].
  rewrite (Hf x y Ey). intros Hin. apply Hx.
  apply list_elem_of_fmap in Hin as (z & -> & Hz).
  apply list_elem_of_omap in Hz as (w & Hw & Hfw).
  rewrite (Hf w z Hfw). apply list_elem_of_fmap. eauto.
Qed.

(** What [SaveToFile] writes holds no key twice. *)
Lemma records_of_NoDup c : NoDup (records_of c).*1.
Proof.
  unfold records_of. apply NoDup_fst_omap.
  - intros [k a] y. simpl. intros (e & _ & ->)%fmap_Some. done.
  - apply NoDup_fst_map_to_list.
Qed.

Lemma NoDup_fst_lookup {A} (l : list (string * A)) k d d' :
  NoDup l.*1 -> (k, d) ∈ l -> (k, d') ∈ l -> d = d'.
Proof.
  induction l as [|[k0 d0] l IH]; simpl; [by intros _ ?%elem_of_nil|].
  intros [Hk Hnd]%NoDup_cons [Heq|Hin]%elem_of_cons [Heq'|Hin']%elem_of_cons.
  - congruence.
  - injection Heq as -> ->. exfalso. apply Hk.
    apply list_elem_of_fmap. by exists (k0, d').
  - injection Heq' as -> ->. exfalso. apply Hk.
    apply list_elem_of_fmap. by exists (k0, d).
  - by apply IH.
Qed.

(** ** More on what a key leads to *)

Lemma stored_insert c c' a e e' k b :
  entries c' = entries c -> heap c !! a = Some e ->
  payload <$> heap c' = payload <$> <[a := e']> (heap c) ->
  entries c !! k = Some b ->
  stored c' k = if decide (b = a) then Some (payload e') else stored c k.
Proof.
  intros He Ha Hp Hk. unfold stored. rewrite He, Hk. simpl.
  rewrite <- !list_lookup_fmap, Hp, list_lookup_fmap.
  destruct (decide (b = a)) as [->|Hne].
  - rewrite list_lookup_insert_eq by (by eapply lookup_lt_Some). done.
  - by rewrite list_lookup_insert_ne, list_lookup_fmap.
Qed.

Lemma linked_inj c l p n k k' a :
  chained c l p n -> entries c !! k = Some a -> entries c !! k' = Some a -> k = k'.
Proof.
  intros Hl Hk Hk'.
  destruct (chained_index _ _ _ _ Hl k a Hk) as (_ & e & He & Hke).
  destruct (chained_index _ _ _ _ Hl k' a Hk') as (_ & e' & He' & Hke').
  congruence.
Qed.

Lemma stored_absent c k : entries c !! k = None -> stored c k = None.
Proof. intros Hk. unfold stored. by rewrite Hk. Qed.

(** ** Restoring over a cache that the snapshot covers *)

Lemma decoded_stored_over (h : list Entry) records (m : gmap string addr) k d :
  NoDup records.*1 -> (k, d) ∈ records ->
  exists a, decoded_index (length h) records m !! k = Some a /\
            decoded_heap h records !! a = Some (payload d).
Proof.
  intros Hnd Hin.
  destruct (decoded_index_listed records (length h) m k) as (i & d' & Hi & Hk).
  { apply list_elem_of_fmap. by exists (k, d). }
  assert (d' = d) as ->.
  { eapply NoDup_fst_lookup; [done| |done]. by eapply list_elem_of_lookup_2. }
  exists (length h + i)%nat. split; [done|].
  unfold decoded_heap. rewrite lookup_app_r by lia.
  replace (length h + i - length h)%nat with i by lia.
  by rewrite list_lookup_fmap, Hi.
Qed.

Lemma decoded_index_keys records base (m : gmap string addr) k :
  (forall k, is_Some (m !! k) -> k ∈ records.*1) ->
  is_Some (decoded_index base records m !! k) <-> k ∈ records.*1.
Proof.
  intros Hcov. split.
  - intros [a Hk]. destruct (decide (k ∈ records.*1)) as [|Hout]; [done|].
    rewrite decoded_index_other in Hk by done. apply Hcov. eauto.
  - intros Hin.
    destruct (decoded_index_listed records base m k Hin) as (i & d & _ & Hk). eauto.
Qed.

Lemma decoded_index_size records base (m : gmap string addr) :
  (forall k, is_Some (m !! k) -> k ∈ records.*1) -> NoDup records.*1 ->
  size (decoded_index base records m) = length records.
Proof.
  intros Hcov Hnd. rewrite <- size_dom.
  assert (dom (decoded_index base records m) = list_to_set (C := gset string) records.*1)
    as ->.
  { apply set_eq. intros k. rewrite elem_of_dom, elem_of_list_to_set.
    by apply decoded_index_keys. }
  rewrite size_list_to_set by done. by rewrite length_fmap.
Qed.

(** Lines 279-329 on a cache all of whose keys are in the snapshot, with
    room for the snapshot. *)
Lemma restore_covered sorted_entries records fuel c :
  sorts_by_timestamp sorted_entries -> valid c ->
  (forall k, is_Some (entries c !! k) -> k ∈ records.*1) ->
  well_keyed records -> NoDup records.*1 ->
  MaxSize c = NoMaxSize \/ Z.of_nat (length records) <= MaxSize c ->
  exists c' l,
    ReadFromFile sorted_entries (Encoded records) fuel c = Ok (0, None) c' /\
    valid c' /\ linked c' l /\ ascending (heap c') l /\
    MaxSize c' = MaxSize c /\ Policy c' = Policy c /\
    (forall k, k ∉ records.*1 -> stored c' k = None) /\
    (forall k d, (k, d) ∈ records -> stored c' k = Some (payload d)) /\
    len (entries c') = Z.of_nat (length records).
Proof.
  intros Hsort Hv Hcov Hw Hnd Hroom.
  set (h1 := decoded_heap (heap c) records).
  set (m1 := decoded_index (length (heap c)) records (entries c)).
  pose proof (decoded_index_size records (length (heap c)) (entries c) Hcov Hnd)
    as Hsize. fold m1 in Hsize.
  destruct (Hsort h1 m1) as [Hperm0 _].
  assert (Hn : evictions (MaxSize c) (length (sorted_entries h1 m1)) = 0%nat).
  { unfold evictions. destruct (MaxSize c =? NoMaxSize) eqn:Ez; [done|].
    rewrite Hperm0, length_fmap, length_map_to_list, Hsize.
    apply Z.eqb_neq in Ez. lia. }
  destruct (ReadFromFile_covered sorted_entries records fuel c Hsort Hv Hcov Hw)
    as (c' & Hrun & Hl' & Hm' & Hms' & Hp' & Hpay' & Hidx' & Hperm & Hasc).
  { fold h1 m1. rewrite Hn. lia. }
  fold h1 m1 in Hrun, Hl', Hpay', Hidx', Hperm, Hasc.
  rewrite Hn in Hrun, Hl', Hidx'. simpl drop in *.
  assert (Hsame : forall k, entries c' !! k = m1 !! k).
  { intros k. apply option_eq. intros a. rewrite Hidx'. split; [tauto|].
    intros Hk. split; [done|]. rewrite Hperm. apply elem_of_index_values. eauto. }
  exists c', (sorted_entries h1 m1).
  split; [done|]. split.
  { split; [done|]. split; [|by eexists]. destruct Hv as (_ & ? & _). lia. }
  split; [done|]. split.
  { intros i j a b Hij Ha Hb.
    rewrite !(timestamp_at_payload _ _ _ Hpay'). by eapply Hasc. }
  split; [done|]. split; [done|]. split.
  { intros k Hout. apply stored_absent. rewrite Hsame.
    destruct (m1 !! k) as [a|] eqn:Hk; [|done].
    destruct Hout. apply (decoded_index_keys records (length (heap c)) (entries c) k Hcov).
    fold m1. eauto. }
  split.
  - intros k d Hin.
    destruct (decoded_stored_over (heap c) records (entries c) k d Hnd Hin)
      as (a & Hk & Ha). fold m1 in Hk. fold h1 in Ha.
    unfold stored. rewrite Hsame, Hk. simpl.
    destruct (payload_lookup _ _ _ _ Hpay' Ha) as (e' & He' & Hee).
    rewrite He'. simpl. by rewrite Hee.
  - unfold len. f_equal. rewrite <- Hsize.
    rewrite <- !size_dom. f_equal. apply set_eq. intros k.
    by rewrite !elem_of_dom, Hsame.
Qed.

(** ** The list operations *)

(** X1.  On a linked cache, [removeExistingEntryReferences] takes the entry
    out of the list and closes the gap: the other entries are linked in the
    order they had, [tail] and [head] are the ends of what is left, the
    index and every payload are untouched, and the entry itself keeps the
    links it had. *)
Theorem removeExistingEntryReferences_unlinks
    (c : Cache) (l1 : list addr) (a : addr) (l2 : list addr) :
  linked c (l1 ++ a :: l2) ->
  exists c',
    removeExistingEntryReferences (Some a) c = Ok tt c' /\
    tail c' = (l1 ++ l2) !! 0%nat /\ head c' = last (l1 ++ l2) /\
    seg (heap c') None (l1 ++ l2) None /\
    heap c' !! a = heap c !! a /\
    frame c c'.
Proof. intros [Hnd Ht Hh Hs _ _]. by apply removeExistingEntryReferences_seg. Qed.

Lemma removeExistingEntryReferences_unlinks_witness :
  exists c',
    removeExistingEntryReferences (Some 0%nat) full_cache = Ok tt c' /\
    tail c' = ([] ++ [1%nat]) !! 0%nat /\ head c' = last ([] ++ [1%nat]) /\
    seg (heap c') None ([] ++ [1%nat]) None /\
    heap c' !! 0%nat = heap full_cache !! 0%nat /\
    frame full_cache c'.
Proof.
  apply (removeExistingEntryReferences_unlinks full_cache [] 0%nat [1%nat]).
  apply linkedb_sound. vm_compute. reflexivity.
Defined.

(** X2.  On a linked cache, [moveExistingEntryToHead] puts the entry behind
    the head and keeps the others in the order they had; the index and
    every payload are untouched. *)
Theorem moveExistingEntryToHead_keeps_order
    (c : Cache) (l1 : list addr) (a : addr) (l2 : list addr) :
  linked c (l1 ++ a :: l2) ->
  exists c',
    moveExistingEntryToHead (Some a) c = Ok tt c' /\
    linked c' ((l1 ++ l2) ++ [a]) /\
    frame c c'.
Proof.
  intros Hl. pose proof Hl as [Hnd Ht Hh Hs _ _].
  destruct (moveExistingEntryToHead_seg c l1 a l2 Hnd Ht Hh Hs)
    as (c' & Hrun & Ht' & Hh' & Hs' & Hfr).
  exists c'. split; [done|]. split; [|done].
  eapply (linked_frame c c' (l1 ++ a :: l2)); try done.
  - rewrite <- app_assoc. apply Permutation_app_head.
    symmetry. apply Permutation_cons_append.
  - by rewrite last_snoc.
Qed.

Lemma moveExistingEntryToHead_keeps_order_witness :
  exists c',
    moveExistingEntryToHead (Some 0%nat) full_cache = Ok tt c' /\
    linked c' (([] ++ [1%nat]) ++ [0%nat]) /\
    frame full_cache c'.
Proof.
  apply (moveExistingEntryToHead_keeps_order full_cache [] 0%nat [1%nat]).
  apply linkedb_sound. vm_compute. reflexivity.
Defined.

(** X3.  On a linked cache that holds no entry, or two or more, [evict]
    ends normally and what is left is the list without its tail: the
    index loses exactly the key of the tail, the head stays, and no
    payload changes. *)
Theorem evict_drops_the_tail (c : Cache) (l : list addr) :
  linked c l -> length l ≠ 1%nat ->
  exists c',
    evict c = Ok tt c' /\
    linked c' (drop 1 l) /\
    (forall k a, entries c' !! k = Some a <->
                 entries c !! k = Some a /\ a ∈ drop 1 l) /\
    head c' = head c /\ mutex c' = mutex c /\ MaxSize c' = MaxSize c /\
    Policy c' = Policy c /\ payload <$> heap c' = payload <$> heap c.
Proof.
  intros Hl Hlen. destruct l as [|t [|t2 l]]; [|done|].
  - exists c. split.
    { apply evict_empty. left. by rewrite (chained_tail _ _ _ _ Hl). }
    split; [done|]. split; [|done].
    intros k a. split; [|tauto]. intros Hk. split; [done|].
    by apply (chained_index _ _ _ _ Hl) in Hk as [Hin _].
  - destruct (evict_linked c t t2 l Hl)
      as (c' & et & Hev & Hl' & Het & Hkt & He' & Hrest).
    exists c'. split; [done|]. split; [done|]. split; [|done].
    intros k a. rewrite He'. simpl drop.
    rewrite lookup_delete_Some. split.
    + intros [Hne Hk]. split; [done|].
      destruct (chained_index _ _ _ _ Hl k a Hk) as (Ha & e & He & Hke).
      apply elem_of_cons in Ha as [->|Ha]; [|done].
      assert (e = et) by congruence. subst e. done.
    + intros [Hk Ha]. split; [|done]. intros <-.
      assert (t = a) by congruence. subst a.
      destruct Hl as [Hnd _ _ _ _ _]. by apply NoDup_cons in Hnd as [Hnd _].
Qed.

Lemma evict_drops_the_tail_witness :
  exists c',
    evict full_cache = Ok tt c' /\
    linked c' (drop 1 [0%nat; 1%nat]) /\
    (forall k a, entries c' !! k = Some a <->
                 entries full_cache !! k = Some a /\ a ∈ drop 1 [0%nat; 1%nat]) /\
    head c' = head full_cache /\ mutex c' = mutex full_cache /\
    MaxSize c' = MaxSize full_cache /\
    Policy c' = Policy full_cache /\
    payload <$> heap c' = payload <$> heap full_cache.
Proof.
  apply (evict_drops_the_tail full_cache [0%nat; 1%nat]).
  - apply linkedb_sound. vm_compute. reflexivity.
  - simpl. lia.
Defined.

(** ** Writing *)

Lemma stored_snoc c c' l p n x k :
  chained c l p n -> payload <$> heap c' = (payload <$> heap c) ++ [x] ->
  entries c' !! k = entries c !! k -> stored c' k = stored c k.
Proof.
  intros Hl Hp Hk. unfold stored. rewrite Hk.
  destruct (entries c !! k) as [b|] eqn:Hb; [|done]. simpl.
  destruct (chained_index _ _ _ _ Hl k b Hb) as (_ & e & He & _).
  destruct (payload_snoc_lookup _ _ _ Hp) as (_ & _ & Hold).
  destruct (Hold b e He) as (e' & He' & Hee). rewrite He', He. simpl. by rewrite Hee.
Qed.

Lemma stored_new c c' x k a :
  payload <$> heap c' = (payload <$> heap c) ++ [x] ->
  a = length (heap c) -> payload x = x ->
  entries c' !! k = Some a -> stored c' k = Some x.
Proof.
  intros Hp -> Hx Hk. unfold stored. rewrite Hk. simpl.
  destruct (payload_snoc_lookup _ _ _ Hp) as (_ & (e' & He' & Hee) & _).
  rewrite He'. simpl. by rewrite Hee.
Qed.

(** X4.  A new key set in a cache that is full: the entry goes behind the
    head, the tail is evicted and its key leaves the index, and nothing else
    changes: the other entries keep their order and their payload, and the
    count stays. *)
Theorem SetWithTTL_on_full_cache_evicts_tail
    (key : string) (value : iface) (ttl now1 now2 : Z) (c : Cache)
    (t : addr) (l : list addr) (et : Entry) :
  mutex c = Free -> 0 < MaxSize c -> MaxSize c <= len (entries c) ->
  linked c (t :: l) -> heap c !! t = Some et ->
  entries c !! key = None -> ttl = NoExpiration \/ 0 <= ttl ->
  exists c',
    SetWithTTL key value ttl now1 now2 c = Ok tt c' /\
    mutex c' = Free /\ MaxSize c' = MaxSize c /\ Policy c' = Policy c /\
    linked c' (l ++ [length (heap c)]) /\
    entries c' !! Key et = None /\
    stored c' key =
      Some (mkEntry key value now1 (expiration_for ttl now2) None None) /\
    (forall k, k ≠ key -> k ≠ Key et -> stored c' k = stored c k) /\
    len (entries c') = len (entries c).
Proof.
  intros Hmu Hpos Hfull Hl Het Hk Httl.
  destruct (SetWithTTL_absent_list key value ttl now1 now2 c (t :: l))
    as (c' & l' & Hrun & Hm' & Hms' & Hp' & Hl' & Hpay & Hcase);
    [done | lia | done | done | done |].
  destruct Hcase as [(_ & _ & [Hz|Hle])|(_ & _ & t' & et' & Heq & Het' & Hkt & Hne & He')];
    [unfold NoMaxSize in Hz; lia | lia |].
  injection Heq as <- <-. assert (et' = et) by congruence. subst et'.
  exists c'. split; [done|]. split; [done|]. split; [done|]. split; [done|].
  split; [done|]. split; [by rewrite He', lookup_delete_eq|].
  split.
  { eapply stored_new; [done|done|done|].
    by rewrite He', lookup_delete_ne, lookup_insert_eq. }
  split.
  { intros k Hk1 Hk2. eapply stored_snoc; [exact Hl|done|].
    by rewrite He', lookup_delete_ne, lookup_insert_ne. }
  rewrite He'. rewrite (len_delete_Some _ _ t).
  - rewrite len_insert_None by done. lia.
  - by rewrite lookup_insert_ne.
Qed.

Lemma SetWithTTL_on_full_cache_evicts_tail_witness :
  exists c',
    SetWithTTL "c" (IInt 3) NoExpiration 30 30 full_cache = Ok tt c' /\
    mutex c' = Free /\ MaxSize c' = MaxSize full_cache /\
    Policy c' = Policy full_cache /\
    linked c' ([1%nat] ++ [length (heap full_cache)]) /\
    entries c' !! Key (mkEntry "a" (IInt 1) 10 NoExpiration None (Some 1%nat)) = None /\
    stored c' "c" =
      Some (mkEntry "c" (IInt 3) 30 (expiration_for NoExpiration 30) None None) /\
    (forall k, k ≠ "c" ->
               k ≠ Key (mkEntry "a" (IInt 1) 10 NoExpiration None (Some 1%nat)) ->
               stored c' k = stored full_cache k) /\
    len (entries c') = len (entries full_cache).
Proof.
  apply (SetWithTTL_on_full_cache_evicts_tail "c" (IInt 3) NoExpiration 30 30
           full_cache 0%nat [1%nat]
           (mkEntry "a" (IInt 1) 10 NoExpiration None (Some 1%nat))).
  - reflexivity.
  - reflexivity.
  - vm_compute. discriminate.
  - apply linkedb_sound. vm_compute. reflexivity.
  - reflexivity.
  - reflexivity.
  - by left.
Defined.

(** X5.  A new key set in a cache with room for it (or without a maximum
    size): the entry goes behind the head, carrying key, value, the instant
    of creation and the expiration; nothing is evicted and every other
    entry keeps its place and its payload. *)
Theorem SetWithTTL_new_key_with_room
    (key : string) (value : iface) (ttl now1 now2 : Z) (c : Cache)
    (l : list addr) :
  mutex c = Free -> 0 <= MaxSize c -> linked c l ->
  MaxSize c = NoMaxSize \/ len (entries c) < MaxSize c ->
  entries c !! key = None -> ttl = NoExpiration \/ 0 <= ttl ->
  exists c',
    SetWithTTL key value ttl now1 now2 c = Ok tt c' /\
    mutex c' = Free /\ MaxSize c' = MaxSize c /\ Policy c' = Policy c /\
    linked c' (l ++ [length (heap c)]) /\
    entries c' = <[key := length (heap c)]> (entries c) /\
    stored c' key =
      Some (mkEntry key value now1 (expiration_for ttl now2) None None) /\
    (forall k, k ≠ key -> stored c' k = stored c k).
Proof.
  intros Hmu Hms Hl Hroom Hk Httl.
  destruct (SetWithTTL_absent_list key value ttl now1 now2 c l)
    as (c' & l' & Hrun & Hm' & Hms' & Hp' & Hl' & Hpay & Hcase); try done.
  destruct Hcase as [(He' & -> & _)|(Hnz & Hgt & _)]; [|lia].
  exists c'. split; [done|]. split; [done|]. split; [done|]. split; [done|].
  split; [done|]. split; [done|]. split.
  { eapply stored_new; [done|done|done|]. by rewrite He', lookup_insert_eq. }
  intros k Hne. eapply stored_snoc; [exact Hl|done|].
  by rewrite He', lookup_insert_ne.
Qed.

Lemma SetWithTTL_new_key_with_room_witness :
  exists c',
    SetWithTTL "c" (IInt 3) 5 30 31 lru_cache = Ok tt c' /\
    mutex c' = Free /\ MaxSize c' = MaxSize lru_cache /\
    Policy c' = Policy lru_cache /\
    linked c' ([0%nat; 1%nat] ++ [length (heap lru_cache)]) /\
    entries c' = <["c" := length (heap lru_cache)]> (entries lru_cache) /\
    stored c' "c" = Some (mkEntry "c" (IInt 3) 30 (expiration_for 5 31) None None) /\
    (forall k, k ≠ "c" -> stored c' k = stored lru_cache k).
Proof.
  apply (SetWithTTL_new_key_with_room "c" (IInt 3) 5 30 31 lru_cache [0%nat; 1%nat]).
  - reflexivity.
  - vm_compute. discriminate.
  - apply linkedb_sound. vm_compute. reflexivity.
  - right. vm_compute. reflexivity.
  - reflexivity.
  - right. lia.
Defined.

(** X6.  A key that is present, set again in a cache that is not over its
    maximum size: the entry is moved behind the head and the others keep
    their order; its value and expiration are rewritten, nothing is
    evicted, and no other entry changes its payload. *)
Theorem SetWithTTL_update_moves_to_head
    (key : string) (value : iface) (ttl now1 now2 : Z) (c : Cache)
    (l1 : list addr) (a : addr) (l2 : list addr) (ea : Entry) :
  mutex c = Free -> 0 <= MaxSize c -> linked c (l1 ++ a :: l2) ->
  MaxSize c = NoMaxSize \/ len (entries c) <= MaxSize c ->
  entries c !! key = Some a -> heap c !! a = Some ea ->
  exists c',
    SetWithTTL key value ttl now1 now2 c = Ok tt c' /\
    mutex c' = Free /\ MaxSize c' = MaxSize c /\ Policy c' = Policy c /\
    linked c' ((l1 ++ l2) ++ [a]) /\
    entries c' = entries c /\
    stored c' key =
      Some (payload (with_Expiration (expiration_for ttl now2)
                       (with_Value value ea))) /\
    (forall k, k ≠ key -> stored c' k = stored c k).
Proof.
  intros Hmu Hms Hl Hroom Hk Hea.
  destruct (SetWithTTL_present_list key value ttl now1 now2 c l1 a l2 ea)
    as (c' & l' & Hrun & Hm' & Hms' & Hp' & Hl' & Hpay & Hcase); try done.
  destruct Hcase as [(He' & -> & _)|(Hnz & Hgt & _)]; [|lia].
  exists c'. split; [done|]. split; [done|]. split; [done|]. split; [done|].
  split; [done|]. split; [done|]. split.
  { rewrite (stored_insert c c' a ea _ key a He' Hea Hpay Hk).
    by rewrite decide_True. }
  intros k Hne. destruct (entries c !! k) as [b|] eqn:Hb.
  - rewrite (stored_insert c c' a ea _ k b He' Hea Hpay Hb).
    destruct (decide (b = a)) as [->|]; [|done].
    destruct Hne. eapply linked_inj; [exact Hl|exact Hb|exact Hk].
  - rewrite !stored_absent; [done|done|by rewrite He'].
Qed.

Lemma SetWithTTL_update_moves_to_head_witness :
  exists c',
    SetWithTTL "a" (IInt 7) 5 30 31 full_cache = Ok tt c' /\
    mutex c' = Free /\ MaxSize c' = MaxSize full_cache /\
    Policy c' = Policy full_cache /\
    linked c' (([] ++ [1%nat]) ++ [0%nat]) /\
    entries c' = entries full_cache /\
    stored c' "a" =
      Some (payload (with_Expiration (expiration_for 5 31)
                       (with_Value (IInt 7)
                          (mkEntry "a" (IInt 1) 10 NoExpiration None (Some 1%nat))))) /\
    (forall k, k ≠ "a" -> stored c' k = stored full_cache k).
Proof.
  apply (SetWithTTL_update_moves_to_head "a" (IInt 7) 5 30 31 full_cache
           [] 0%nat [1%nat]
           (mkEntry "a" (IInt 1) 10 NoExpiration None (Some 1%nat))).
  - reflexivity.
  - vm_compute. discriminate.
  - apply linkedb_sound. vm_compute. reflexivity.
  - right. vm_compute. discriminate.
  - reflexivity.
  - reflexivity.
Defined.

(** ** Reading *)

(** X7.  Under FirstInFirstOut a [Get] on a valid cache changes nothing at
    all, whatever it answers: the value of the entry the key leads to when
    that entry is not expired, and not-found otherwise. *)
Theorem Get_under_FIFO_changes_nothing
    (key : string) (now now_accessed : Z) (c : Cache) :
  valid c -> Policy c = FirstInFirstOut ->
  Get key now now_accessed c = Ok (Get_answer c key now) c.
Proof.
  intros (Hmu & Hms & l & Hl) Hp. unfold Get_answer.
  destruct (entries c !! key) as [a|] eqn:Hk.
  - destruct (chained_index _ _ _ _ Hl key a Hk) as (_ & e & He & _).
    rewrite He. destruct (Expired e now) eqn:Hex.
    + by apply (Get_expired c key now now_accessed a e).
    + by apply (Get_found_FIFO c key now now_accessed a e).
  - by apply Get_absent.
Qed.

Lemma Get_under_FIFO_changes_nothing_witness :
  Get "a" 30 30 full_cache = Ok (Get_answer full_cache "a" 30) full_cache.
Proof.
  apply (Get_under_FIFO_changes_nothing "a" 30 30 full_cache).
  - apply validb_sound. vm_compute. reflexivity.
  - reflexivity.
Defined.

(** X8.  Under LeastRecentlyUsed a [Get] that finds its entry, not expired,
    answers the value, stamps the entry with the instant of the read and
    moves it behind the head; the other entries keep their order and their
    payload, and the index is untouched. *)
Theorem Get_under_LRU_moves_to_head
    (key : string) (now now_accessed : Z) (c : Cache)
    (l1 : list addr) (a : addr) (l2 : list addr) (e : Entry) :
  mutex c = Free -> Policy c = LeastRecentlyUsed ->
  linked c (l1 ++ a :: l2) ->
  entries c !! key = Some a -> heap c !! a = Some e -> Expired e now = false ->
  exists c',
    Get key now now_accessed c = Ok (Value e, true) c' /\
    mutex c' = Free /\ MaxSize c' = MaxSize c /\ Policy c' = Policy c /\
    linked c' ((l1 ++ l2) ++ [a]) /\
    entries c' = entries c /\
    stored c' key = Some (payload (with_RelevantTimestamp now_accessed e)) /\
    (forall k, k ≠ key -> stored c' k = stored c k).
Proof.
  intros Hmu Hp Hl Hk He Hex.
  destruct (Get_found_LRU_linked c key now now_accessed l1 a l2 e)
    as (c' & Hrun & Hl' & He' & Hm' & Hms' & Hp' & Hpay); try done.
  exists c'. split; [done|]. split; [done|]. split; [done|]. split; [done|].
  split; [done|]. split; [done|]. split.
  { rewrite (stored_insert c c' a e _ key a He' He Hpay Hk). by rewrite decide_True. }
  intros k Hne. destruct (entries c !! k) as [b|] eqn:Hb.
  - rewrite (stored_insert c c' a e _ k b He' He Hpay Hb).
    destruct (decide (b = a)) as [->|]; [|done].
    destruct Hne. eapply linked_inj; [exact Hl|exact Hb|exact Hk].
  - rewrite !stored_absent; [done|done|by rewrite He'].
Qed.

Lemma Get_under_LRU_moves_to_head_witness :
  exists c',
    Get "a" 30 31 lru_cache =
      Ok (Value (mkEntry "a" (IInt 1) 10 NoExpiration None (Some 1%nat)), true) c' /\
    mutex c' = Free /\ MaxSize c' = MaxSize lru_cache /\
    Policy c' = Policy lru_cache /\
    linked c' (([] ++ [1%nat]) ++ [0%nat]) /\
    entries c' = entries lru_cache /\
    stored c' "a" =
      Some (payload (with_RelevantTimestamp 31
                       (mkEntry "a" (IInt 1) 10 NoExpiration None (Some 1%nat)))) /\
    (forall k, k ≠ "a" -> stored c' k = stored lru_cache k).
Proof.
  apply (Get_under_LRU_moves_to_head "a" 30 31 lru_cache [] 0%nat [1%nat]
           (mkEntry "a" (IInt 1) 10 NoExpiration None (Some 1%nat))).
  - reflexivity.
  - reflexivity.
  - apply linkedb_sound. vm_compute. reflexivity.
  - reflexivity.
  - reflexivity.
  - reflexivity.
Defined.

(** X9.  Under either policy a [Get] on a valid cache ends normally and
    leaves a valid cache with the same index and configuration, in which
    every entry has the key, value and expiration it had; so a later [Get]
    answers as it would have before. *)
Theorem Get_keeps_contents (key : string) (now now_accessed : Z) (c : Cache) :
  valid c ->
  exists c',
    Get key now now_accessed c = Ok (Get_answer c key now) c' /\
    valid c' /\ entries c' = entries c /\
    MaxSize c' = MaxSize c /\ Policy c' = Policy c /\
    content <$> heap c' = content <$> heap c /\
    (forall k later, Get_answer c' k later = Get_answer c k later).
Proof.
  intros Hv.
  destruct (Get_valid c key now now_accessed Hv)
    as (c' & Hrun & Hv' & He' & Hms' & Hp' & Hc').
  exists c'. split; [done|]. split; [done|]. split; [done|]. split; [done|].
  split; [done|]. split; [done|].
  intros k later. by apply Get_answer_same.
Qed.

Lemma Get_keeps_contents_witness :
  exists c',
    Get "a" 30 31 lru_cache = Ok (Get_answer lru_cache "a" 30) c' /\
    valid c' /\ entries c' = entries lru_cache /\
    MaxSize c' = MaxSize lru_cache /\ Policy c' = Policy lru_cache /\
    content <$> heap c' = content <$> heap lru_cache /\
    (forall k later, Get_answer c' k later = Get_answer lru_cache k later).
Proof.
  apply (Get_keeps_contents "a" 30 31 lru_cache).
  apply validb_sound. vm_compute. reflexivity.
Defined.

(** X10.  [GetAll] on a valid cache ends normally, each [Get] of its loop
    reading the clock for itself.  The map it returns has exactly the keys
    asked for; a key is mapped to what its [Get] (the last one, when it is
    asked for more than once) answers at the instant that [Get] reads: the
    value, or nil when the key is absent or its entry is expired then.  As
    no [Get] changes a key, a value or an expiration, that answer is the
    one the starting cache gives for that instant.  The cache is left valid
    with the index it had. *)
Theorem GetAll_answers_every_key
    (keys : list string) (clock : nat -> Z * Z) (c : Cache) :
  valid c ->
  exists c' found,
    GetAll keys clock c = Ok found c' /\
    valid c' /\ entries c' = entries c /\
    (forall k, k ∉ keys -> found !! k = None) /\
    (forall i k, keys !! i = Some k ->
       (forall j, (i < j)%nat -> keys !! j ≠ Some k) ->
       found !! k = Some (Get_answer c k (clock i).1).1).
Proof.
  intros Hv.
  destruct (GetAll_loop_valid keys clock 0 c ∅ Hv)
    as (c' & m & Hrun & Hv' & He' & _ & _ & _ & Hout & Hin).
  exists c', m. split; [done|]. split; [done|]. split; [done|]. split.
  - intros k Hk. by rewrite Hout.
  - intros i k Hi Hlast. by rewrite (Hin i k Hi Hlast).
Qed.

Lemma GetAll_answers_every_key_witness :
  exists c' found,
    GetAll ["a"; "z"; "a"] (fun i => (12 + 2 * Z.of_nat i, 12 + 2 * Z.of_nat i))
      cache_with_ttl = Ok found c' /\
    valid c' /\ entries c' = entries cache_with_ttl /\
    (forall k, k ∉ ["a"; "z"; "a"] -> found !! k = None) /\
    (forall i k, ["a"; "z"; "a"] !! i = Some k ->
       (forall j, (i < j)%nat -> ["a"; "z"; "a"] !! j ≠ Some k) ->
       found !! k =
         Some (Get_answer cache_with_ttl k
                 ((fun i => (12 + 2 * Z.of_nat i, 12 + 2 * Z.of_nat i)) i).1).1).
Proof.
  apply (GetAll_answers_every_key ["a"; "z"; "a"]
           (fun i => (12 + 2 * Z.of_nat i, 12 + 2 * Z.of_nat i)) cache_with_ttl).
  apply validb_sound. vm_compute. reflexivity.
Defined.

(** ** Writing, then reading *)

Lemma SetWithTTL_sets key value ttl now1 now2 c :
  valid c -> ttl = NoExpiration \/ 0 <= ttl ->
  exists c1 a e1,
    SetWithTTL key value ttl now1 now2 c = Ok tt c1 /\
    valid c1 /\ entries c1 !! key = Some a /\ heap c1 !! a = Some e1 /\
    Value e1 = value /\ Expiration e1 = expiration_for ttl now2.
Proof.
  intros Hv Httl. destruct (entries c !! key) as [a|] eqn:Hk.
  - destruct (SetWithTTL_present key value ttl now1 now2 c a Hv Hk)
      as (c1 & ea & e1 & Hrun & Hv1 & _ & _ & _ & Hk1 & _ & He1 & Hpay & _).
    exists c1, a, e1. split; [done|]. split; [done|]. split; [done|].
    split; [done|]. unfold payload in Hpay. cbn in Hpay.
    by injection Hpay as _ -> _ ->.
  - destruct (SetWithTTL_absent key value ttl now1 now2 c Hv Hk Httl)
      as (c1 & a & e1 & Hrun & Hv1 & _ & _ & _ & Hk1 & He1 & Hpay & _).
    exists c1, a, e1. split; [done|]. split; [done|]. split; [done|].
    split; [done|]. unfold payload in Hpay.
    by injection Hpay as _ -> _ ->.
Qed.

Lemma sat64_id z : min_int64 <= z <= max_int64 -> sat64 z = z.
Proof. unfold sat64. lia. Qed.

Lemma Get_answer_found c key now a e :
  entries c !! key = Some a -> heap c !! a = Some e ->
  Get_answer c key now = if Expired e now then (INil, false) else (Value e, true).
Proof. intros Hk He. unfold Get_answer. by rewrite Hk, He. Qed.

(** X11.  After [Set] on a valid cache the key never expires: at every later
    instant [Get] answers the value that was set and [TTL] answers
    [ErrKeyHasNoExpiration]. *)
Theorem Set_never_expires (key : string) (value : iface) (now : Z) (c : Cache) :
  valid c ->
  exists c1,
    Set_ key value now c = Ok tt c1 /\ valid c1 /\
    (forall later later', exists c2,
       Get key later later' c1 = Ok (value, true) c2) /\
    (forall later, TTL key later c1 = Ok (0, Some ErrKeyHasNoExpiration) c1).
Proof.
  intros Hv.
  destruct (SetWithTTL_sets key value NoExpiration now now c Hv)
    as (c1 & a & e1 & Hrun & Hv1 & Hk1 & He1 & Hval & Hexp); [by left|].
  exists c1. split; [done|]. split; [done|].
  cbn in Hexp. split.
  - intros later later'.
    destruct (Get_valid c1 key later later' Hv1) as (c2 & Hget & _).
    exists c2. rewrite Hget, (Get_answer_found c1 key later a e1) by done.
    unfold Expired. by rewrite Hexp, Hval.
  - intros later. destruct Hv1 as (Hmu1 & _).
    rewrite (TTL_found c1 key later a e1) by done. by rewrite Hexp.
Qed.

Lemma Set_never_expires_witness :
  exists c1,
    Set_ "c" (IInt 3) 30 full_cache = Ok tt c1 /\ valid c1 /\
    (forall later later', exists c2,
       Get "c" later later' c1 = Ok (IInt 3, true) c2) /\
    (forall later, TTL "c" later c1 = Ok (0, Some ErrKeyHasNoExpiration) c1).
Proof.
  apply (Set_never_expires "c" (IInt 3) 30 full_cache).
  apply validb_sound. vm_compute. reflexivity.
Defined.

(** X12.  After [SetWithTTL] with a TTL that is not negative, on a valid
    cache and with instants an [int64] holds: [Get] answers the value that
    was set as long as the instant of the read lies before the instant of
    the write plus the TTL, and not-found from that instant on; up to that
    instant [TTL] answers the time that is left. *)
Theorem SetWithTTL_expires_after_ttl
    (key : string) (value : iface) (ttl now1 now2 : Z) (c : Cache) :
  valid c -> 0 <= ttl -> 0 <= now2 -> now2 + ttl <= max_int64 ->
  exists c1,
    SetWithTTL key value ttl now1 now2 c = Ok tt c1 /\ valid c1 /\
    (forall later later', exists c2,
       Get key later later' c1 =
         Ok (if now2 + ttl <=? later then (INil, false) else (value, true)) c2) /\
    (forall later, 0 <= later <= now2 + ttl ->
       TTL key later c1 = Ok (now2 + ttl - later, None) c1).
Proof.
  intros Hv Httl Hnow Hmax.
  destruct (SetWithTTL_sets key value ttl now1 now2 c Hv)
    as (c1 & a & e1 & Hrun & Hv1 & Hk1 & He1 & Hval & Hexp); [by right|].
  assert (Hx : Expiration e1 = now2 + ttl).
  { rewrite Hexp. unfold expiration_for.
    assert ((ttl =? NoExpiration) = false) as ->
      by (apply Z.eqb_neq; unfold NoExpiration; lia).
    simpl. apply wrap64_id. unfold min_int64. lia. }
  assert (Hne : (Expiration e1 =? NoExpiration) = false).
  { apply Z.eqb_neq. unfold NoExpiration. lia. }
  exists c1. split; [done|]. split; [done|]. split.
  - intros later later'.
    destruct (Get_valid c1 key later later' Hv1) as (c2 & Hget & _).
    exists c2. rewrite Hget, (Get_answer_found c1 key later a e1) by done.
    unfold Expired. by rewrite Hne, Hx, Hval.
  - intros later Hlater. destruct Hv1 as (Hmu1 & _).
    rewrite (TTL_found c1 key later a e1) by done. rewrite Hne, Hx.
    unfold time_Until. rewrite sat64_id by (unfold min_int64; lia).
    assert ((now2 + ttl - later <? 0) = false) as -> by (apply Z.ltb_ge; lia).
    done.
Qed.

Lemma SetWithTTL_expires_after_ttl_witness :
  exists c1,
    SetWithTTL "c" (IInt 3) 5 30 31 full_cache = Ok tt c1 /\ valid c1 /\
    (forall later later', exists c2,
       Get "c" later later' c1 =
         Ok (if 31 + 5 <=? later then (INil, false) else (IInt 3, true)) c2) /\
    (forall later, 0 <= later <= 31 + 5 ->
       TTL "c" later c1 = Ok (31 + 5 - later, None) c1).
Proof.
  apply (SetWithTTL_expires_after_ttl "c" (IInt 3) 5 30 31 full_cache).
  - apply validb_sound. vm_compute. reflexivity.
  - lia.
  - lia.
  - vm_compute. discriminate.
Defined.

(** ** Expirations *)

(** X13.  [Expire] on a key whose entry is there and not expired answers
    true and rewrites the expiration of that entry, and nothing else: the
    list is the one it was, so the entry keeps its position, the index is
    untouched, and every other entry keeps its payload. *)
Theorem Expire_rewrites_expiration_only
    (key : string) (ttl now now_expiry : Z) (c : Cache)
    (l : list addr) (a : addr) (e : Entry) :
  mutex c = Free -> linked c l ->
  entries c !! key = Some a -> heap c !! a = Some e -> Expired e now = false ->
  exists c',
    Expire key ttl now now_expiry c = Ok true c' /\
    mutex c' = Free /\ MaxSize c' = MaxSize c /\ Policy c' = Policy c /\
    linked c' l /\ head c' = head c /\ tail c' = tail c /\
    entries c' = entries c /\
    stored c' key =
      Some (payload (with_Expiration (expiration_for ttl now_expiry) e)) /\
    (forall k, k ≠ key -> stored c' k = stored c k).
Proof.
  intros Hmu Hl Hk He Hex.
  set (e' := with_Expiration (expiration_for ttl now_expiry) e).
  exists (with_heap (<[a := e']> (heap c)) c).
  split; [by apply Expire_found|]. cbn.
  split; [done|]. split; [done|]. split; [done|].
  split; [by apply (linked_store c l a e e')|].
  split; [done|]. split; [done|]. split; [done|].
  set (c' := with_heap (<[a := e']> (heap c)) c).
  split.
  { rewrite (stored_insert c c' a e e' key a eq_refl He eq_refl Hk).
    by rewrite decide_True. }
  intros k Hne. destruct (entries c !! k) as [b|] eqn:Hb.
  - rewrite (stored_insert c c' a e e' k b eq_refl He eq_refl Hb).
    destruct (decide (b = a)) as [->|]; [|done].
    destruct Hne. eapply linked_inj; [exact Hl|exact Hb|exact Hk].
  - by rewrite !stored_absent.
Qed.

Lemma Expire_rewrites_expiration_only_witness :
  exists c',
    Expire "a" 5 30 31 full_cache = Ok true c' /\
    mutex c' = Free /\ MaxSize c' = MaxSize full_cache /\
    Policy c' = Policy full_cache /\
    linked c' [0%nat; 1%nat] /\ head c' = head full_cache /\
    tail c' = tail full_cache /\
    entries c' = entries full_cache /\
    stored c' "a" =
      Some (payload (with_Expiration (expiration_for 5 31)
                       (mkEntry "a" (IInt 1) 10 NoExpiration None (Some 1%nat)))) /\
    (forall k, k ≠ "a" -> stored c' k = stored full_cache k).
Proof.
  apply (Expire_rewrites_expiration_only "a" 5 30 31 full_cache [0%nat; 1%nat] 0%nat
           (mkEntry "a" (IInt 1) 10 NoExpiration None (Some 1%nat))).
  - reflexivity.
  - apply linkedb_sound. vm_compute. reflexivity.
  - reflexivity.
  - reflexivity.
  - reflexivity.
Defined.

(** X14.  [Expire] on a key that [Get] would not find, because it is absent
    or its entry is expired, answers false and changes nothing: an expired
    entry cannot be brought back. *)
Theorem Expire_refuses_dead_key
    (key : string) (ttl now now_expiry : Z) (c : Cache) :
  valid c -> (Get_answer c key now).2 = false ->
  Expire key ttl now now_expiry c = Ok false c.
Proof.
  intros (Hmu & Hms & l & Hl) Hdead. unfold Get_answer in Hdead.
  destruct (entries c !! key) as [a|] eqn:Hk.
  - destruct (chained_index _ _ _ _ Hl key a Hk) as (_ & e & He & _).
    rewrite He in Hdead. destruct (Expired e now) eqn:Hex; [|done].
    by apply (Expire_expired c key ttl now now_expiry a e).
  - by apply Expire_absent.
Qed.

Lemma Expire_refuses_dead_key_witness :
  Expire "a" NoExpiration 20 20 cache_with_ttl = Ok false cache_with_ttl.
Proof.
  apply (Expire_refuses_dead_key "a" NoExpiration 20 20 cache_with_ttl).
  - apply validb_sound. vm_compute. reflexivity.
  - vm_compute. reflexivity.
Defined.

(** X15.  [Expire] with a TTL of 0 on a live key, at an instant an [int64]
    holds: from that instant on [Get] does not find the key any more, and
    [Count] still counts it. *)
Theorem Expire_zero_expires_at_once
    (key : string) (now now_expiry : Z) (c : Cache) (a : addr) (e : Entry) :
  valid c -> entries c !! key = Some a -> heap c !! a = Some e ->
  Expired e now = false -> 0 <= now_expiry <= max_int64 ->
  exists c',
    Expire key 0 now now_expiry c = Ok true c' /\ valid c' /\
    (forall later later', now_expiry <= later ->
       Get key later later' c' = Ok (INil, false) c') /\
    Count c' = Ok (len (entries c)) c'.
Proof.
  intros (Hmu & Hms & l & Hl) Hk He Hex Hnow.
  set (e' := with_Expiration (expiration_for 0 now_expiry) e).
  set (c' := with_heap (<[a := e']> (heap c)) c).
  assert (He' : heap c' !! a = Some e').
  { cbn. rewrite list_lookup_insert_eq; [done|]. by eapply lookup_lt_Some. }
  exists c'. split; [by apply Expire_found|]. split.
  { split; [done|]. split; [done|]. exists l. by apply (linked_store c l a e e'). }
  split.
  - intros later later' Hlater.
    apply (Get_expired c' key later later' a e'); try done.
    apply Expired_true. cbn. unfold expiration_for. cbn.
    rewrite Z.add_0_r. unfold UnixNano.
    rewrite wrap64_id by (unfold min_int64; lia). unfold NoExpiration. lia.
  - change (Count c' = Ok (len (entries c')) c'). by apply Count_eval.
Qed.

Lemma Expire_zero_expires_at_once_witness :
  exists c',
    Expire "a" 0 30 31 full_cache = Ok true c' /\ valid c' /\
    (forall later later', 31 <= later ->
       Get "a" later later' c' = Ok (INil, false) c') /\
    Count c' = Ok (len (entries full_cache)) c'.
Proof.
  apply (Expire_zero_expires_at_once "a" 30 31 full_cache 0%nat
           (mkEntry "a" (IInt 1) 10 NoExpiration None (Some 1%nat))).
  - apply validb_sound. vm_compute. reflexivity.
  - reflexivity.
  - reflexivity.
  - reflexivity.
  - vm_compute. split; discriminate.
Defined.

(** X16.  [Expire] with the TTL -1 on a live key makes it permanent: at
    every later instant [TTL] answers [ErrKeyHasNoExpiration] and [Get]
    finds the value. *)
Theorem Expire_NoExpiration_makes_permanent
    (key : string) (now now_expiry : Z) (c : Cache) (a : addr) (e : Entry) :
  valid c -> entries c !! key = Some a -> heap c !! a = Some e ->
  Expired e now = false ->
  exists c',
    Expire key NoExpiration now now_expiry c = Ok true c' /\ valid c' /\
    (forall later, TTL key later c' = Ok (0, Some ErrKeyHasNoExpiration) c') /\
    (forall later later', exists c'',
       Get key later later' c' = Ok (Value e, true) c'').
Proof.
  intros (Hmu & Hms & l & Hl) Hk He Hex.
  set (e' := with_Expiration (expiration_for NoExpiration now_expiry) e).
  set (c' := with_heap (<[a := e']> (heap c)) c).
  assert (He' : heap c' !! a = Some e').
  { cbn. rewrite list_lookup_insert_eq; [done|]. by eapply lookup_lt_Some. }
  assert (Hv' : valid c').
  { split; [done|]. split; [done|]. exists l. by apply (linked_store c l a e e'). }
  exists c'. split; [by apply Expire_found|]. split; [done|]. split.
  - intros later. by rewrite (TTL_found c' key later a e').
  - intros later later'.
    destruct (Get_valid c' key later later' Hv') as (c'' & Hget & _).
    exists c''. by rewrite Hget, (Get_answer_found c' key later a e').
Qed.

Lemma Expire_NoExpiration_makes_permanent_witness :
  exists c',
    Expire "a" NoExpiration 12 12 cache_with_ttl = Ok true c' /\ valid c' /\
    (forall later, TTL "a" later c' = Ok (0, Some ErrKeyHasNoExpiration) c') /\
    (forall later later', exists c'',
       Get "a" later later' c' =
         Ok (Value (mkEntry "a" (IInt 1) 10 15 None (Some 1%nat)), true) c'').
Proof.
  apply (Expire_NoExpiration_makes_permanent "a" 12 12 cache_with_ttl 0%nat
           (mkEntry "a" (IInt 1) 10 15 None (Some 1%nat))).
  - apply validb_sound. vm_compute. reflexivity.
  - reflexivity.
  - reflexivity.
  - reflexivity.
Defined.

(** ** Deleting *)

Lemma Delete_valid c key :
  valid c ->
  exists c',
    Delete key c = Ok (bool_decide (is_Some (entries c !! key))) c' /\
    valid c' /\ entries c' = delete key (entries c) /\
    MaxSize c' = MaxSize c /\ Policy c' = Policy c /\
    payload <$> heap c' = payload <$> heap c.
Proof.
  intros (Hmu & Hms & l & Hl). destruct (entries c !! key) as [a|] eqn:Hk.
  - destruct (chained_index _ _ _ _ Hl key a Hk) as (Ha & _).
    apply list_elem_of_split in Ha as (l1 & l2 & ->).
    destruct (Delete_linked c l1 a l2 key Hmu Hl Hk)
      as (c' & Hrun & Hl' & He' & Hm' & Hms' & Hp' & Hpay').
    exists c'. rewrite bool_decide_eq_true_2 by eauto.
    split; [done|]. split; [|done].
    split; [done|]. split; [lia|]. by exists (l1 ++ l2).
  - exists c. rewrite bool_decide_eq_false_2 by (by intros [? ?]).
    split; [by apply Delete_absent|]. split.
    { split; [done|]. split; [done|]. by exists l. }
    by rewrite delete_id.
Qed.

(** X17.  [Delete] on a valid cache ends normally, answers whether the key
    was in the index, and leaves a valid cache without the key; when the
    key was there its entry is taken out of the list and the others keep
    their order.  Every other key keeps its entry and payload. *)
Theorem Delete_removes_the_key (key : string) (c : Cache) :
  valid c ->
  exists c',
    Delete key c = Ok (bool_decide (is_Some (entries c !! key))) c' /\
    valid c' /\ entries c' = delete key (entries c) /\
    MaxSize c' = MaxSize c /\ Policy c' = Policy c /\
    stored c' key = None /\
    (forall k, k ≠ key -> stored c' k = stored c k) /\
    (forall l1 a l2, linked c (l1 ++ a :: l2) -> entries c !! key = Some a ->
                     linked c' (l1 ++ l2)).
Proof.
  intros Hv.
  destruct (Delete_valid c key Hv) as (c' & Hrun & Hv' & He' & Hms' & Hp' & Hpay').
  exists c'. split; [done|]. split; [done|]. split; [done|]. split; [done|].
  split; [done|]. split.
  { apply stored_absent. by rewrite He', lookup_delete_eq. }
  split.
  - intros k Hne. unfold stored. rewrite He', lookup_delete_ne by done.
    destruct (entries c !! k) as [b|]; [|done]. simpl.
    by rewrite <- !list_lookup_fmap, Hpay'.
  - intros l1 a l2 Hl Hk. destruct Hv as (Hmu & _).
    destruct (Delete_linked c l1 a l2 key Hmu Hl Hk) as (c'' & Hrun' & Hl'' & _).
    rewrite Hrun in Hrun'. by injection Hrun' as _ ->.
Qed.

Lemma Delete_removes_the_key_witness :
  exists c',
    Delete "a" full_cache =
      Ok (bool_decide (is_Some (entries full_cache !! "a"))) c' /\
    valid c' /\ entries c' = delete "a" (entries full_cache) /\
    MaxSize c' = MaxSize full_cache /\ Policy c' = Policy full_cache /\
    stored c' "a" = None /\
    (forall k, k ≠ "a" -> stored c' k = stored full_cache k) /\
    (forall l1 a l2, linked full_cache (l1 ++ a :: l2) ->
                     entries full_cache !! "a" = Some a ->
                     linked c' (l1 ++ l2)).
Proof.
  apply (Delete_removes_the_key "a" full_cache).
  apply validb_sound. vm_compute. reflexivity.
Defined.

Lemma DeleteAll_valid c keys :
  valid c ->
  exists c',
    DeleteAll keys c = Ok (len (entries c) - len (entries c')) c' /\
    valid c' /\
    (forall k, entries c' !! k = if decide (k ∈ keys) then None else entries c !! k) /\
    MaxSize c' = MaxSize c /\ Policy c' = Policy c /\
    payload <$> heap c' = payload <$> heap c.
Proof.
  intros (Hmu & Hms & l & Hl).
  destruct (DeleteAll_loop_linked keys (with_mutex WriteHeld c) l 0)
    as (c1 & l1 & Hloop & Hl1 & _ & Hidx & Hm1 & Hms1 & Hp1 & Hpay1);
    [by apply linked_with_mutex|].
  cbn in Hloop, Hidx, Hm1, Hms1, Hp1, Hpay1.
  exists (with_mutex Free c1). split.
  { unfold DeleteAll. rewrite (bind_Ok _ _ _ _ _ (Lock_Ok c Hmu)).
    rewrite (bind_Ok _ _ _ _ _ Hloop).
    rewrite (bind_Ok _ _ _ _ _ (Unlock_Ok c1 Hm1)). cbn. unfold ret. f_equal. }
  split.
  { split; [done|]. split; [cbn; lia|]. exists l1. by apply linked_with_mutex. }
  cbn. done.
Qed.

(** X18.  [DeleteAll] on a valid cache ends normally and leaves a valid
    cache in which none of the given keys is indexed and every other key
    leads to the entry it led to, with its payload; the number it answers
    is the number of entries the index has lost, so a key given twice or
    not present is not counted. *)
Theorem DeleteAll_counts_what_it_removes (keys : list string) (c : Cache) :
  valid c ->
  exists c',
    DeleteAll keys c = Ok (len (entries c) - len (entries c')) c' /\
    valid c' /\
    (forall k, entries c' !! k = if decide (k ∈ keys) then None else entries c !! k) /\
    (forall k, k ∉ keys -> stored c' k = stored c k) /\
    MaxSize c' = MaxSize c /\ Policy c' = Policy c.
Proof.
  intros Hv.
  destruct (DeleteAll_valid c keys Hv) as (c' & Hrun & Hv' & Hidx & Hms' & Hp' & Hpay').
  exists c'. split; [done|]. split; [done|]. split; [done|]. split; [|done].
  intros k Hk. unfold stored. rewrite Hidx. rewrite decide_False by done.
  destruct (entries c !! k) as [b|]; [|done]. simpl.
  by rewrite <- !list_lookup_fmap, Hpay'.
Qed.

Lemma DeleteAll_counts_what_it_removes_witness :
  exists c',
    DeleteAll ["a"; "z"; "a"] full_cache =
      Ok (len (entries full_cache) - len (entries c')) c' /\
    valid c' /\
    (forall k, entries c' !! k =
               if decide (k ∈ ["a"; "z"; "a"]) then None else entries full_cache !! k) /\
    (forall k, k ∉ ["a"; "z"; "a"] -> stored c' k = stored full_cache k) /\
    MaxSize c' = MaxSize full_cache /\ Policy c' = Policy full_cache.
Proof.
  apply (DeleteAll_counts_what_it_removes ["a"; "z"; "a"] full_cache).
  apply validb_sound. vm_compute. reflexivity.
Defined.

Lemma linked_empty c :
  entries c = ∅ -> head c = None -> tail c = None -> linked c [].
Proof.
  intros He Hh Ht. split; try done.
  - apply NoDup_nil_2.
  - intros k a Hk. by rewrite He in Hk.
  - by intros a e Ha%elem_of_nil.
Qed.

Lemma Clear_valid c :
  mutex c = Free -> 0 <= MaxSize c ->
  Clear c = Ok tt (with_tail None (with_head None (with_entries ∅ c))) /\
  valid (with_tail None (with_head None (with_entries ∅ c))).
Proof.
  intros Hmu Hms. split.
  - unfold Clear, bind, Lock, Unlock, modify. rewrite Hmu. cbn.
    unfold with_tail, with_head, with_entries, with_mutex. cbn. by rewrite Hmu.
  - split; [done|]. split; [done|]. exists []. by apply linked_empty.
Qed.

(** X19.  [Clear] ends normally whenever the mutex is free, whatever the
    links were: the index is empty, [head] and [tail] are [nil], so the
    cache is valid again; the configuration is kept, [Count] answers 0 and
    [Get] finds no key. *)
Theorem Clear_empties (c : Cache) :
  mutex c = Free -> 0 <= MaxSize c ->
  exists c',
    Clear c = Ok tt c' /\ valid c' /\ linked c' [] /\
    entries c' = ∅ /\ head c' = None /\ tail c' = None /\
    MaxSize c' = MaxSize c /\ Policy c' = Policy c /\
    Count c' = Ok 0 c' /\
    (forall k now now', Get k now now' c' = Ok (INil, false) c').
Proof.
  intros Hmu Hms. destruct (Clear_valid c Hmu Hms) as [Hrun Hv].
  eexists. split; [exact Hrun|]. split; [done|].
  split; [by apply linked_empty|]. cbn.
  split; [done|]. split; [done|]. split; [done|]. split; [done|]. split; [done|].
  split.
  - rewrite Count_eval by done. done.
  - intros k now now'. by apply Get_absent.
Qed.

Lemma Clear_empties_witness :
  exists c',
    Clear full_cache = Ok tt c' /\ valid c' /\ linked c' [] /\
    entries c' = ∅ /\ head c' = None /\ tail c' = None /\
    MaxSize c' = MaxSize full_cache /\ Policy c' = Policy full_cache /\
    Count c' = Ok 0 c' /\
    (forall k now now', Get k now now' c' = Ok (INil, false) c').
Proof.
  apply (Clear_empties full_cache).
  - reflexivity.
  - vm_compute. discriminate.
Defined.

(** X20.  On a linked cache [Count] answers the length of the list, expired
    entries included, and changes nothing. *)
Theorem Count_is_length_of_list (c : Cache) (l : list addr) :
  mutex c = Free -> linked c l -> Count c = Ok (Z.of_nat (length l)) c.
Proof.
  intros Hmu Hl. rewrite Count_eval by done. unfold len.
  by rewrite (linked_size c l Hl).
Qed.

Lemma Count_is_length_of_list_witness :
  Count cache_with_ttl = Ok (Z.of_nat (length [0%nat; 1%nat])) cache_with_ttl.
Proof.
  apply (Count_is_length_of_list cache_with_ttl [0%nat; 1%nat]).
  - reflexivity.
  - apply linkedb_sound. vm_compute. reflexivity.
Defined.

(** ** Saving and restoring *)

Lemma SaveToFile_eval saving c :
  mutex c = Free \/ (exists n, mutex c = ReadHeld (S n)) ->
  SaveToFile saving c =
    Ok (match saving with
        | OpenFails => (None, Some ErrOpenFile)
        | EncodeFails => (None, Some ErrEncode)
        | FlushFails => (None, Some ErrFlush)
        | Saved => (Some (Encoded (records_of c)), None)
        end) c.
Proof.
  intros [Hmu|[n Hmu]]; destruct saving; try done;
    unfold SaveToFile, bind, RLock, RUnlock, get_cache, ret; rewrite Hmu; cbn;
    rewrite with_mutex_twice, <- Hmu, with_mutex_id; reflexivity.
Qed.

(** X21.  [SaveToFile] never changes the cache, whether the mutex is free or
    other readers hold it, and whatever fails: the read lock of line 263 is
    given back at line 265 before the error of [Encode] is looked at, so
    that also on that path the state is the one before.  The error is
    [nil] exactly when opening, encoding and flushing all succeed, and it
    is then that the file holds what [gob] encodes of the index. *)
Theorem SaveToFile_leaves_the_cache_alone (saving : Saving) (c : Cache) :
  mutex c = Free \/ (exists n, mutex c = ReadHeld (S n)) ->
  exists file err,
    SaveToFile saving c = Ok (file, err) c /\
    (err = None <-> saving = Saved) /\
    (saving = OpenFails -> err = Some ErrOpenFile) /\
    (saving = EncodeFails -> err = Some ErrEncode) /\
    (saving = FlushFails -> err = Some ErrFlush) /\
    file = (if err is None then Some (Encoded (records_of c)) else None).
Proof.
  intros Hmu. rewrite (SaveToFile_eval saving c Hmu).
  destruct saving; eexists _, _; (split; [reflexivity|]);
    (split; [by split|]); by repeat split.
Qed.

Lemma SaveToFile_leaves_the_cache_alone_witness :
  exists file err,
    SaveToFile EncodeFails (with_mutex (ReadHeld 2) full_cache) =
      Ok (file, err) (with_mutex (ReadHeld 2) full_cache) /\
    (err = None <-> EncodeFails = Saved) /\
    (EncodeFails = OpenFails -> err = Some ErrOpenFile) /\
    (EncodeFails = EncodeFails -> err = Some ErrEncode) /\
    (EncodeFails = FlushFails -> err = Some ErrFlush) /\
    file = (if err is None
            then Some (Encoded (records_of (with_mutex (ReadHeld 2) full_cache)))
            else None).
Proof.
  apply (SaveToFile_leaves_the_cache_alone EncodeFails
           (with_mutex (ReadHeld 2) full_cache)).
  right. by exists 1%nat.
Defined.

(** X22.  A successful restore into a valid cache whose index is empty
    leaves a valid cache: the entries that are left are linked from tail to
    head in ascending order of [RelevantTimestamp], nothing comes before the
    tail and nothing behind the head, and the index holds exactly these
    entries, each with the payload of its record. *)
Theorem ReadFromFile_into_empty_cache_is_valid
    (sorted_entries : list Entry -> gmap string addr -> list addr)
    (records : list (string * Entry)) (fuel : nat) (c : Cache) :
  sorts_by_timestamp sorted_entries -> valid c -> entries c = ∅ ->
  well_keyed records ->
  let h1 := decoded_heap (heap c) records in
  let m1 := decoded_index (length (heap c)) records ∅ in
  let sorted := sorted_entries h1 m1 in
  let n := evictions (MaxSize c) (length sorted) in
  (n <= fuel)%nat ->
  exists c',
    ReadFromFile sorted_entries (Encoded records) fuel c =
      Ok (Z.of_nat n, None) c' /\
    valid c' /\ linked c' (drop n sorted) /\
    ascending (heap c') (drop n sorted) /\
    MaxSize c' = MaxSize c /\ Policy c' = Policy c /\
    payload <$> heap c' = payload <$> h1 /\
    (forall k a, entries c' !! k = Some a <->
                 m1 !! k = Some a /\ a ∈ drop n sorted).
Proof.
  intros Hsort Hv Hem Hw h1 m1 sorted n Hfuel.
  destruct (ReadFromFile_fresh sorted_entries records fuel c Hsort Hv Hem Hw Hfuel)
    as (c' & Hrun & Hl' & Hm' & Hms' & Hp' & Hpay' & Hidx' & Hperm & Hasc).
  fold h1 m1 in Hrun, Hl', Hpay', Hidx', Hperm, Hasc.
  fold sorted in Hrun, Hl', Hidx', Hperm, Hasc. fold n in Hrun, Hl', Hidx'.
  exists c'. split; [done|]. split.
  { split; [done|]. split; [|by eexists]. destruct Hv as (_ & ? & _). lia. }
  split; [done|]. split; [|done].
  intros i j a b Hij Ha Hb. rewrite !(timestamp_at_payload _ _ _ Hpay').
  rewrite lookup_drop in Ha, Hb. eapply Hasc; [|exact Ha|exact Hb]. lia.
Qed.

Lemma ReadFromFile_into_empty_cache_is_valid_witness :
  exists c',
    ReadFromFile sort_by_timestamp (Encoded snapshot3) 1 small_cache =
      Ok (1, None) c' /\
    valid c' /\ linked c' [2%nat; 0%nat] /\
    ascending (heap c') [2%nat; 0%nat].
Proof.
  destruct (ReadFromFile_into_empty_cache_is_valid sort_by_timestamp snapshot3 1
              small_cache)
    as (c' & Hrun & Hv & Hl & Hasc & _).
  - exact sort_by_timestamp_sorts.
  - apply validb_sound. vm_compute. reflexivity.
  - reflexivity.
  - repeat constructor.
  - vm_compute. lia.
  - exists c'. split; [exact Hrun|]. split; [exact Hv|]. split; [exact Hl|exact Hasc].
Defined.

(** ** Every call keeps the cache valid *)

Lemma linked_with_MaxSize c l n : linked c l -> linked (with_MaxSize n c) l.
Proof. intros [? ? ? ? ? ?]. by split. Qed.

Lemma linked_with_Policy c l p : linked c l -> linked (with_Policy p c) l.
Proof. intros [? ? ? ? ? ?]. by split. Qed.

Lemma SetWithTTL_valid key value ttl now1 now2 c :
  valid c -> exists c', SetWithTTL key value ttl now1 now2 c = Ok tt c' /\ valid c'.
Proof.
  intros Hv. destruct (entries c !! key) as [a|] eqn:Hk.
  - destruct (SetWithTTL_present key value ttl now1 now2 c a Hv Hk)
      as (c' & _ & _ & Hrun & Hv' & _). eauto.
  - destruct (decide (ttl = NoExpiration \/ 0 <= ttl)) as [Httl|Httl].
    + destruct (SetWithTTL_absent key value ttl now1 now2 c Hv Hk Httl)
        as (c' & _ & _ & Hrun & Hv' & _). eauto.
    + exists c. split; [|done]. destruct Hv as (Hmu & _).
      apply SetWithTTL_absent_negative; try done; lia.
Qed.

Lemma TTL_absent c key now :
  mutex c = Free -> entries c !! key = None ->
  TTL key now c = Ok (0, Some ErrKeyDoesNotExist) c.
Proof.
  intros Hmu Hk. unfold TTL, bind, RLock, RUnlock, get_cache.
  rewrite Hmu. cbn. by rewrite Hk, (read_back c Hmu).
Qed.

Lemma TTL_valid c key now : valid c -> exists r, TTL key now c = Ok r c.
Proof.
  intros (Hmu & _ & l & Hl). destruct (entries c !! key) as [a|] eqn:Hk.
  - destruct (chained_index _ _ _ _ Hl key a Hk) as (_ & e & He & _).
    eexists. by apply (TTL_found c key now a e).
  - eexists. by apply TTL_absent.
Qed.

Lemma Expire_valid c key ttl now now2 :
  valid c -> exists r c', Expire key ttl now now2 c = Ok r c' /\ valid c'.
Proof.
  intros Hv. pose proof Hv as (Hmu & Hms & l & Hl).
  destruct (entries c !! key) as [a|] eqn:Hk.
  - destruct (chained_index _ _ _ _ Hl key a Hk) as (_ & e & He & _).
    destruct (Expired e now) eqn:Hex.
    + exists false, c. split; [|done]. by apply (Expire_expired c key ttl now now2 a e).
    + eexists true, _. split; [by apply (Expire_found c key ttl now now2 a e)|].
      split; [done|]. split; [done|]. exists l.
      by apply (linked_store c l a e).
  - exists false, c. split; [|done]. by apply Expire_absent.
Qed.

Lemma run_call_valid o c :
  valid c -> exists c', run_call o c = Ok tt c' /\ valid c'.
Proof.
  intros Hv. pose proof Hv as (Hmu & Hms & l & Hl). destruct o; simpl.
  - eexists. split; [reflexivity|]. split; [done|]. split.
    + cbn. destruct (maxSize <? 0) eqn:E; [done|]. apply Z.ltb_ge in E. lia.
    + exists l. by apply linked_with_MaxSize.
  - eexists. split; [reflexivity|]. split; [done|]. split; [done|].
    exists l. by apply linked_with_Policy.
  - by apply SetWithTTL_valid.
  - by apply SetWithTTL_valid.
  - destruct (Get_valid c key now now_accessed Hv) as (c' & Hrun & Hv' & _).
    exists c'. by rewrite (bind_Ok _ _ _ _ _ Hrun).
  - destruct (GetAll_loop_valid keys clock 0 c ∅ Hv) as (c' & m & Hrun & Hv' & _).
    exists c'. unfold GetAll. by rewrite (bind_Ok _ _ _ _ _ Hrun).
  - destruct (Delete_valid c key Hv) as (c' & Hrun & Hv' & _).
    exists c'. by rewrite (bind_Ok _ _ _ _ _ Hrun).
  - destruct (DeleteAll_valid c keys Hv) as (c' & Hrun & Hv' & _).
    exists c'. by rewrite (bind_Ok _ _ _ _ _ Hrun).
  - exists c. by rewrite (bind_Ok _ _ _ _ _ (Count_eval c Hmu)).
  - destruct (Clear_valid c Hmu Hms) as [Hrun Hv']. eauto.
  - destruct (TTL_valid c key now Hv) as (r & Hrun).
    exists c. by rewrite (bind_Ok _ _ _ _ _ Hrun).
  - destruct (Expire_valid c key ttl now now_expiry Hv) as (r & c' & Hrun & Hv').
    exists c'. by rewrite (bind_Ok _ _ _ _ _ Hrun).
  - exists c.
    by rewrite (bind_Ok _ _ _ _ _ (SaveToFile_eval saving c (or_introl Hmu))).
Qed.

(** X24.  Every sequence of calls of the methods that work on the cache in
    memory, made one after the other on a valid cache, ends normally (no
    nil dereference, no unlock of a free mutex, no lock that is never
    released) and leaves a valid cache: the mutex is free, the maximum size
    is not negative, and index and list hold the same entries, linked from
    [tail] to [head]. *)
Theorem calls_keep_the_cache_valid (os : list call) (c : Cache) :
  valid c -> exists c', run_calls os c = Ok tt c' /\ valid c'.
Proof.
  revert c. induction os as [|o os IH]; intros c Hv.
  - by exists c.
  - destruct (run_call_valid o c Hv) as (c1 & Hrun & Hv1).
    destruct (IH c1 Hv1) as (c' & Hruns & Hv').
    exists c'. simpl. by rewrite (bind_Ok _ _ _ _ _ Hrun).
Qed.

Lemma calls_keep_the_cache_valid_witness :
  exists c',
    run_calls [CallWithMaxSize 1; CallSet "a" (IInt 1) 10;
               CallWithEvictionPolicy LeastRecentlyUsed;
               CallSetWithTTL "b" (IInt 2) 5 20 20; CallGet "b" 22 22;
               CallGetAll ["a"; "b"] (fun i => (22 + Z.of_nat i, 22 + Z.of_nat i));
               CallSaveToFile FlushFails;
               CallExpire "b" 0 23 23; CallDeleteAll ["a"; "b"]; CallClear]
      NewCache = Ok tt c' /\ valid c'.
Proof.
  apply (calls_keep_the_cache_valid _ NewCache).
  apply validb_sound. vm_compute. reflexivity.
Defined.

(** ** The two policies *)

(** X25.  Under LeastRecentlyUsed, in a full cache of two entries or more,
    reading the tail saves it from the next eviction: [Get] moves it behind
    the head, and the [Set] of a new key that follows evicts the entry that
    came second, whose key leaves the index, while the key that was read
    stays. *)
Theorem LRU_read_saves_from_eviction
    (kt key : string) (value : iface) (now now_accessed now_set : Z) (c : Cache)
    (t t2 : addr) (l : list addr) (et et2 : Entry) :
  mutex c = Free -> Policy c = LeastRecentlyUsed ->
  0 < MaxSize c -> MaxSize c <= len (entries c) ->
  linked c (t :: t2 :: l) ->
  entries c !! kt = Some t -> heap c !! t = Some et -> Expired et now = false ->
  heap c !! t2 = Some et2 -> entries c !! key = None ->
  exists c1 c2 a,
    Get kt now now_accessed c = Ok (Value et, true) c1 /\
    Set_ key value now_set c1 = Ok tt c2 /\
    linked c2 ((l ++ [t]) ++ [a]) /\
    entries c2 !! kt = Some t /\ entries c2 !! Key et2 = None /\
    entries c2 !! key = Some a /\
    len (entries c2) = len (entries c).
Proof.
  intros Hmu Hp Hpos Hfull Hl Hkt Het Hex Het2 Hk.
  destruct (Get_found_LRU_linked c kt now now_accessed [] t (t2 :: l) et)
    as (c1 & Hget & Hl1 & He1 & Hm1 & Hms1 & Hp1 & Hpay1); try done.
  simpl in Hl1.
  assert (Htt2 : t ≠ t2).
  { intros ->. destruct Hl as [Hnd _ _ _ _ _].
    apply NoDup_cons in Hnd as [Hnd _]. apply Hnd. by left. }
  assert (Het2' : <[t := with_RelevantTimestamp now_accessed et]> (heap c) !! t2
                  = Some et2) by (by rewrite list_lookup_insert_ne).
  destruct (payload_lookup _ _ _ _ Hpay1 Het2') as (e2' & He2' & Hpe2).
  apply payload_Key in Hpe2.
  destruct (SetWithTTL_absent_list key value NoExpiration now_set now_set c1
              (t2 :: l ++ [t]))
    as (c2 & l' & Hset & Hm2 & Hms2 & Hp2 & Hl2 & Hpay2 & Hcase);
    [done | lia | done | by rewrite He1 | by left |].
  rewrite He1, Hms1 in Hcase.
  destruct Hcase as [(_ & _ & [Hz|Hle])|(_ & _ & t' & et' & Heq & Het' & Hkt' & Hne & He2)];
    [unfold NoMaxSize in Hz; lia | lia |].
  injection Heq as <- <-. assert (et' = e2') by congruence. subst et'.
  rewrite Hpe2 in *.
  assert (Hkk : kt ≠ Key et2).
  { intros ->. congruence. }
  assert (Hkn : kt ≠ key) by (intros ->; congruence).
  exists c1, c2, (length (heap c1)).
  split; [done|]. split; [done|]. split; [done|].
  split; [by rewrite He2, lookup_delete_ne, lookup_insert_ne|].
  split; [by rewrite He2, lookup_delete_eq|].
  split; [by rewrite He2, lookup_delete_ne, lookup_insert_eq|].
  rewrite He2, (len_delete_Some _ _ t2) by (by rewrite lookup_insert_ne).
  rewrite len_insert_None by done. lia.
Qed.

Lemma LRU_read_saves_from_eviction_witness :
  exists c1 c2 a,
    Get "a" 30 30 (after (WithMaxSize 2) lru_cache) =
      Ok (Value (mkEntry "a" (IInt 1) 10 NoExpiration None (Some 1%nat)), true) c1 /\
    Set_ "c" (IInt 3) 40 c1 = Ok tt c2 /\
    linked c2 (([] ++ [0%nat]) ++ [a]) /\
    entries c2 !! "a" = Some 0%nat /\
    entries c2 !! Key (mkEntry "b" (IInt 2) 20 NoExpiration (Some 0%nat) None) = None /\
    entries c2 !! "c" = Some a /\
    len (entries c2) = len (entries (after (WithMaxSize 2) lru_cache)).
Proof.
  apply (LRU_read_saves_from_eviction "a" "c" (IInt 3) 30 30 40
           (after (WithMaxSize 2) lru_cache) 0%nat 1%nat []
           (mkEntry "a" (IInt 1) 10 NoExpiration None (Some 1%nat))
           (mkEntry "b" (IInt 2) 20 NoExpiration (Some 0%nat) None)).
  - reflexivity.
  - reflexivity.
  - reflexivity.
  - vm_compute. discriminate.
  - apply linkedb_sound. vm_compute. reflexivity.
  - reflexivity.
  - reflexivity.
  - reflexivity.
  - reflexivity.
  - reflexivity.
Defined.

(** X26.  Under FirstInFirstOut reading does not save an entry: in a full
    cache [Get] on the key of the tail finds the value and leaves the cache
    as it is, and the [Set] of a new key that follows evicts that very
    entry. *)
Theorem FIFO_read_does_not_save_from_eviction
    (kt key : string) (value : iface) (now now_accessed now_set : Z) (c : Cache)
    (t : addr) (l : list addr) (et : Entry) :
  mutex c = Free -> Policy c = FirstInFirstOut ->
  0 < MaxSize c -> MaxSize c <= len (entries c) ->
  linked c (t :: l) ->
  entries c !! kt = Some t -> heap c !! t = Some et -> Expired et now = false ->
  entries c !! key = None ->
  exists c2,
    Get kt now now_accessed c = Ok (Value et, true) c /\
    Set_ key value now_set c = Ok tt c2 /\
    linked c2 (l ++ [length (heap c)]) /\
    entries c2 !! kt = None /\
    entries c2 !! key = Some (length (heap c)).
Proof.
  intros Hmu Hp Hpos Hfull Hl Hkt Het Hex Hk.
  destruct (SetWithTTL_absent_list key value NoExpiration now_set now_set c (t :: l))
    as (c2 & l' & Hset & Hm2 & Hms2 & Hp2 & Hl2 & Hpay2 & Hcase);
    [done | lia | done | done | by left |].
  destruct Hcase as [(_ & _ & [Hz|Hle])|(_ & _ & t' & et' & Heq & Het' & Hkt' & Hne & He2)];
    [unfold NoMaxSize in Hz; lia | lia |].
  injection Heq as <- <-. assert (et' = et) by congruence. subst et'.
  destruct (chained_index _ _ _ _ Hl kt t Hkt) as (_ & e & He & Hke).
  assert (e = et) by congruence. subst e.
  exists c2. split; [by apply (Get_found_FIFO c kt now now_accessed t et)|].
  split; [done|]. split; [done|].
  split; [by rewrite He2, <- Hke, lookup_delete_eq|].
  by rewrite He2, lookup_delete_ne, lookup_insert_eq.
Qed.

Lemma FIFO_read_does_not_save_from_eviction_witness :
  exists c2,
    Get "a" 30 30 full_cache =
      Ok (Value (mkEntry "a" (IInt 1) 10 NoExpiration None (Some 1%nat)), true)
         full_cache /\
    Set_ "c" (IInt 3) 40 full_cache = Ok tt c2 /\
    linked c2 ([1%nat] ++ [length (heap full_cache)]) /\
    entries c2 !! "a" = None /\
    entries c2 !! "c" = Some (length (heap full_cache)).
Proof.
  apply (FIFO_read_does_not_save_from_eviction "a" "c" (IInt 3) 30 30 40
           full_cache 0%nat [1%nat]
           (mkEntry "a" (IInt 1) 10 NoExpiration None (Some 1%nat))).
  - reflexivity.
  - reflexivity.
  - reflexivity.
  - vm_compute. discriminate.
  - apply linkedb_sound. vm_compute. reflexivity.
  - reflexivity.
  - reflexivity.
  - reflexivity.
  - reflexivity.
Defined.

(** X27.  The retry that the comment of lines 274-278 offers: a snapshot is
    restored into a valid cache with an empty index that is too small for
    it, so that entries are evicted; the maximum size is then raised to hold
    the snapshot and the same snapshot is restored again.  The second
    restore evicts nothing and leaves a valid cache that holds every record
    of the snapshot under its key, and nothing else. *)
Theorem ReadFromFile_retry_restores_every_record
    (sorted_entries : list Entry -> gmap string addr -> list addr)
    (records : list (string * Entry)) (fuel fuel' : nat) (maxSize : Z)
    (c : Cache) :
  sorts_by_timestamp sorted_entries -> valid c -> entries c = ∅ ->
  well_keyed records -> NoDup records.*1 ->
  (evictions (MaxSize c) (length records) <= fuel)%nat ->
  Z.of_nat (length records) <= maxSize ->
  exists c1 c2,
    ReadFromFile sorted_entries (Encoded records) fuel c =
      Ok (Z.of_nat (evictions (MaxSize c) (length records)), None) c1 /\
    ReadFromFile sorted_entries (Encoded records) fuel'
      (after (WithMaxSize maxSize) c1) = Ok (0, None) c2 /\
    valid c2 /\ MaxSize c2 = maxSize /\
    (forall k, k ∉ records.*1 -> stored c2 k = None) /\
    (forall k d, (k, d) ∈ records -> stored c2 k = Some (payload d)) /\
    len (entries c2) = Z.of_nat (length records).
Proof.
  intros Hsort Hv Hem Hw Hnd Hfuel Hmax.
  set (h1 := decoded_heap (heap c) records).
  set (m1 := decoded_index (length (heap c)) records ∅).
  assert (Hcov0 : forall k, is_Some ((∅ : gmap string addr) !! k) -> k ∈ records.*1).
  { intros k [a Hk]. by rewrite lookup_empty in Hk. }
  pose proof (decoded_index_size records (length (heap c)) ∅ Hcov0 Hnd) as Hsize.
  fold m1 in Hsize.
  destruct (Hsort h1 m1) as [Hperm0 _].
  assert (Hlen : length (sorted_entries h1 m1) = length records).
  { by rewrite Hperm0, length_fmap, length_map_to_list. }
  destruct (ReadFromFile_fresh sorted_entries records fuel c Hsort Hv Hem Hw)
    as (c1 & Hrun & Hl1 & Hm1 & Hms1 & Hp1 & _ & Hidx1 & _).
  { fold h1 m1. by rewrite Hlen. }
  fold h1 m1 in Hrun, Hl1, Hidx1. rewrite Hlen in Hrun, Hl1, Hidx1.
  set (c1' := after (WithMaxSize maxSize) c1).
  assert (Hc1' : c1' = with_MaxSize maxSize c1).
  { unfold c1', after, WithMaxSize, modify.
    assert ((maxSize <? 0) = false) as -> by (apply Z.ltb_ge; lia). done. }
  assert (Hv1 : valid c1').
  { rewrite Hc1'. split; [done|]. split; [cbn; lia|].
    eexists. apply linked_with_MaxSize. exact Hl1. }
  assert (Hcov1 : forall k, is_Some (entries c1' !! k) -> k ∈ records.*1).
  { rewrite Hc1'. cbn. intros k [a Hk]. apply Hidx1 in Hk as [Hk _].
    apply (decoded_index_keys records (length (heap c)) ∅ k Hcov0). fold m1. eauto. }
  destruct (restore_covered sorted_entries records fuel' c1' Hsort Hv1 Hcov1 Hw Hnd)
    as (c2 & l2 & Hrun2 & Hv2 & _ & _ & Hms2 & _ & Hout & Hst & Hlen2).
  { right. rewrite Hc1'. cbn. lia. }
  exists c1, c2. split; [done|]. split; [done|]. split; [done|].
  split; [|done]. rewrite Hms2, Hc1'. done.
Qed.

Lemma ReadFromFile_retry_restores_every_record_witness :
  exists c1 c2,
    ReadFromFile sort_by_timestamp (Encoded snapshot3) 1 small_cache =
      Ok (Z.of_nat (evictions (MaxSize small_cache) (length snapshot3)), None) c1 /\
    ReadFromFile sort_by_timestamp (Encoded snapshot3) 0
      (after (WithMaxSize 3) c1) = Ok (0, None) c2 /\
    valid c2 /\ MaxSize c2 = 3 /\
    (forall k, k ∉ snapshot3.*1 -> stored c2 k = None) /\
    (forall k d, (k, d) ∈ snapshot3 -> stored c2 k = Some (payload d)) /\
    len (entries c2) = Z.of_nat (length snapshot3).
Proof.
  apply (ReadFromFile_retry_restores_every_record sort_by_timestamp snapshot3 1 0 3
           small_cache).
  - exact sort_by_timestamp_sorts.
  - apply validb_sound. vm_compute. reflexivity.
  - reflexivity.
  - repeat constructor.
  - apply (bool_decide_unpack _). vm_compute. exact I.
  - vm_compute. lia.
  - vm_compute. discriminate.
Defined.
